(** * gclient_eval: the restricted evaluator of DEPS manifests

    A shallow embedding of [gclient_eval.py]: the expression evaluator
    [_gclient_eval] with its inner closure [_convert], the statement
    executor [_gclient_exec] with [_visit_in_module], the structural
    comparison of [Check], and the manifest schema [_GCLIENT_SCHEMA].

    Conventions of the embedding.
    - Manifest text is represented by the tree that [ast.parse] returns for
      it (Python 2 grammar); parsing itself is not modelled.
    - Python values are the inductive [value]; a Python [dict] is an
      association list in insertion order whose keys are compared with
      Python's [==].
    - [vars_dict], the only object the evaluator mutates in place, lives in
      an explicit store of dict objects; [copy.deepcopy] allocates a new
      object.
    - A raised exception is [Raise e]; the recursion of [_convert] is
      driven by a budget, and [None] means the budget ran out. *)

From Stdlib Require Import ZArith String Ascii List Bool Lia DecimalString.
From stdpp Require Import base option list strings gmap.

Set Warnings "-register-all".

Local Open Scope string_scope.
Local Open Scope list_scope.

(** ** Python values *)

Inductive value : Type :=
| VNone
| VBool (b : bool)
| VInt (n : Z)
| VStr (s : string)
| VList (elts : list value)
| VTuple (elts : list value)
| VDict (items : list (value * value)).

(** A Python [dict]: items in insertion order, keys pairwise different
    under [==]. *)
Abbreviation dict := (list (value * value)) (only parsing).

(** Truth value testing ([bool(v)]). *)
Definition truthy (v : value) : bool :=
  match v with
  | VNone => false
  | VBool b => b
  | VInt n => negb (n =? 0)%Z
  | VStr s => match s with EmptyString => false | _ => true end
  | VList elts | VTuple elts => match elts with [] => false | _ => true end
  | VDict items => match items with [] => false | _ => true end
  end.

(** [bool] is a subclass of [int]: [True] counts as 1 and [False] as 0. *)
Definition as_int (v : value) : option Z :=
  match v with
  | VBool b => Some (if b then 1 else 0)%Z
  | VInt n => Some n
  | _ => None
  end.

(** Python's [==] on values.  Numbers compare by numeric value, sequences
    element-wise, dicts by key set and per-key values. *)
Fixpoint py_eq (a b : value) {struct a} : bool :=
  match a, b with
  | VNone, VNone => true
  | VBool x, VBool y => Bool.eqb x y
  | VBool x, VInt n => ((if x then 1 else 0) =? n)%Z
  | VInt n, VBool y => (n =? (if y then 1 else 0))%Z
  | VInt n, VInt m => (n =? m)%Z
  | VStr s, VStr t => String.eqb s t
  | VList xs, VList ys =>
      (fix all2 (xs ys : list value) {struct xs} : bool :=
         match xs, ys with
         | [], [] => true
         | x :: xs', y :: ys' => py_eq x y && all2 xs' ys'
         | _, _ => false
         end) xs ys
  | VTuple xs, VTuple ys =>
      (fix all2 (xs ys : list value) {struct xs} : bool :=
         match xs, ys with
         | [], [] => true
         | x :: xs', y :: ys' => py_eq x y && all2 xs' ys'
         | _, _ => false
         end) xs ys
  | VDict d, VDict e =>
      (length d =? length e)%nat &&
      (fix every (d : dict) {struct d} : bool :=
         match d with
         | [] => true
         | (k, v) :: d' =>
             (fix find (e : dict) : bool :=
                match e with
                | [] => false
                | (k', v') :: e' => if py_eq k k' then py_eq v v' else find e'
                end) e && every d'
         end) d
  | _, _ => false
  end.

(** Only immutable values can be dict keys. *)
Fixpoint hashable (v : value) : bool :=
  match v with
  | VNone | VBool _ | VInt _ | VStr _ => true
  | VTuple elts =>
      (fix all (l : list value) : bool :=
         match l with [] => true | x :: l' => hashable x && all l' end) elts
  | VList _ | VDict _ => false
  end.

(** ** Dict operations *)

(** [d[k]] for a key that is present, [None] for an absent one. *)
Fixpoint dict_get (d : dict) (k : value) : option value :=
  match d with
  | [] => None
  | (k', v) :: d' => if py_eq k' k then Some v else dict_get d' k
  end.

(** [k in d]. *)
Definition dict_contains (d : dict) (k : value) : bool :=
  match dict_get d k with Some _ => true | None => false end.

(** [d[k] = v] for a hashable [k]: an existing item keeps its place and its
    key object and gets the new value, a new key is appended. *)
Fixpoint dict_set (d : dict) (k v : value) : dict :=
  match d with
  | [] => [(k, v)]
  | (k', v') :: d' =>
      if py_eq k' k then (k', v) :: d' else (k', v') :: dict_set d' k v
  end.

(** [d.update(other)]. *)
Definition dict_update (d other : dict) : dict :=
  fold_left (fun acc kv => dict_set acc (fst kv) (snd kv)) other d.

Definition dict_keys (d : dict) : list value := map fst d.

(** ** Syntax trees ([ast], Python 2) *)

(** [getattr(node, 'lineno', '<unknown>')]: [None] is ['<unknown>']. *)
Abbreviation lineno := (option nat) (only parsing).

Inductive boolop := And | Or.

Inductive operator :=
| Add | Sub | Mult | Div | Mod | Pow
| LShift | RShift | BitOr | BitXor | BitAnd | FloorDiv.

Inductive unaryop := Invert | Not | UAdd | USub.

(** Expression classes the evaluator has no branch for.  Their fields are
    never read; the sub-expressions are kept as [children]. *)
Inductive expr_kind :=
| Lambda | IfExp | SetLit | ListComp | SetComp | DictComp | GeneratorExp
| Yield | Compare | Repr | Num | Attribute | Subscript.

Inductive expr : Type :=
| BoolOp (ln : lineno) (op : boolop) (values : list expr)
| BinOp (ln : lineno) (left : expr) (op : operator) (right : expr)
| UnaryOp (ln : lineno) (op : unaryop) (operand : expr)
| Dict (ln : lineno) (keys values : list expr)
| Call (ln : lineno) (func : expr) (args : list expr)
       (keywords : list (string * expr)) (starargs kwargs : option expr)
| Str (ln : lineno) (s : string)
| Name (ln : lineno) (id : string)
| List (ln : lineno) (elts : list expr)
| Tuple (ln : lineno) (elts : list expr)
| OtherExpr (ln : lineno) (kind : expr_kind) (children : list expr).

(** Statement classes other than [ast.Assign]; only the class is kept. *)
Inductive stmt_kind :=
| FunctionDef | ClassDef | Return | Delete | AugAssign | Print | For
| While | If | With | RaiseStmt | TryExcept | TryFinally | Assert | Import
| ImportFrom | Exec | Global | ExprStmt | Pass | Break | Continue.

Inductive stmt : Type :=
| Assign (ln : lineno) (targets : list expr) (value : expr)
| OtherStmt (ln : lineno) (kind : stmt_kind).

Inductive mod_ : Type :=
| Module (body : list stmt)
| Interactive (body : list stmt)
| Expression (body : expr)
| Suite (body : list stmt).

(** Any tree a caller can pass as [node_or_string]. *)
Inductive node : Type :=
| ModNode (m : mod_)
| StmtNode (s : stmt)
| ExprNode (e : expr).

Definition expr_lineno (e : expr) : lineno :=
  match e with
  | BoolOp ln _ _ | BinOp ln _ _ _ | UnaryOp ln _ _ | Dict ln _ _
  | Call ln _ _ _ _ _ | Str ln _ | Name ln _ | List ln _ | Tuple ln _
  | OtherExpr ln _ _ => ln
  end.

Definition stmt_lineno (s : stmt) : lineno :=
  match s with Assign ln _ _ | OtherStmt ln _ => ln end.

(** [mod] nodes carry no [lineno] attribute. *)
Definition node_lineno (n : node) : lineno :=
  match n with
  | ModNode _ => None
  | StmtNode s => stmt_lineno s
  | ExprNode e => expr_lineno e
  end.

(** Number of nodes of an expression tree. *)
Fixpoint expr_size (e : expr) : nat :=
  let sizes := fix sizes (l : list expr) : nat :=
    match l with [] => 0 | x :: l' => expr_size x + sizes l' end in
  match e with
  | BoolOp _ _ values => S (sizes values)
  | BinOp _ lhs _ rhs => S (expr_size lhs + expr_size rhs)
  | UnaryOp _ _ operand => S (expr_size operand)
  | Dict _ keys values => S (sizes keys + sizes values)
  | Call _ func args keywords starargs kwargs =>
      S (expr_size func + sizes args
         + (fix ksizes (l : list (string * expr)) : nat :=
              match l with [] => 0 | (_, x) :: l' => expr_size x + ksizes l' end)
             keywords
         + match starargs with Some x => expr_size x | None => 0 end
         + match kwargs with Some x => expr_size x | None => 0 end)
  | Str _ _ | Name _ _ => 1
  | List _ elts | Tuple _ elts => S (sizes elts)
  | OtherExpr _ _ children => S (sizes children)
  end.

Definition exprs_size (l : list expr) : nat := list_sum (map expr_size l).

(** ** Exceptions *)

(** The text of each [ValueError] this module raises, before its
    [(file %r, line %s)] suffix. *)
Inductive message : Type :=
| InvalidName (id : string) (available : dict)
| CallFuncNotName
| CallRegularArgs
| OrOperands
| AndOperands
| UnexpectedNode (n : node)
| AssignOneTarget
| AssignTargetName
| AssignOverrides (id : string).

(** The two objects a [CheckFailure] carries as [exp] and [act]: sets of
    keys, or values.  (Its message renders the file path and the three
    fields [path], [exp], [act]; it is not kept.) *)
Inductive reported : Type :=
| KeySet (keys : list value)
| Object (v : value).

(** ** Schema descriptions ([third_party.schema]) *)

(** The two classes the manifest schema tests with [isinstance]. *)
Inductive pytype := basestring | bool_.

Inductive schema : Type :=
| SType (t : pytype)
| SValue (v : value)
| SOptional (s : schema)
| SOr (alternatives : list schema)
| SList (elements : list schema)
| STuple (elements : list schema)
| SDict (entries : list (schema * schema)).

(** Where a schema mismatch sits: the keys and indices leading to it. *)
Inductive step : Type :=
| AtKey (k : value)
| AtIndex (i : nat).

(** One mismatch: path, expected shape, offending value. *)
Record mismatch : Type :=
  Mismatch { at_path : list step; expected_shape : schema; actual : value }.

(** The exceptions: the [ValueError]s of this module, with the file name
    and line their message ends with; the built-in exceptions the operators
    of the host language raise; [CheckFailure]; the error of the schema
    validator; and any other exception a callable may raise. *)
Inductive exn : Type :=
| ValueError (msg : message) (filename : string) (ln : lineno)
| KeyError (key : value)
| TypeError
| ZeroDivisionError
| AttributeError
| IndexError
| CheckFailure (path : string) (exp act : reported)
| SchemaError (mismatches : list mismatch)
| OtherError (name : string).

Inductive result (A : Type) : Type :=
| Ok (a : A)
| Raise (e : exn).
Arguments Ok {A} a.
Arguments Raise {A} e.

(** An entry of the function table. *)
Abbreviation callable := (list value -> result value) (only parsing).

(** ** Operators of the host language *)

(** [a + b]. *)
Definition py_add (a b : value) : result value :=
  match a, b with
  | VStr s, VStr t => Ok (VStr (s ++ t))
  | VList xs, VList ys => Ok (VList (xs ++ ys))
  | VTuple xs, VTuple ys => Ok (VTuple (xs ++ ys))
  | _, _ =>
      match as_int a, as_int b with
      | Some n, Some m => Ok (VInt (n + m))
      | _, _ => Raise TypeError
      end
  end.

(** [a % b]; formatting of a [str] left operand is [str_mod]. *)
Definition py_mod (str_mod : string -> value -> result value)
    (a b : value) : result value :=
  match a with
  | VStr s => str_mod s b
  | _ =>
      match as_int a, as_int b with
      | Some n, Some m =>
          if (m =? 0)%Z then Raise ZeroDivisionError else Ok (VInt (n mod m))
      | _, _ => Raise TypeError
      end
  end.

(** ** Store of dict objects and the evaluation monad *)

Abbreviation loc := nat (only parsing).
Abbreviation heap := (list dict) (only parsing).

(** A computation reads and writes the store; it ends with a value, with an
    exception, or ([None]) with the recursion budget used up. *)
Definition M (A : Type) : Type := heap -> option (result A * heap).

Definition ret {A} (a : A) : M A := fun h => Some (Ok a, h).
Definition raise {A} (e : exn) : M A := fun h => Some (Raise e, h).
Definition out_of_budget {A} : M A := fun _ => None.

Definition bind {A B} (m : M A) (k : A -> M B) : M B :=
  fun h =>
    match m h with
    | Some (Ok a, h') => k a h'
    | Some (Raise e, h') => Some (Raise e, h')
    | None => None
    end.

Definition lift {A} (r : result A) : M A :=
  match r with Ok a => ret a | Raise e => raise e end.

Declare Scope eval_scope.
Delimit Scope eval_scope with eval.
Notation "'let!' x ':=' m 'in' k" := (bind m (fun x => k))
  (at level 10, x name, m at level 100, k at level 200) : eval_scope.

(** A new dict object holding [d]. *)
Definition new_dict (d : dict) : M loc :=
  fun h => Some (Ok (length h), h ++ [d]).

Definition read_dict (l : loc) : M dict :=
  fun h => Some (Ok (default [] (h !! l)), h).

Definition write_dict (l : loc) (d : dict) : M unit :=
  fun h => Some (Ok tt, <[l := d]> h).

(** [obj[k] = v] on the dict object [l]. *)
Definition setitem (l : loc) (k v : value) : M unit :=
  if hashable k
  then (let! d := read_dict l in write_dict l (dict_set d k v))%eval
  else raise TypeError.

(** [map(f, l)], left to right. *)
Fixpoint mapM {A B} (f : A -> M B) (l : list A) : M (list B) :=
  match l with
  | [] => ret []
  | x :: l' => (let! y := f x in let! ys := mapM f l' in ret (y :: ys))%eval
  end.

(** The result of a whole call: the store is dropped. *)
Abbreviation outcome A := (option (result A)) (only parsing).

Definition run {A} (m : M A) : outcome A := fst <$> m [].

(** ** The expression evaluator *)

(** [_allowed_names = {'None': None, 'True': True, 'False': False}] *)
Definition _allowed_names : dict :=
  [(VStr "None", VNone); (VStr "True", VBool true); (VStr "False", VBool false)].

Section Evaluate.
(** [str % value] of the host language (string formatting). *)
Variable str_mod : string -> value -> result value.
(** The arguments [_convert] closes over. *)
Variable global_scope : gmap string callable.
Variable filename : string.
Variable expose_vars : bool.

Local Open Scope eval_scope.

(** The loop of the [ast.Dict] branch over [zip(node.keys, node.values)];
    [conv] is [_convert] and [vars_dict] the dict object of the enclosing
    call. *)
Fixpoint convert_items (conv : expr -> option loc -> M value)
    (vars_dict : loc) (pairs : list (expr * expr)) (result : dict)
    : M dict :=
  match pairs with
  | [] => ret result
  | (k, v) :: rest =>
      let! c_k := conv k (Some vars_dict) in
      let! c_v := conv v (Some vars_dict) in
      let! _ := (if expose_vars then setitem vars_dict c_k c_v else ret tt) in
      let! result := (if hashable c_k then ret (dict_set result c_k c_v)
                      else raise TypeError) in
      convert_items conv vars_dict rest result
  end.

(** [_convert(node, vars_dict=None)].  Each call first makes its own copy
    of the dict it was given and adds the allowed names to the copy. *)
Fixpoint _convert (budget : nat) (node : expr) (vars_dict : option loc)
    {struct budget} : M value :=
  match budget with
  | 0 => out_of_budget
  | S budget =>
      (* if not vars_dict: vars_dict = {} *)
      let! inherited :=
        match vars_dict with
        | Some l => read_dict l
        | None => ret []
        end in
      (* vars_dict = copy.deepcopy(vars_dict);
         vars_dict.update(_allowed_names) *)
      let! vars_dict := new_dict (dict_update inherited _allowed_names) in
      let vars_convert := fun n => _convert budget n (Some vars_dict) in
      match node with
      | Str _ s => ret (VStr s)
      | Tuple _ elts =>
          let! vs := mapM vars_convert elts in ret (VTuple vs)
      | List _ elts =>
          let! vs := mapM vars_convert elts in ret (VList vs)
      | Dict _ keys values =>
          let! result :=
            convert_items (_convert budget) vars_dict (combine keys values) []
          in ret (VDict result)
      | Name ln id =>
          let! names := read_dict vars_dict in
          match dict_get names (VStr id) with
          | None => raise (ValueError (InvalidName id names) filename ln)
          | Some v => ret v
          end
      | Call ln func args keywords starargs kwargs =>
          match func with
          | Name _ id =>
              match keywords, starargs, kwargs with
              | [], None, None =>
                  let! args := mapM vars_convert args in
                  match global_scope !! id with
                  | Some f => lift (f args)
                  | None => raise (KeyError (VStr id))
                  end
              | _, _, _ => raise (ValueError CallRegularArgs filename ln)
              end
          | _ => raise (ValueError CallFuncNotName filename ln)
          end
      | BinOp _ lhs Add rhs =>
          let! a := vars_convert lhs in
          let! b := vars_convert rhs in
          lift (py_add a b)
      | BinOp _ lhs Mod rhs =>
          let! a := vars_convert lhs in
          let! b := vars_convert rhs in
          lift (py_mod str_mod a b)
      | BoolOp ln Or values =>
          match values with
          | [x; y] =>
              let! a := vars_convert x in
              if truthy a then ret a else vars_convert y
          | _ => raise (ValueError OrOperands filename ln)
          end
      | BoolOp ln And values =>
          match values with
          | [x; y] =>
              let! a := vars_convert x in
              if truthy a then vars_convert y else ret a
          | _ => raise (ValueError AndOperands filename ln)
          end
      | UnaryOp _ Not operand =>
          let! a := vars_convert operand in
          ret (VBool (negb (truthy a)))
      | _ =>
          raise (ValueError (UnexpectedNode (ExprNode node)) filename
                   (expr_lineno node))
      end
  end.

(** [_gclient_eval(node_or_string, global_scope, filename, expose_vars)]
    for a tree argument.  The budget handed to [_convert] is the number
    of nodes of the expression. *)
Definition _gclient_eval (node_or_string : node) : outcome value :=
  let node_or_string :=
    match node_or_string with
    | ModNode (Expression body) => ExprNode body
    | _ => node_or_string
    end in
  match node_or_string with
  | ExprNode e => run (_convert (expr_size e) e None)
  | _ =>
      Some (Raise (ValueError (UnexpectedNode node_or_string) filename
                     (node_lineno node_or_string)))
  end.

End Evaluate.

(** ** The statement executor *)

Section Execute.
Variable str_mod : string -> value -> result value.
Variable global_scope : gmap string callable.
Variable filename : string.

(** [_visit_in_module(node)]; the dict [result_scope] it updates is passed
    in and returned. *)
Definition _visit_in_module (result_scope : dict) (node : stmt)
    : outcome dict :=
  match node with
  | Assign ln targets value =>
      match targets with
      | [target] =>
          match target with
          | Name _ id =>
              match _gclient_eval str_mod global_scope filename
                      (String.eqb id "vars") (ExprNode value) with
              | None => None
              | Some (Raise e) => Some (Raise e)
              | Some (Ok v) =>
                  if dict_contains result_scope (VStr id)
                  then Some (Raise (ValueError (AssignOverrides id)
                                      filename ln))
                  else Some (Ok (dict_set result_scope (VStr id) v))
              end
          | _ => Some (Raise (ValueError AssignTargetName filename ln))
          end
      | _ => Some (Raise (ValueError AssignOneTarget filename ln))
      end
  | OtherStmt ln _ =>
      Some (Raise (ValueError (UnexpectedNode (StmtNode node)) filename ln))
  end.

(** [for stmt in node_or_string.body: _visit_in_module(stmt)] *)
Fixpoint visit_body (body : list stmt) (result_scope : dict)
    : outcome dict :=
  match body with
  | [] => Some (Ok result_scope)
  | s :: rest =>
      match _visit_in_module result_scope s with
      | Some (Ok result_scope) => visit_body rest result_scope
      | failure => failure
      end
  end.

(** [_gclient_exec(node_or_string, global_scope, filename)] for a tree
    argument. *)
Definition _gclient_exec (node_or_string : node) : outcome dict :=
  let node_or_string :=
    match node_or_string with
    | ModNode (Expression body) => ExprNode body
    | _ => node_or_string
    end in
  match node_or_string with
  | ModNode (Module body) => visit_body body []
  | _ =>
      Some (Raise (ValueError (UnexpectedNode node_or_string) filename
                     (node_lineno node_or_string)))
  end.

End Execute.


(** ** The consistency checker *)

(** The double-quote character. *)
Definition dq : string := String "034"%char EmptyString.

(** [len(v)], where defined. *)
Definition py_len (v : value) : option nat :=
  match v with
  | VStr s => Some (String.length s)
  | VList elts | VTuple elts => Some (length elts)
  | VDict items => Some (length items)
  | _ => None
  end.

(** [v[i]] for an index [i] produced by [range]. *)
Definition getitem (v : value) (i : nat) : result value :=
  match v with
  | VList elts | VTuple elts =>
      match elts !! i with Some x => Ok x | None => Raise IndexError end
  | VStr s =>
      match String.get i s with
      | Some c => Ok (VStr (String c EmptyString))
      | None => Raise IndexError
      end
  | VDict items =>
      match dict_get items (VInt (Z.of_nat i)) with
      | Some x => Ok x
      | None => Raise (KeyError (VInt (Z.of_nat i)))
      end
  | _ => Raise TypeError
  end.

(** [set(a.keys()) == set(b.keys())] *)
Definition same_keys (a b : dict) : bool :=
  (length a =? length b)%nat
  && forallb (fun k => dict_contains b k) (dict_keys a).

(** ['[%d]' % i] *)
Definition index_step (i : nat) : string :=
  ("[" ++ NilEmpty.string_of_uint (Nat.to_uint i) ++ "]")%string.

Section Compare.
Variable str_mod : string -> value -> result value.
(** [compare] closes over the [expected_scope] argument of [Check]. *)
Variable expected_scope : value.

(** [fail(prefix, exp, act)] *)
Definition fail {A} (prefix : string) (exp act : reported) : result A :=
  Raise (CheckFailure prefix exp act).

(** ['["%s"]' % k]: a [str] is substituted as it is, any other key is
    rendered by the formatting operator. *)
Definition key_step (k : value) : result string :=
  match k with
  | VStr s => Ok ("[" ++ dq ++ s ++ dq ++ "]")%string
  | _ =>
      match str_mod ("[" ++ dq ++ "%s" ++ dq ++ "]")%string k with
      | Ok (VStr s) => Ok s
      | Ok _ => Raise TypeError
      | Raise e => Raise e
      end
  end.

(** [compare(expected, actual, var_path, actual_scope)].  The items of
    [expected] are visited in order; [expected[k]] is the value stored
    with [k]. *)
Fixpoint compare (expected actual : value) (var_path : string)
    (actual_scope : value) {struct expected} : result unit :=
  match expected with
  | VDict items =>
      match actual with
      | VDict aitems =>
          if same_keys items aitems then
            (fix each (items : dict) : result unit :=
               match items with
               | [] => Ok tt
               | (k, v) :: rest =>
                   match dict_get aitems k with
                   | None => Raise (KeyError k)
                   | Some a =>
                       match key_step k with
                       | Raise e => Raise e
                       | Ok p =>
                           match compare v a (var_path ++ p)%string
                                   actual_scope with
                           | Ok _ => each rest
                           | Raise e => Raise e
                           end
                       end
                   end
               end) items
          else fail var_path (KeySet (dict_keys items))
                 (KeySet (dict_keys aitems))
      | _ => Raise AttributeError
      end
  | VList elts =>
      match py_len actual with
      | None => Raise TypeError
      | Some act =>
          if (length elts =? act)%nat then
            (fix each (elts : list value) (i : nat) : result unit :=
               match elts with
               | [] => Ok tt
               | x :: rest =>
                   match getitem actual i with
                   | Raise e => Raise e
                   | Ok a =>
                       match compare x a (var_path ++ index_step i)%string
                               actual_scope with
                       | Ok _ => each rest (S i)
                       | Raise e => Raise e
                       end
                   end
               end) elts 0
          else fail ("len(" ++ var_path ++ ")")%string (Object expected_scope)
                 (Object actual_scope)
      end
  | _ =>
      if py_eq expected actual then Ok tt
      else fail var_path (Object expected_scope) (Object actual_scope)
  end.

End Compare.

(** ** The manifest schema *)

Definition _GCLIENT_HOOKS_SCHEMA : schema :=
  SList [SDict [
    (SValue (VStr "action"), SList [SType basestring]);
    (SOptional (SValue (VStr "name")), SType basestring);
    (SOptional (SValue (VStr "pattern")), SType basestring)]].

Definition _GCLIENT_SCHEMA : schema :=
  SDict [
    (SOptional (SValue (VStr "allowed_hosts")),
       SList [SOptional (SType basestring)]);
    (SOptional (SValue (VStr "deps")),
       SDict [(SOptional (SType basestring),
               SOr [SType basestring;
                    SDict [(SValue (VStr "url"), SType basestring)]])]);
    (SOptional (SValue (VStr "deps_os")),
       SDict [(SOptional (SType basestring),
               SDict [(SOptional (SType basestring),
                       SOr [SType basestring; SValue VNone])])]);
    (SOptional (SValue (VStr "hooks")), _GCLIENT_HOOKS_SCHEMA);
    (SOptional (SValue (VStr "hooks_os")),
       SDict [(SOptional (SType basestring), _GCLIENT_HOOKS_SCHEMA)]);
    (SOptional (SValue (VStr "include_rules")),
       SList [SOptional (SType basestring)]);
    (SOptional (SValue (VStr "pre_deps_hooks")), _GCLIENT_HOOKS_SCHEMA);
    (SOptional (SValue (VStr "recursedeps")),
       SList [SOptional (SOr [SType basestring;
                              STuple [SType basestring; SType basestring];
                              SList [SType basestring; SType basestring]])]);
    (SOptional (SValue (VStr "skip_child_includes")),
       SList [SOptional (SType basestring)]);
    (SOptional (SValue (VStr "specific_include_rules")),
       SDict [(SOptional (SType basestring), SList [SType basestring])]);
    (SOptional (SValue (VStr "target_os")),
       SList [SOptional (SType basestring)]);
    (SOptional (SValue (VStr "use_relative_paths")), SType bool_);
    (SOptional (SValue (VStr "vars")),
       SDict [(SOptional (SType basestring),
               SOr [SType basestring; SType bool_])])].

(** ** The schema validator *)

Definition seq_items (s : schema) (v : value) : option (list value) :=
  match s, v with
  | SList _, VList elts => Some elts
  | STuple _, VTuple elts => Some elts
  | _, _ => None
  end.

Definition is_optional (s : schema) : bool :=
  match s with SOptional _ => true | _ => false end.

Definition no_mismatch (ms : list mismatch) : bool :=
  match ms with [] => true | _ => false end.

(** Modelled from the spec: the validation algorithm behind
    [_GCLIENT_SCHEMA.validate] (class [Schema] of [third_party.schema]),
    of which only the schema declaration is at hand.  Following section 4.3
    of the specification: a class accepts its instances and a literal the
    values equal to it; [Optional] marks a key that may be absent; [Or]
    accepts what one of its alternatives accepts; a sequence schema with one
    element shape is a list of that shape, one with several shapes is an
    ordered sequence of exactly that length; a mapping schema accepts a dict
    whose every key matches one of its entries (an unknown key is rejected),
    whose values have the shape of the matching entry, and which has every
    key that is not optional.  The result lists the mismatches, each with
    the path to the offending element; the empty list is acceptance. *)
Fixpoint validate (s : schema) (path : list step) (v : value)
    {struct s} : list mismatch :=
  match s with
  | SType basestring =>
      match v with VStr _ => [] | _ => [Mismatch path s v] end
  | SType bool_ =>
      match v with VBool _ => [] | _ => [Mismatch path s v] end
  | SValue x => if py_eq x v then [] else [Mismatch path s v]
  | SOptional s' => validate s' path v
  | SOr alternatives =>
      if (fix any (l : list schema) : bool :=
            match l with
            | [] => false
            | a :: l' => no_mismatch (validate a path v) || any l'
            end) alternatives
      then [] else [Mismatch path s v]
  | SList elements | STuple elements =>
      match seq_items s v with
      | None => [Mismatch path s v]
      | Some elts =>
          match elements with
          | [e] =>
              (fix each (elts : list value) (i : nat) : list mismatch :=
                 match elts with
                 | [] => []
                 | x :: rest =>
                     validate e (path ++ [AtIndex i]) x ++ each rest (S i)
                 end) elts 0
          | _ =>
              (fix zip (elements : list schema) (elts : list value) (i : nat)
                   : list mismatch :=
                 match elements, elts with
                 | [], [] => []
                 | e :: es, x :: xs =>
                     validate e (path ++ [AtIndex i]) x ++ zip es xs (S i)
                 | _, _ => [Mismatch path s v]
                 end) elements elts 0
          end
      end
  | SDict entries =>
      match v with
      | VDict items =>
          flat_map
            (fun item =>
               (fix find (l : list (schema * schema)) : list mismatch :=
                  match l with
                  | [] => [Mismatch (path ++ [AtKey (fst item)]) s (fst item)]
                  | (ks, vs) :: l' =>
                      if no_mismatch (validate ks path (fst item))
                      then validate vs (path ++ [AtKey (fst item)]) (snd item)
                      else find l'
                  end) entries)
            items
          ++
          (fix required (l : list (schema * schema)) : list mismatch :=
             match l with
             | [] => []
             | (ks, _) :: l' =>
                 (if is_optional ks
                       || existsb (fun item =>
                                     no_mismatch (validate ks path (fst item)))
                            items
                  then [] else [Mismatch path ks v])
                 ++ required l'
             end) entries
      | _ => [Mismatch path s v]
      end
  end.

(** [Check(content, path, global_scope, expected_scope)] for a parsed
    [content]. *)
Definition Check (str_mod : string -> value -> result value)
    (content : node) (path : string) (global_scope : gmap string callable)
    (expected_scope : value) : outcome unit :=
  match _gclient_exec str_mod global_scope path content with
  | None => None
  | Some (Raise e) => Some (Raise e)
  | Some (Ok result_scope) =>
      match compare str_mod expected_scope expected_scope
              (VDict result_scope) EmptyString (VDict result_scope) with
      | Raise e => Some (Raise e)
      | Ok _ =>
          match validate _GCLIENT_SCHEMA [] (VDict result_scope) with
          | [] => Some (Ok tt)
          | ms => Some (Raise (SchemaError ms))
          end
      end
  end.

(** ** Notions used in the statements *)

(** The items of the dict object a call of [_convert] is given. *)
Definition content (vars_dict : option loc) (h : heap) : dict :=
  match vars_dict with
  | Some l => default [] (h !! l)
  | None => []
  end.

(** The outcome of [_convert(node, vars_dict)] for a dict object that holds
    the items [env]. *)
Definition convert_in (str_mod : string -> value -> result value)
    (global_scope : gmap string callable) (filename : string)
    (expose_vars : bool) (env : dict) (e : expr) : outcome value :=
  fst <$> _convert str_mod global_scope filename expose_vars
            (expr_size e) e (Some 0) [env].

(** Sequencing of outcomes, and [map] over them. *)
Definition bindO {A B} (o : outcome A) (k : A -> outcome B) : outcome B :=
  match o with
  | Some (Ok a) => k a
  | Some (Raise e) => Some (Raise e)
  | None => None
  end.

Fixpoint mapO {A B} (f : A -> outcome B) (l : list A) : outcome (list B) :=
  match l with
  | [] => Some (Ok [])
  | x :: l' =>
      bindO (f x) (fun y => bindO (mapO f l') (fun ys => Some (Ok (y :: ys))))
  end.

(** The loop of the [ast.Dict] branch read as a function of the items
    [env] of [vars_dict]: [eval env e] is the outcome of converting [e]
    under a dict that holds [env].  The outcome pairs the items of
    [vars_dict] after the loop with the dict [result]. *)
Fixpoint items_in (eval : dict -> expr -> outcome value) (expose_vars : bool)
    (env : dict) (pairs : list (expr * expr)) (result : dict)
    : outcome (dict * dict) :=
  match pairs with
  | [] => Some (Ok (env, result))
  | (k, v) :: rest =>
      bindO (eval env k) (fun c_k =>
      bindO (eval env v) (fun c_v =>
        if hashable c_k
        then items_in eval expose_vars
               (if expose_vars then dict_set env c_k c_v else env)
               rest (dict_set result c_k c_v)
        else Some (Raise TypeError)))
  end.

Definition rmap {A B} (f : A -> B) (r : result A) : result B :=
  match r with Ok a => Ok (f a) | Raise e => Raise e end.

(** [h'] has every dict object of [h] selected by [S], with the same
    items. *)
Definition keeps (S : loc -> Prop) (h h' : heap) : Prop :=
  (forall l d, S l -> h !! l = Some d -> h' !! l = Some d)
  /\ length h <= length h'.

(** No dict object of [h] was modified. *)
Definition unchanged (h h' : heap) : Prop := keeps (fun _ => True) h h'.

Definition framed {A} (P : heap -> heap -> Prop) (m : M A) : Prop :=
  forall h r h', m h = Some (r, h') -> P h h'.

Definition extends {A} (m1 m2 : M A) : Prop :=
  forall h x, m1 h = Some x -> m2 h = Some x.

Definition total {A} (m : M A) : Prop := forall h, is_Some (m h).

(** Two computations that, started in stores related by [R], end alike. *)
Definition sim {A} (R : heap -> heap -> Prop) (m1 m2 : M A) : Prop :=
  forall h1 h2, R h1 h2 ->
    match m1 h1, m2 h2 with
    | Some (r1, h1'), Some (r2, h2') => r1 = r2 /\ R h1' h2'
    | None, None => True
    | _, _ => False
    end.

(** The dict objects [l1] of the one store and [l2] of the other exist and
    hold the same items. *)
Definition agree (l1 l2 : loc) (h1 h2 : heap) : Prop :=
  exists d, h1 !! l1 = Some d /\ h2 !! l2 = Some d.

(** A computation that raises only exceptions in [E]. *)
Definition raising {A} (E : exn -> Prop) (m : M A) : Prop :=
  forall h e h', m h = Some (Raise e, h') -> E e.

(** The failures the module raises itself: a [ValueError] whose message
    names the file and the line. *)
Definition own_failure (filename : string) (e : exn) : Prop :=
  exists msg ln, e = ValueError msg filename ln.

(** The failures of the host language and of the callables, which the
    evaluator passes on as they are. *)
Definition foreign_failure (str_mod : string -> value -> result value)
    (global_scope : gmap string callable) (e : exn) : Prop :=
  e = TypeError \/ e = ZeroDivisionError
  \/ (exists id, global_scope !! id = None /\ e = KeyError (VStr id))
  \/ (exists id f args, global_scope !! id = Some f /\ f args = Raise e)
  \/ (exists s v, str_mod s v = Raise e).

(** The identifier a statement assigns, when it is an assignment to one
    bare name. *)
Definition target_id (s : stmt) : option string :=
  match s with
  | Assign _ [Name _ id] _ => Some id
  | _ => None
  end.

Definition target_ids (body : list stmt) : list string := omap target_id body.

(** ** Manifests used as examples

    Each tree is what [ast.parse] yields for the text quoted with it. *)

(** A formatting operator for runs that never format: no example below
    applies [%] to a string. *)
Definition no_formatting : string -> value -> result value :=
  fun _ _ => Raise TypeError.

(** [{"a": "x", "b": a + "y"}] *)
Definition self_reference : expr :=
  Dict (Some 1) [Str (Some 1) "a"; Str (Some 1) "b"]
    [Str (Some 1) "x";
     BinOp (Some 1) (Name (Some 1) "a") Add (Str (Some 1) "y")].

(** [[{"a": "x"}, a]] *)
Definition dict_then_name : expr :=
  List (Some 1)
    [Dict (Some 1) [Str (Some 1) "a"] [Str (Some 1) "x"]; Name (Some 1) "a"].

(** [{"a": {"b": "x"}, "c": b}] *)
Definition inner_dict_then_name : expr :=
  Dict (Some 1) [Str (Some 1) "a"; Str (Some 1) "c"]
    [Dict (Some 1) [Str (Some 1) "b"] [Str (Some 1) "x"]; Name (Some 1) "b"].

(** [vars = {"a": "x"}] followed by [other = a] *)
Definition vars_then_other : node :=
  ModNode (Module
    [Assign (Some 1) [Name (Some 1) "vars"]
       (Dict (Some 1) [Str (Some 1) "a"] [Str (Some 1) "x"]);
     Assign (Some 2) [Name (Some 2) "other"] (Name (Some 2) "a")]).

(** [x = "1"] followed by [x = "2"] *)
Definition x_assigned_twice : node :=
  ModNode (Module
    [Assign (Some 1) [Name (Some 1) "x"] (Str (Some 1) "1");
     Assign (Some 2) [Name (Some 2) "x"] (Str (Some 2) "2")]).

(** [g()] *)
Definition call_g : expr := Call (Some 1) (Name (Some 1) "g") [] [] None None.

(** [f("a", "b")] *)
Definition call_f_a_b : expr :=
  Call (Some 1) (Name (Some 1) "f") [Str (Some 1) "a"; Str (Some 1) "b"]
    [] None None.

(** [x = "1"] *)
Definition x_assigned_once : node :=
  ModNode (Module [Assign (Some 1) [Name (Some 1) "x"] (Str (Some 1) "1")]).

(** The pairs of [{"a": "x", "b": a}], and the pair ["a": "z"] that
    repeats the first key. *)
Definition a_x_b_a : list (expr * expr) :=
  [(Str (Some 1) "a", Str (Some 1) "x"); (Str (Some 1) "b", Name (Some 1) "a")].

Definition a_z : expr * expr := (Str (Some 1) "a", Str (Some 1) "z").

(** [deps = {"a": v}], the scope [{"deps": {"a": v}}], and the path
    [["deps"]["a"]]. *)
Definition deps_a (v : string) : node :=
  ModNode (Module
    [Assign (Some 1) [Name (Some 1) "deps"]
       (Dict (Some 1) [Str (Some 1) "a"] [Str (Some 1) v])]).

Definition scope_deps_a (v : value) : value :=
  VDict [(VStr "deps", VDict [(VStr "a", v)])].

Definition path_deps_a : string :=
  ("[" ++ dq ++ "deps" ++ dq ++ "][" ++ dq ++ "a" ++ dq ++ "]")%string.

(** The values [compare] treats by equality: all but dicts and lists. *)
Definition compared_by_equality (v : value) : bool :=
  match v with
  | VDict _ | VList _ => false
  | _ => true
  end.

(** The top-level keys of the manifest schema. *)
Definition top_level_keys : list string :=
  ["allowed_hosts"; "deps"; "deps_os"; "hooks"; "hooks_os"; "include_rules";
   "pre_deps_hooks"; "recursedeps"; "skip_child_includes";
   "specific_include_rules"; "target_os"; "use_relative_paths"; "vars"].

(** The names of [_allowed_names]. *)
Definition constant_names : list string := ["None"; "True"; "False"].

(** [vars = {"None": "x", "b": None}] *)
Definition rebinding_None : node :=
  ModNode (Module
    [Assign (Some 1) [Name (Some 1) "vars"]
       (Dict (Some 1) [Str (Some 1) "None"; Str (Some 1) "b"]
          [Str (Some 1) "x"; Name (Some 1) "None"])]).

(** The scope that holds the bindings, identifier by identifier, in
    order. *)
Definition scope_of (bindings : list (string * value)) : dict :=
  map (fun b => (VStr (fst b), snd b)) bindings.

(** The statement [s] is an assignment to the bare name [fst b] whose
    value evaluates to [snd b]. *)
Definition assigns (str_mod : string -> value -> result value)
    (global_scope : gmap string callable) (filename : string)
    (s : stmt) (b : string * value) : Prop :=
  exists ln ln' value,
    s = Assign ln [Name ln' (fst b)] value
    /\ _gclient_eval str_mod global_scope filename
         (String.eqb (fst b) "vars") (ExprNode value)
       = Some (Ok (snd b)).

(** [b = "y"] followed by [a = "x"], and the two in the other order. *)
Definition b_then_a : list stmt :=
  [Assign (Some 1) [Name (Some 1) "b"] (Str (Some 1) "y");
   Assign (Some 2) [Name (Some 2) "a"] (Str (Some 2) "x")].

Definition a_then_b : list stmt :=
  [Assign (Some 2) [Name (Some 2) "a"] (Str (Some 2) "x");
   Assign (Some 1) [Name (Some 1) "b"] (Str (Some 1) "y")].

(** The values made of scalars, hashable tuples, lists, and dicts whose
    keys are strings, no two of them equal. *)
Fixpoint plain (v : value) : bool :=
  match v with
  | VList elts =>
      (fix all (l : list value) : bool :=
         match l with [] => true | x :: l' => plain x && all l' end) elts
  | VDict items =>
      (fix all (d : dict) : bool :=
         match d with
         | [] => true
         | (k, x) :: d' =>
             match k with VStr _ => true | _ => false end
             && negb (dict_contains d' k) && plain x && all d'
         end) items
  | VTuple _ => hashable v
  | _ => true
  end.

(** The branches of [_convert] read as a function of the items the call
    inherits, where [eval env' x] is the outcome of converting the
    sub-expression [x] under a dict that holds [env']. *)
Definition eval_node (str_mod : string -> value -> result value)
    (global_scope : gmap string callable) (filename : string)
    (expose_vars : bool) (eval : dict -> expr -> outcome value)
    (env : dict) (e : expr) : outcome value :=
  let own := dict_update env _allowed_names in
  match e with
  | Str _ s => Some (Ok (VStr s))
  | Tuple _ elts =>
      bindO (mapO (eval own) elts) (fun vs => Some (Ok (VTuple vs)))
  | List _ elts =>
      bindO (mapO (eval own) elts) (fun vs => Some (Ok (VList vs)))
  | Dict _ keys values =>
      bindO (items_in eval expose_vars own (combine keys values) [])
        (fun p => Some (Ok (VDict (snd p))))
  | Name ln id =>
      match dict_get own (VStr id) with
      | Some v => Some (Ok v)
      | None => Some (Raise (ValueError (InvalidName id own) filename ln))
      end
  | Call ln func args keywords starargs kwargs =>
      match func with
      | Name _ id =>
          match keywords, starargs, kwargs with
          | [], None, None =>
              bindO (mapO (eval own) args) (fun vs =>
                match global_scope !! id with
                | Some f => Some (f vs)
                | None => Some (Raise (KeyError (VStr id)))
                end)
          | _, _, _ => Some (Raise (ValueError CallRegularArgs filename ln))
          end
      | _ => Some (Raise (ValueError CallFuncNotName filename ln))
      end
  | BinOp _ lhs Add rhs =>
      bindO (eval own lhs) (fun a =>
      bindO (eval own rhs) (fun b => Some (py_add a b)))
  | BinOp _ lhs Mod rhs =>
      bindO (eval own lhs) (fun a =>
      bindO (eval own rhs) (fun b => Some (py_mod str_mod a b)))
  | BoolOp ln Or values =>
      match values with
      | [x; y] =>
          bindO (eval own x) (fun a =>
            if truthy a then Some (Ok a) else eval own y)
      | _ => Some (Raise (ValueError OrOperands filename ln))
      end
  | BoolOp ln And values =>
      match values with
      | [x; y] =>
          bindO (eval own x) (fun a =>
            if truthy a then eval own y else Some (Ok a))
      | _ => Some (Raise (ValueError AndOperands filename ln))
      end
  | UnaryOp _ Not operand =>
      bindO (eval own operand) (fun a => Some (Ok (VBool (negb (truthy a)))))
  | _ =>
      Some (Raise (ValueError (UnexpectedNode (ExprNode e)) filename
                     (expr_lineno e)))
  end.

(** The expressions built, in every position that is evaluated whenever
    the expression is, from the classes [_convert] has a branch for.  Of a
    boolean operation only the first operand is always evaluated; of a
    dict display, as many keys as there are values and as many values as
    there are keys ([zip]). *)
Fixpoint supported (e : expr) : bool :=
  let all := fix all (l : list expr) : bool :=
    match l with [] => true | x :: l' => supported x && all l' end in
  let upto := fix upto (l : list expr) (n : nat) {struct l} : bool :=
    match l, n with
    | x :: l', S n' => supported x && upto l' n'
    | _, _ => true
    end in
  match e with
  | Str _ _ | Name _ _ => true
  | Tuple _ elts | List _ elts => all elts
  | Dict _ keys values =>
      upto keys (length values) && upto values (length keys)
  | Call _ (Name _ _) args [] None None => all args
  | BinOp _ lhs Add rhs | BinOp _ lhs Mod rhs => supported lhs && supported rhs
  | BoolOp _ _ [x; _] => supported x
  | UnaryOp _ Not operand => supported operand
  | _ => false
  end.

(** The names of the functions an expression calls, wherever in the
    tree. *)
Fixpoint callees (e : expr) : list string :=
  let all := fix all (l : list expr) : list string :=
    match l with [] => [] | x :: l' => callees x ++ all l' end in
  match e with
  | BoolOp _ _ values => all values
  | BinOp _ lhs _ rhs => callees lhs ++ callees rhs
  | UnaryOp _ _ operand => callees operand
  | Dict _ keys values => all keys ++ all values
  | Call _ func args _ _ _ =>
      match func with Name _ id => [id] | _ => [] end ++ all args
  | Str _ _ | Name _ _ => []
  | List _ elts | Tuple _ elts => all elts
  | OtherExpr _ _ children => all children
  end.

(** The one-character strings [s[0]], [s[1]], ... of a string. *)
Fixpoint chars_of (s : string) : list value :=
  match s with
  | EmptyString => []
  | String c s' => VStr (String c EmptyString) :: chars_of s'
  end.

(** The [lineno] attributes of the nodes of an expression tree, callee
    and positional arguments included. *)
Fixpoint expr_lines (e : expr) : list lineno :=
  let all := fix all (l : list expr) : list lineno :=
    match l with [] => [] | x :: l' => expr_lines x ++ all l' end in
  expr_lineno e ::
  match e with
  | BoolOp _ _ values => all values
  | BinOp _ lhs _ rhs => expr_lines lhs ++ expr_lines rhs
  | UnaryOp _ _ operand => expr_lines operand
  | Dict _ keys values => all keys ++ all values
  | Call _ func args _ _ _ => expr_lines func ++ all args
  | Str _ _ | Name _ _ => []
  | List _ elts | Tuple _ elts => all elts
  | OtherExpr _ _ children => all children
  end.

(** A failure that is either passed on from the host language or a
    callable, or a [ValueError] of the evaluator for the file that carries
    one of the given lines. *)
Definition located (str_mod : string -> value -> result value)
    (global_scope : gmap string callable) (filename : string)
    (lines : list lineno) (e : exn) : Prop :=
  foreign_failure str_mod global_scope e
  \/ exists msg ln, e = ValueError msg filename ln /\ In ln lines.

(** [x = "1"] followed by [x = zz]: the second assignment to [x] has a
    value that does not evaluate. *)
Definition x_then_invalid : node :=
  ModNode (Module
    [Assign (Some 1) [Name (Some 1) "x"] (Str (Some 1) "1");
     Assign (Some 2) [Name (Some 2) "x"] (Name (Some 2) "zz")]).

(** [g(zz)] *)
Definition call_g_zz : expr :=
  Call (Some 1) (Name (Some 1) "g") [Name (Some 1) "zz"] [] None None.

(** [{"None": "x", "b": None, "None": "z"}] and [{"a": zz, "a": "x"}]. *)
Definition none_b_none : expr :=
  Dict (Some 1)
    [Str (Some 1) "None"; Str (Some 1) "b"; Str (Some 1) "None"]
    [Str (Some 1) "x"; Name (Some 1) "None"; Str (Some 1) "z"].

Definition a_zz_a_x : expr :=
  Dict (Some 1) [Str (Some 1) "a"; Str (Some 1) "a"]
    [Name (Some 1) "zz"; Str (Some 1) "x"].

(** [{"a": "x", "b": a, "a": "z", "c": a}] *)
Definition a_b_a_c : expr :=
  Dict (Some 1)
    [Str (Some 1) "a"; Str (Some 1) "b"; Str (Some 1) "a"; Str (Some 1) "c"]
    [Str (Some 1) "x"; Name (Some 1) "a"; Str (Some 1) "z";
     Name (Some 1) "a"].

(** The run of the loop of the [ast.Dict] branch over [pairs], started
    with the items [env] in [vars_dict]: every key and value evaluates
    under the items [vars_dict] holds at its turn, every key is hashable,
    and [t] lists the evaluated pairs in order.  There is no condition on
    the keys being different. *)
Inductive stored (eval : dict -> expr -> outcome value) (expose_vars : bool)
    : dict -> list (expr * expr) -> list (value * value) -> Prop :=
| stored_nil env : stored eval expose_vars env [] []
| stored_cons env k v rest c_k c_v t :
    eval env k = Some (Ok c_k) ->
    eval env v = Some (Ok c_v) ->
    hashable c_k = true ->
    stored eval expose_vars
      (if expose_vars then dict_set env c_k c_v else env) rest t ->
    stored eval expose_vars env ((k, v) :: rest) ((c_k, c_v) :: t).

(** [reaches e a p e' a' p']: going down from the expected value [e], the
    actual value [a] and the path [p] as [compare] does, through an item
    of a dict or an element of a list at a time, leads to the values [e']
    and [a'] and the path [p']. *)
Inductive reaches (str_mod : string -> value -> result value)
    : value -> value -> string -> value -> value -> string -> Prop :=
| reaches_here e a p : reaches str_mod e a p e a p
| reaches_item items aitems p k v x s e' a' p' :
    In (k, v) items ->
    dict_get aitems k = Some x ->
    key_step str_mod k = Ok s ->
    reaches str_mod v x (p ++ s)%string e' a' p' ->
    reaches str_mod (VDict items) (VDict aitems) p e' a' p'
| reaches_element elts a p i v x e' a' p' :
    elts !! i = Some v ->
    getitem a i = Ok x ->
    reaches str_mod v x (p ++ index_step i)%string e' a' p' ->
    reaches str_mod (VList elts) a p e' a' p'.

(** The three mismatches [compare] reports, for the expected value [e'],
    the actual value [a'] and the path [p'] it has come to: different key
    sets, different lengths, different values. *)
Definition found_mismatch (expected_scope actual_scope : value)
    (e' a' : value) (p' : string) (failure : exn) : Prop :=
  match e' with
  | VDict items =>
      exists aitems,
        a' = VDict aitems /\ same_keys items aitems = false
        /\ failure = CheckFailure p' (KeySet (dict_keys items))
                       (KeySet (dict_keys aitems))
  | VList elts =>
      exists n,
        py_len a' = Some n /\ n <> length elts
        /\ failure = CheckFailure ("len(" ++ p' ++ ")")%string
                       (Object expected_scope) (Object actual_scope)
  | _ =>
      py_eq e' a' = false
      /\ failure = CheckFailure p' (Object expected_scope)
                     (Object actual_scope)
  end.

(** * Properties *)

(** ** The evaluation monad *)

Lemma keeps_refl S h : keeps S h h.
Proof. split; auto. Qed.

Lemma keeps_trans S h1 h2 h3 : keeps S h1 h2 -> keeps S h2 h3 -> keeps S h1 h3.
Proof. intros [A1 B1] [A2 B2]. split; [eauto | lia]. Qed.

Lemma keeps_weaken (S S' : loc -> Prop) h h' :
  (forall l, S' l -> S l) -> keeps S h h' -> keeps S' h h'.
Proof. intros HS [A B]. split; eauto. Qed.

Lemma unchanged_keeps S h h' : unchanged h h' -> keeps S h h'.
Proof. apply keeps_weaken. intros; exact I. Qed.

Lemma framed_ret {A} P (a : A) : (forall h, P h h) -> framed P (ret a).
Proof. intros HP h r h' H. inversion H; subst. apply HP. Qed.

Lemma framed_raise {A} P e : (forall h, P h h) -> framed P (@raise A e).
Proof. intros HP h r h' H. inversion H; subst. apply HP. Qed.

Lemma framed_lift {A} P (r : result A) : (forall h, P h h) -> framed P (lift r).
Proof. destruct r; [apply framed_ret | apply framed_raise]. Qed.

Lemma framed_bind {A B} (P : heap -> heap -> Prop) (m : M A) (k : A -> M B) :
  (forall h1 h2 h3, P h1 h2 -> P h2 h3 -> P h1 h3) ->
  framed P m -> (forall a, framed P (k a)) -> framed P (bind m k).
Proof.
  intros Htr Hm Hk h r h' H. unfold bind in H.
  destruct (m h) as [[[a|e] h1]|] eqn:E; try discriminate.
  - eapply Htr; [eapply Hm; eauto | eapply Hk; eauto].
  - inversion H; subst. eapply Hm; eauto.
Qed.

Lemma framed_keeps_bind {A B} S (m : M A) (k : A -> M B) :
  framed (keeps S) m -> (forall a, framed (keeps S) (k a)) ->
  framed (keeps S) (bind m k).
Proof. apply framed_bind. apply keeps_trans. Qed.

Lemma framed_weaken {A} (S S' : loc -> Prop) (m : M A) :
  (forall l, S' l -> S l) -> framed (keeps S) m -> framed (keeps S') m.
Proof. intros HS Hm h r h' H. eapply keeps_weaken; eauto. Qed.

Lemma framed_read S l : framed (keeps S) (read_dict l).
Proof. intros h r h' H. inversion H; subst. apply keeps_refl. Qed.

Lemma framed_new S d : framed (keeps S) (new_dict d).
Proof.
  intros h r h' H. inversion H; subst. split.
  - intros l d' _ Hl. rewrite lookup_app_l; eauto using lookup_lt_Some.
  - rewrite length_app. lia.
Qed.

Lemma framed_write l d : framed (keeps (fun l' => l' <> l)) (write_dict l d).
Proof.
  intros h r h' H. inversion H; subst. split.
  - intros l' d' Hne Hl. rewrite list_lookup_insert_ne; auto.
  - rewrite length_insert. lia.
Qed.

Lemma framed_setitem l k v : framed (keeps (fun l' => l' <> l)) (setitem l k v).
Proof.
  unfold setitem. destruct (hashable k).
  - apply framed_keeps_bind; [apply framed_read | intros; apply framed_write].
  - apply framed_raise, keeps_refl.
Qed.

Lemma framed_mapM {A B} S (f : A -> M B) (l : list A) :
  (forall x, framed (keeps S) (f x)) -> framed (keeps S) (mapM f l).
Proof.
  intros Hf. induction l as [|x l IH]; simpl.
  - apply framed_ret, keeps_refl.
  - apply framed_keeps_bind; [apply Hf | intros y].
    apply framed_keeps_bind; [apply IH | intros ys].
    apply framed_ret, keeps_refl.
Qed.

Lemma framed_copy {A} (inherit : M dict) (f : dict -> dict) (body : loc -> M A) :
  (forall h r h', inherit h = Some (r, h') -> h' = h) ->
  (forall l, framed (keeps (fun l' => l' <> l)) (body l)) ->
  framed unchanged (bind inherit (fun d => bind (new_dict (f d)) body)).
Proof.
  intros Hi Hb h r h' H. unfold bind, new_dict in H.
  destruct (inherit h) as [[[d|e] h1]|] eqn:E; try discriminate.
  - apply Hi in E. subst h1.
    destruct (body (length h) (h ++ [f d])) as [[r2 h2]|] eqn:E2; try discriminate.
    assert (r2 = r /\ h2 = h') as [-> ->] by (destruct r2; inversion H; auto).
    apply Hb in E2. destruct E2 as [K1 K2]. split.
    + intros l d' _ Hl. apply K1.
      * apply lookup_lt_Some in Hl. lia.
      * rewrite lookup_app_l; eauto using lookup_lt_Some.
    + rewrite length_app in K2. lia.
  - apply Hi in E. inversion H; subst. apply keeps_refl.
Qed.

Lemma inherit_pure (vd : option loc) h r h' :
  match vd with Some l => read_dict l | None => ret [] end h = Some (r, h') ->
  h' = h.
Proof. destruct vd; intros H; inversion H; auto. Qed.

Section Frame.
Context (str_mod : string -> value -> result value)
        (global_scope : gmap string callable)
        (filename : string) (expose_vars : bool).

Local Abbreviation conv := (_convert str_mod global_scope filename expose_vars).

Lemma framed_convert_items (c : expr -> option loc -> M value) l pairs result :
  (forall n vd, framed unchanged (c n vd)) ->
  framed (keeps (fun l' => l' <> l))
    (convert_items expose_vars c l pairs result).
Proof.
  intros Hc. revert result.
  induction pairs as [|[k v] rest IH]; intros result; simpl.
  - apply framed_ret, keeps_refl.
  - apply framed_keeps_bind;
      [apply (framed_weaken (fun _ => True)); [auto | apply Hc] | intros c_k].
    apply framed_keeps_bind;
      [apply (framed_weaken (fun _ => True)); [auto | apply Hc] | intros c_v].
    apply framed_keeps_bind; [|intros _].
    { destruct expose_vars;
        [apply framed_setitem | apply framed_ret, keeps_refl]. }
    apply framed_keeps_bind; [|intros r; apply IH].
    destruct (hashable c_k);
      [apply framed_ret | apply framed_raise]; apply keeps_refl.
Qed.

Lemma framed_convert b : forall n vd, framed unchanged (conv b n vd).
Proof.
  induction b as [|b IH]; intros n vd; [intros h r h' H; discriminate|].
  cbn [_convert]. apply framed_copy; [apply inherit_pure|]. intros l.
  repeat first
    [ apply framed_ret, keeps_refl
    | apply framed_raise, keeps_refl
    | apply framed_lift, keeps_refl
    | apply framed_read
    | apply (framed_weaken (fun _ => True)); [auto | apply IH]
    | apply framed_mapM; intros ?
    | apply framed_convert_items; apply IH
    | apply framed_keeps_bind; [| intros ?]
    | match goal with
      | |- framed _ (match ?x with _ => _ end) => destruct x
      | |- framed _ (if ?x then _ else _) => destruct x
      end ].
Qed.

End Frame.

(** ** The recursion budget *)

Lemma extends_refl {A} (m : M A) : extends m m.
Proof. intros h x H; exact H. Qed.

Lemma extends_bind {A B} (m1 m2 : M A) (k1 k2 : A -> M B) :
  extends m1 m2 -> (forall a, extends (k1 a) (k2 a)) ->
  extends (bind m1 k1) (bind m2 k2).
Proof.
  intros Hm Hk h x H. unfold bind in *.
  destruct (m1 h) as [[[a|e] h1]|] eqn:E; try discriminate;
    rewrite (Hm _ _ E); auto. apply Hk; auto.
Qed.

Lemma extends_mapM {A B} (f g : A -> M B) (l : list A) :
  (forall x, extends (f x) (g x)) -> extends (mapM f l) (mapM g l).
Proof.
  intros Hf. induction l as [|x l IH]; simpl; [apply extends_refl|].
  apply extends_bind; [apply Hf | intros y].
  apply extends_bind; [apply IH | intros ys; apply extends_refl].
Qed.

Lemma total_ret {A} (a : A) : total (ret a).
Proof. intros h; eexists; reflexivity. Qed.

Lemma total_raise {A} e : total (@raise A e).
Proof. intros h; eexists; reflexivity. Qed.

Lemma total_lift {A} (r : result A) : total (lift r).
Proof. destruct r; [apply total_ret | apply total_raise]. Qed.

Lemma total_read l : total (read_dict l).
Proof. intros h; eexists; reflexivity. Qed.

Lemma total_new d : total (new_dict d).
Proof. intros h; eexists; reflexivity. Qed.

Lemma total_bind {A B} (m : M A) (k : A -> M B) :
  total m -> (forall a, total (k a)) -> total (bind m k).
Proof.
  intros Hm Hk h. unfold bind.
  destruct (Hm h) as [[[a|e] h1] ->]; [apply Hk | eexists; reflexivity].
Qed.

Lemma total_setitem l k v : total (setitem l k v).
Proof.
  unfold setitem. destruct (hashable k); [|apply total_raise].
  apply total_bind; [apply total_read | intros d h; eexists; reflexivity].
Qed.

Lemma total_mapM {A B} (f : A -> M B) (l : list A) :
  (forall x, In x l -> total (f x)) -> total (mapM f l).
Proof.
  induction l as [|x l IH]; intros Hf; simpl; [apply total_ret|].
  apply total_bind; [apply Hf; left; auto | intros y].
  apply total_bind; [apply IH; intros; apply Hf; right; auto | intros ys].
  apply total_ret.
Qed.

(** Sizes of the sub-expressions. *)

Lemma exprs_size_fix (l : list expr) :
  (fix sizes (l : list expr) : nat :=
     match l with [] => 0 | x :: l' => expr_size x + sizes l' end) l
  = exprs_size l.
Proof. induction l as [|x l IH]; simpl; [reflexivity | rewrite IH; reflexivity]. Qed.

Lemma expr_size_BoolOp ln op values :
  expr_size (BoolOp ln op values) = S (exprs_size values).
Proof. simpl. rewrite exprs_size_fix. reflexivity. Qed.

Lemma expr_size_Dict ln keys values :
  expr_size (Dict ln keys values) = S (exprs_size keys + exprs_size values).
Proof. simpl. rewrite !exprs_size_fix. reflexivity. Qed.

Lemma expr_size_List ln elts : expr_size (List ln elts) = S (exprs_size elts).
Proof. simpl. rewrite exprs_size_fix. reflexivity. Qed.

Lemma expr_size_Tuple ln elts : expr_size (Tuple ln elts) = S (exprs_size elts).
Proof. simpl. rewrite exprs_size_fix. reflexivity. Qed.

Lemma expr_size_Call_args ln func args keywords starargs kwargs :
  exprs_size args < expr_size (Call ln func args keywords starargs kwargs).
Proof. simpl. rewrite exprs_size_fix. lia. Qed.

Lemma exprs_size_In x (l : list expr) : In x l -> expr_size x <= exprs_size l.
Proof.
  unfold exprs_size. induction l as [|y l IH]; simpl; [tauto|].
  intros [->|H]; [lia | apply IH in H; lia].
Qed.

Section Budget.
Context (str_mod : string -> value -> result value)
        (global_scope : gmap string callable)
        (filename : string) (expose_vars : bool).

Local Abbreviation conv := (_convert str_mod global_scope filename expose_vars).

Lemma extends_convert_items (c1 c2 : expr -> option loc -> M value)
    l pairs result :
  (forall n vd, extends (c1 n vd) (c2 n vd)) ->
  extends (convert_items expose_vars c1 l pairs result)
          (convert_items expose_vars c2 l pairs result).
Proof.
  intros Hc. revert result.
  induction pairs as [|[k v] rest IH]; intros result; simpl;
    [apply extends_refl|].
  repeat (apply extends_bind; [try apply Hc; try apply extends_refl | intros ?]).
  apply IH.
Qed.

Lemma total_convert_items (c : expr -> option loc -> M value) l pairs result :
  (forall k v, In (k, v) pairs ->
               total (c k (Some l)) /\ total (c v (Some l))) ->
  total (convert_items expose_vars c l pairs result).
Proof.
  revert result.
  induction pairs as [|[k v] rest IH]; intros result Hc; simpl;
    [apply total_ret|].
  destruct (Hc k v) as [Hk Hv]; [left; auto|].
  apply total_bind; [exact Hk | intros c_k].
  apply total_bind; [exact Hv | intros c_v].
  apply total_bind; [|intros _].
  { destruct expose_vars; [apply total_setitem | apply total_ret]. }
  apply total_bind; [|intros r; apply IH; intros; apply Hc; right; auto].
  destruct (hashable c_k); [apply total_ret | apply total_raise].
Qed.

(** A larger budget never changes an outcome. *)
Lemma convert_budget_mono b : forall b' n vd,
  b <= b' -> extends (conv b n vd) (conv b' n vd).
Proof.
  induction b as [|b IH]; intros b' n vd Hle; [intros h x H; discriminate|].
  destruct b' as [|b']; [lia|]. assert (Hb : b <= b') by lia.
  cbn [_convert].
  apply extends_bind; [apply extends_refl | intros inherited].
  apply extends_bind; [apply extends_refl | intros l].
  repeat first
    [ apply extends_refl
    | apply IH; exact Hb
    | apply extends_mapM; intros ?
    | apply extends_convert_items; intros ? ?
    | apply extends_bind; [| intros ?]
    | match goal with
      | |- extends (match ?x with _ => _ end) _ => destruct x
      | |- extends (if ?x then _ else _) _ => destruct x
      end ].
Qed.

(** A budget of the size of the tree is enough. *)
Lemma convert_total b : forall n vd,
  expr_size n <= b -> total (conv b n vd).
Proof.
  induction b as [|b IH]; intros n vd Hn; [destruct n; simpl in Hn; lia|].
  cbn [_convert].
  apply total_bind; [destruct vd; [apply total_read | apply total_ret]|].
  intros inherited. apply total_bind; [apply total_new | intros l].
  destruct n as [ln op values | ln lhs op rhs | ln op operand
                | ln keys values | ln func args keywords starargs kwargs
                | ln s | ln id | ln elts | ln elts | ln kind children].
  - rewrite expr_size_BoolOp in Hn.
    destruct op; destruct values as [|x [|y [|z rest]]];
      try apply total_raise; unfold exprs_size in Hn; simpl in Hn;
      (apply total_bind; [apply IH; lia | intros a]);
      destruct (truthy a); try apply total_ret; apply IH; lia.
  - simpl in Hn.
    destruct op; try apply total_raise;
      (apply total_bind; [apply IH; lia | intros a]);
      (apply total_bind; [apply IH; lia | intros c]); apply total_lift.
  - simpl in Hn. destruct op; try apply total_raise.
    apply total_bind; [apply IH; lia | intros a]. apply total_ret.
  - rewrite expr_size_Dict in Hn.
    apply total_bind; [|intros r; apply total_ret].
    apply total_convert_items. intros k v Hin.
    pose proof (exprs_size_In _ _ (in_combine_l _ _ _ _ Hin)).
    pose proof (exprs_size_In _ _ (in_combine_r _ _ _ _ Hin)).
    split; apply IH; lia.
  - pose proof (expr_size_Call_args ln func args keywords starargs kwargs).
    destruct func; try apply total_raise.
    destruct keywords, starargs, kwargs; try apply total_raise.
    apply total_bind.
    + apply total_mapM. intros x Hin. apply IH.
      apply exprs_size_In in Hin. lia.
    + intros vs. destruct (global_scope !! id);
        [apply total_lift | apply total_raise].
  - apply total_ret.
  - apply total_bind; [apply total_read | intros names].
    destruct (dict_get names (VStr id)); [apply total_ret | apply total_raise].
  - rewrite expr_size_List in Hn.
    apply total_bind; [|intros vs; apply total_ret].
    apply total_mapM. intros x Hin. apply IH.
    apply exprs_size_In in Hin. lia.
  - rewrite expr_size_Tuple in Hn.
    apply total_bind; [|intros vs; apply total_ret].
    apply total_mapM. intros x Hin. apply IH.
    apply exprs_size_In in Hin. lia.
  - apply total_raise.
Qed.

End Budget.

(** ** Independence of the store *)

Lemma sim_ret {A} R (a : A) : sim R (ret a) (ret a).
Proof. intros h1 h2 HR. simpl. auto. Qed.

Lemma sim_raise {A} R e : sim R (@raise A e) (raise e).
Proof. intros h1 h2 HR. simpl. auto. Qed.

Lemma sim_lift {A} R (r : result A) : sim R (lift r) (lift r).
Proof. destruct r; [apply sim_ret | apply sim_raise]. Qed.

Lemma sim_bind {A B} R (m1 m2 : M A) (k1 k2 : A -> M B) :
  sim R m1 m2 -> (forall a, sim R (k1 a) (k2 a)) ->
  sim R (bind m1 k1) (bind m2 k2).
Proof.
  intros Hm Hk h1 h2 HR. specialize (Hm h1 h2 HR). unfold bind.
  destruct (m1 h1) as [[[a1|e1] h1']|], (m2 h2) as [[[a2|e2] h2']|];
    try tauto; destruct Hm as [Heq HR']; try discriminate;
    inversion Heq; subst; [apply Hk|]; auto.
Qed.

Lemma sim_mapM {A B} R (f g : A -> M B) (l : list A) :
  (forall x, sim R (f x) (g x)) -> sim R (mapM f l) (mapM g l).
Proof.
  intros Hf. induction l as [|x l IH]; simpl; [apply sim_ret|].
  apply sim_bind; [apply Hf | intros y].
  apply sim_bind; [apply IH | intros ys; apply sim_ret].
Qed.

Lemma sim_read l1 l2 : sim (agree l1 l2) (read_dict l1) (read_dict l2).
Proof.
  intros h1 h2 HR. simpl. split; [|exact HR].
  destruct HR as [d [-> ->]]. reflexivity.
Qed.

Lemma sim_setitem l1 l2 k v :
  sim (agree l1 l2) (setitem l1 k v) (setitem l2 k v).
Proof.
  unfold setitem. destruct (hashable k); [|apply sim_raise].
  intros h1 h2 [d [H1 H2]]. unfold bind, read_dict, write_dict.
  rewrite H1, H2. simpl. split; [reflexivity|].
  exists (dict_set d k v).
  split; apply list_lookup_insert_eq; eapply lookup_lt_Some; eauto.
Qed.

Lemma sim_copy {A} vd1 vd2 h1 h2 (f : dict -> dict) (body1 body2 : loc -> M A) :
  content vd1 h1 = content vd2 h2 ->
  (forall l1 l2, sim (agree l1 l2) (body1 l1) (body2 l2)) ->
  fst <$> bind (match vd1 with Some l => read_dict l | None => ret [] end)
            (fun d => bind (new_dict (f d)) body1) h1
  = fst <$> bind (match vd2 with Some l => read_dict l | None => ret [] end)
              (fun d => bind (new_dict (f d)) body2) h2.
Proof.
  intros Hc Hb. unfold bind, new_dict.
  assert (E1 : match vd1 with Some l => read_dict l | None => ret [] end h1
               = Some (Ok (content vd1 h1), h1)) by (destruct vd1; reflexivity).
  assert (E2 : match vd2 with Some l => read_dict l | None => ret [] end h2
               = Some (Ok (content vd2 h2), h2)) by (destruct vd2; reflexivity).
  rewrite E1, E2, Hc.
  set (d := f (content vd2 h2)).
  assert (HR : agree (length h1) (length h2) (h1 ++ [d]) (h2 ++ [d])).
  { exists d. split; rewrite lookup_app_r, Nat.sub_diag; auto. }
  specialize (Hb _ _ _ _ HR).
  destruct (body1 (length h1) (h1 ++ [d])) as [[r1 k1]|],
           (body2 (length h2) (h2 ++ [d])) as [[r2 k2]|]; try tauto.
  destruct Hb as [-> _]. destruct r2; reflexivity.
Qed.

Section Store.
Context (str_mod : string -> value -> result value)
        (global_scope : gmap string callable)
        (filename : string) (expose_vars : bool).

Local Abbreviation conv := (_convert str_mod global_scope filename expose_vars).

Lemma sim_convert_items (c1 c2 : expr -> option loc -> M value)
    l1 l2 pairs result :
  (forall n, sim (agree l1 l2) (c1 n (Some l1)) (c2 n (Some l2))) ->
  sim (agree l1 l2) (convert_items expose_vars c1 l1 pairs result)
                    (convert_items expose_vars c2 l2 pairs result).
Proof.
  intros Hc. revert result.
  induction pairs as [|[k v] rest IH]; intros result; simpl;
    [apply sim_ret|].
  apply sim_bind; [apply Hc | intros c_k].
  apply sim_bind; [apply Hc | intros c_v].
  apply sim_bind; [|intros _].
  { destruct expose_vars; [apply sim_setitem | apply sim_ret]. }
  apply sim_bind; [|intros r; apply IH].
  destruct (hashable c_k); [apply sim_ret | apply sim_raise].
Qed.

(** Two calls given dict objects with the same items, in whatever stores,
    have the same outcome. *)
Lemma convert_store_independent b : forall n vd1 vd2 h1 h2,
  content vd1 h1 = content vd2 h2 ->
  fst <$> conv b n vd1 h1 = fst <$> conv b n vd2 h2.
Proof.
  induction b as [|b IH]; intros n vd1 vd2 h1 h2 Hc; [reflexivity|].
  assert (Hchild : forall x l1 l2,
             sim (agree l1 l2) (conv b x (Some l1)) (conv b x (Some l2))).
  { intros x l1 l2 k1 k2 [d [H1 H2]].
    assert (E : fst <$> conv b x (Some l1) k1 = fst <$> conv b x (Some l2) k2)
      by (apply IH; simpl; rewrite H1, H2; reflexivity).
    destruct (conv b x (Some l1) k1) as [[r1 k1']|] eqn:E1,
             (conv b x (Some l2) k2) as [[r2 k2']|] eqn:E2;
      simpl in E; try discriminate; auto.
    split; [congruence|].
    apply framed_convert in E1, E2. exists d. split.
    - apply (proj1 E1); auto.
    - apply (proj1 E2); auto. }
  cbn [_convert]. apply sim_copy; [exact Hc|]. intros l1 l2.
  repeat first
    [ apply sim_ret
    | apply sim_raise
    | apply sim_lift
    | apply sim_read
    | apply Hchild
    | apply sim_mapM; intros ?
    | apply sim_convert_items; intros ?
    | apply sim_bind; [| intros ?]
    | match goal with
      | |- sim _ (match ?x with _ => _ end) _ => destruct x
      | |- sim _ (if ?x then _ else _) _ => destruct x
      end ].
Qed.

End Store.

(** ** Evaluation as a function of the inherited items *)

Lemma bindO_fst {A B} (m : M A) (k : A -> M B) h r h1 :
  m h = Some (r, h1) ->
  fst <$> bind m k h
  = bindO (Some r) (fun a => fst <$> k a h1).
Proof. intros E. unfold bind. rewrite E. destruct r; reflexivity. Qed.

Lemma copy_step {A} (f : dict -> dict) (body : loc -> M A) env :
  bind (read_dict 0) (fun d => bind (new_dict (f d)) body) [env]
  = body 1 [env; f env].
Proof. reflexivity. Qed.

Section BigStep.
Context (str_mod : string -> value -> result value)
        (global_scope : gmap string callable)
        (filename : string) (expose_vars : bool).

Local Abbreviation conv := (_convert str_mod global_scope filename expose_vars).
Local Abbreviation eval_in :=
  (convert_in str_mod global_scope filename expose_vars).

(** A call given a dict object that holds [env] ends, whatever the store
    and for any budget of at least the size of the tree, with the outcome
    [convert_in env n], and leaves every dict object of the store as it
    was. *)
Lemma convert_at b n l h env :
  h !! l = Some env -> expr_size n <= b ->
  exists r h', conv b n (Some l) h = Some (r, h')
               /\ eval_in env n = Some r /\ unchanged h h'.
Proof.
  intros Hl Hb.
  destruct (convert_total str_mod global_scope filename expose_vars
              (expr_size n) n (Some l) (Nat.le_refl _) h) as [[r h'] E].
  exists r, h'. split; [|split].
  - eapply convert_budget_mono; eauto.
  - unfold convert_in.
    rewrite <- (convert_store_independent str_mod global_scope filename
                  expose_vars _ n (Some l) (Some 0) h [env]).
    + rewrite E. reflexivity.
    + simpl. rewrite Hl. reflexivity.
  - eapply framed_convert; eauto.
Qed.

Lemma gclient_eval_convert_in e :
  _gclient_eval str_mod global_scope filename expose_vars (ExprNode e)
  = eval_in [] e.
Proof.
  unfold _gclient_eval, run, convert_in.
  apply convert_store_independent. reflexivity.
Qed.

Lemma mapM_at b l : forall elts h env,
  h !! l = Some env -> (forall x, In x elts -> expr_size x <= b) ->
  exists r h', mapM (fun n => conv b n (Some l)) elts h = Some (r, h')
               /\ mapO (eval_in env) elts = Some r /\ unchanged h h'.
Proof.
  induction elts as [|x elts IH]; intros h env Hl Hb; simpl.
  - exists (Ok []), h. repeat split; auto.
  - destruct (convert_at b x l h env Hl) as (r & h1 & E & Ev & U);
      [apply Hb; left; auto|].
    unfold bind at 1. rewrite E, Ev.
    destruct r as [y|e]; simpl;
      [|exists (Raise e), h1; repeat split; auto; apply U].
    destruct (IH h1 env) as (rs & h2 & Es & Evs & Us);
      [apply U; auto | intros; apply Hb; right; auto |].
    unfold bind at 1. rewrite Es, Evs.
    assert (U2 : unchanged h h2) by (eapply keeps_trans; eauto).
    destruct rs as [ys|e]; simpl; eexists _, h2; repeat split; auto; apply U2.
Qed.

Lemma convert_items_at b l : forall pairs h env result,
  h !! l = Some env ->
  (forall k v, In (k, v) pairs -> expr_size k <= b /\ expr_size v <= b) ->
  exists rp h',
    items_in eval_in expose_vars env pairs result = Some rp
    /\ convert_items expose_vars (conv b) l pairs result h
       = Some (rmap snd rp, h')
    /\ keeps (fun l' => l' <> l) h h'.
Proof.
  induction pairs as [|[k v] rest IH]; intros h env result Hl Hb; simpl.
  - exists (Ok (env, result)), h. repeat split; auto.
  - destruct (Hb k v) as [Hk Hv]; [left; auto|].
    destruct (convert_at b k l h env Hl Hk) as (rk & h1 & Ek & Evk & Uk).
    unfold bind at 1. rewrite Ek, Evk.
    assert (K1 : keeps (fun l' => l' <> l) h h1)
      by (apply unchanged_keeps; exact Uk).
    destruct rk as [c_k|e]; simpl; [|exists (Raise e), h1; auto].
    assert (Hl1 : h1 !! l = Some env) by (apply Uk; auto).
    destruct (convert_at b v l h1 env Hl1 Hv) as (rv & h2 & Ev & Evv & Uv).
    unfold bind at 1. rewrite Ev, Evv.
    assert (K2 : keeps (fun l' => l' <> l) h h2).
    { eapply keeps_trans; [exact K1 | apply unchanged_keeps; exact Uv]. }
    destruct rv as [c_v|e]; simpl; [|exists (Raise e), h2; auto].
    assert (Hl2 : h2 !! l = Some env) by (apply Uv; auto).
    unfold bind at 1, setitem.
    destruct (hashable c_k) eqn:Hh.
    + set (env' := if expose_vars then dict_set env c_k c_v else env).
      set (h3 := if expose_vars then <[l := dict_set env c_k c_v]> h2 else h2).
      assert (E3 : (if expose_vars
                    then bind (read_dict l)
                           (fun d => write_dict l (dict_set d c_k c_v))
                    else ret tt) h2 = Some (Ok tt, h3)).
      { subst h3. destruct expose_vars; [|reflexivity].
        unfold bind, read_dict, write_dict. rewrite Hl2. reflexivity. }
      rewrite E3. unfold bind at 1. simpl.
      assert (Hl3 : h3 !! l = Some env').
      { subst h3 env'. destruct expose_vars; [|exact Hl2].
        apply list_lookup_insert_eq. eapply lookup_lt_Some; eauto. }
      assert (K3 : keeps (fun l' => l' <> l) h h3).
      { eapply keeps_trans; [exact K2|]. subst h3.
        destruct expose_vars; [|apply keeps_refl].
        eapply (framed_write l). reflexivity. }
      destruct (IH h3 env' (dict_set result c_k c_v) Hl3)
        as (r & h4 & Evr & E & U); [intros; apply Hb; right; auto|].
      exists r, h4. repeat split; auto; eapply keeps_trans; eauto.
    + assert (E3 : (if expose_vars then @raise unit TypeError else ret tt) h2
                   = Some ((if expose_vars then Raise TypeError else Ok tt), h2))
        by (destruct expose_vars; reflexivity).
      rewrite E3.
      exists (Raise TypeError), h2.
      destruct expose_vars; simpl; repeat split; auto; apply K2.
Qed.

End BigStep.

Section Equations.
Context (str_mod : string -> value -> result value)
        (global_scope : gmap string callable)
        (filename : string) (expose_vars : bool).

Local Abbreviation conv := (_convert str_mod global_scope filename expose_vars).
Local Abbreviation eval_in :=
  (convert_in str_mod global_scope filename expose_vars).
Local Abbreviation own env := (dict_update env _allowed_names).

Lemma eval_in_List env ln elts :
  eval_in env (List ln elts)
  = bindO (mapO (eval_in (own env)) elts) (fun vs => Some (Ok (VList vs))).
Proof.
  unfold convert_in at 1. rewrite expr_size_List. cbn [_convert].
  rewrite copy_step.
  destruct (mapM_at str_mod global_scope filename expose_vars
              (exprs_size elts) 1 elts [env; own env] (own env))
    as (r & h' & E & Ev & _);
    [reflexivity | intros x Hx; apply exprs_size_In; exact Hx |].
  erewrite bindO_fst by exact E. rewrite Ev. destruct r; reflexivity.
Qed.

Lemma eval_in_Tuple env ln elts :
  eval_in env (Tuple ln elts)
  = bindO (mapO (eval_in (own env)) elts) (fun vs => Some (Ok (VTuple vs))).
Proof.
  unfold convert_in at 1. rewrite expr_size_Tuple. cbn [_convert].
  rewrite copy_step.
  destruct (mapM_at str_mod global_scope filename expose_vars
              (exprs_size elts) 1 elts [env; own env] (own env))
    as (r & h' & E & Ev & _);
    [reflexivity | intros x Hx; apply exprs_size_In; exact Hx |].
  erewrite bindO_fst by exact E. rewrite Ev. destruct r; reflexivity.
Qed.

Lemma eval_in_Dict env ln keys values :
  eval_in env (Dict ln keys values)
  = bindO (items_in eval_in expose_vars (own env) (combine keys values) [])
      (fun p => Some (Ok (VDict (snd p)))).
Proof.
  unfold convert_in at 1. rewrite expr_size_Dict. cbn [_convert].
  rewrite copy_step.
  destruct (convert_items_at str_mod global_scope filename expose_vars
              (exprs_size keys + exprs_size values) 1
              (combine keys values) [env; own env] (own env) [])
    as (r & h' & Ev & E & _); [reflexivity | |].
  { intros k v Hin.
    pose proof (exprs_size_In _ _ (in_combine_l _ _ _ _ Hin)).
    pose proof (exprs_size_In _ _ (in_combine_r _ _ _ _ Hin)). lia. }
  erewrite bindO_fst by exact E. rewrite Ev. destruct r; reflexivity.
Qed.

(** One sub-expression evaluated by [vars_convert] inside a call whose
    own dict object [1] holds [own env]. *)
Lemma child_at {B} b x (k : value -> M B) h env :
  h !! 1 = Some env -> expr_size x <= b ->
  exists r h1, h1 !! 1 = Some env /\ eval_in env x = Some r /\
    fst <$> bind (conv b x (Some 1)) k h
    = bindO (Some r) (fun a => fst <$> k a h1).
Proof.
  intros Hl Hb.
  destruct (convert_at str_mod global_scope filename expose_vars
              b x 1 h env Hl Hb) as (r & h1 & E & Ev & U).
  exists r, h1. split; [apply U; auto | split; [exact Ev|]].
  apply bindO_fst. exact E.
Qed.

Lemma eval_in_Str env ln s : eval_in env (Str ln s) = Some (Ok (VStr s)).
Proof. reflexivity. Qed.

Lemma eval_in_Name env ln id :
  eval_in env (Name ln id)
  = match dict_get (own env) (VStr id) with
    | Some v => Some (Ok v)
    | None => Some (Raise (ValueError (InvalidName id (own env)) filename ln))
    end.
Proof.
  unfold convert_in. cbn [expr_size _convert]. rewrite copy_step.
  unfold bind, read_dict.
  change (default [] ([env; own env] !! 1)) with (own env).
  destruct (dict_get (own env) (VStr id)); reflexivity.
Qed.

Lemma eval_in_Add env ln lhs rhs :
  eval_in env (BinOp ln lhs Add rhs)
  = bindO (eval_in (own env) lhs) (fun a =>
    bindO (eval_in (own env) rhs) (fun b => Some (py_add a b))).
Proof.
  unfold convert_in at 1. cbn [expr_size _convert]. rewrite copy_step.
  edestruct (@child_at value) as (r1 & h1 & Hl1 & Ev1 & ->);
    [reflexivity | | rewrite Ev1]; [lia|].
  destruct r1 as [a|e]; [cbn [bindO] | reflexivity].
  edestruct (@child_at value) as (r2 & h2 & Hl2 & Ev2 & ->);
    [exact Hl1 | | rewrite Ev2]; [lia|].
  destruct r2 as [c|e]; [cbn [bindO] | reflexivity].
  destruct (py_add a c); reflexivity.
Qed.

Lemma eval_in_Mod env ln lhs rhs :
  eval_in env (BinOp ln lhs Mod rhs)
  = bindO (eval_in (own env) lhs) (fun a =>
    bindO (eval_in (own env) rhs) (fun b => Some (py_mod str_mod a b))).
Proof.
  unfold convert_in at 1. cbn [expr_size _convert]. rewrite copy_step.
  edestruct (@child_at value) as (r1 & h1 & Hl1 & Ev1 & ->);
    [reflexivity | | rewrite Ev1]; [lia|].
  destruct r1 as [a|e]; [cbn [bindO] | reflexivity].
  edestruct (@child_at value) as (r2 & h2 & Hl2 & Ev2 & ->);
    [exact Hl1 | | rewrite Ev2]; [lia|].
  destruct r2 as [c|e]; [cbn [bindO] | reflexivity].
  destruct (py_mod str_mod a c); reflexivity.
Qed.

Lemma eval_in_Or env ln x y :
  eval_in env (BoolOp ln Or [x; y])
  = bindO (eval_in (own env) x) (fun a =>
      if truthy a then Some (Ok a) else eval_in (own env) y).
Proof.
  unfold convert_in at 1. rewrite expr_size_BoolOp.
  unfold exprs_size. cbn [map list_sum foldr _convert]. rewrite copy_step.
  edestruct (@child_at value) as (r1 & h1 & Hl1 & Ev1 & ->);
    [reflexivity | | rewrite Ev1]; [lia|].
  destruct r1 as [a|e]; [cbn [bindO] | reflexivity].
  destruct (truthy a); [reflexivity|].
  destruct (convert_at str_mod global_scope filename expose_vars
              (expr_size x + (expr_size y + 0)) y 1 h1 (own env) Hl1)
    as (r & h2 & E & Ev & _); [lia|].
  rewrite E, Ev. reflexivity.
Qed.

Lemma eval_in_And env ln x y :
  eval_in env (BoolOp ln And [x; y])
  = bindO (eval_in (own env) x) (fun a =>
      if truthy a then eval_in (own env) y else Some (Ok a)).
Proof.
  unfold convert_in at 1. rewrite expr_size_BoolOp.
  unfold exprs_size. cbn [map list_sum foldr _convert]. rewrite copy_step.
  edestruct (@child_at value) as (r1 & h1 & Hl1 & Ev1 & ->);
    [reflexivity | | rewrite Ev1]; [lia|].
  destruct r1 as [a|e]; [cbn [bindO] | reflexivity].
  destruct (truthy a); [|reflexivity].
  destruct (convert_at str_mod global_scope filename expose_vars
              (expr_size x + (expr_size y + 0)) y 1 h1 (own env) Hl1)
    as (r & h2 & E & Ev & _); [lia|].
  rewrite E, Ev. reflexivity.
Qed.

Lemma eval_in_BoolOp_arity env ln op values :
  length values <> 2 ->
  eval_in env (BoolOp ln op values)
  = Some (Raise (ValueError
                   match op with Or => OrOperands | And => AndOperands end
                   filename ln)).
Proof.
  intros Hlen. unfold convert_in. rewrite expr_size_BoolOp.
  cbn [_convert]. rewrite copy_step.
  destruct op; destruct values as [|x [|y [|z rest]]];
    try reflexivity; simpl in Hlen; lia.
Qed.

Lemma eval_in_Not env ln operand :
  eval_in env (UnaryOp ln Not operand)
  = bindO (eval_in (own env) operand) (fun a =>
      Some (Ok (VBool (negb (truthy a))))).
Proof.
  unfold convert_in at 1. cbn [expr_size _convert]. rewrite copy_step.
  edestruct (@child_at value) as (r1 & h1 & Hl1 & Ev1 & ->);
    [reflexivity | | rewrite Ev1]; [lia|].
  destruct r1 as [a|e]; reflexivity.
Qed.

Lemma eval_in_Call env ln ln' id args :
  eval_in env (Call ln (Name ln' id) args [] None None)
  = bindO (mapO (eval_in (own env)) args) (fun vs =>
      match global_scope !! id with
      | Some f => Some (f vs)
      | None => Some (Raise (KeyError (VStr id)))
      end).
Proof.
  unfold convert_in at 1.
  pose proof (expr_size_Call_args ln (Name ln' id) args [] None None) as Hs.
  destruct (expr_size (Call ln (Name ln' id) args [] None None))
    as [|b]; [lia|].
  cbn [_convert]. rewrite copy_step.
  destruct (mapM_at str_mod global_scope filename expose_vars
              b 1 args [env; own env] (own env))
    as (r & h' & E & Ev & _); [reflexivity | |].
  { intros x Hx. apply exprs_size_In in Hx. lia. }
  erewrite bindO_fst by exact E. rewrite Ev.
  destruct r as [vs|e]; [cbn [bindO] | reflexivity].
  destruct (global_scope !! id) as [f|]; [|reflexivity].
  destruct (f vs); reflexivity.
Qed.

Lemma eval_in_Call_not_name env ln func args keywords starargs kwargs :
  (forall ln' id, func <> Name ln' id) ->
  eval_in env (Call ln func args keywords starargs kwargs)
  = Some (Raise (ValueError CallFuncNotName filename ln)).
Proof.
  intros Hf. unfold convert_in.
  destruct (expr_size (Call ln func args keywords starargs kwargs)) eqn:Hs;
    [simpl in Hs; lia|].
  cbn [_convert]. rewrite copy_step.
  destruct func; try reflexivity. exfalso. eapply Hf; reflexivity.
Qed.

Lemma eval_in_Call_irregular env ln ln' id args keywords starargs kwargs :
  keywords <> [] \/ starargs <> None \/ kwargs <> None ->
  eval_in env (Call ln (Name ln' id) args keywords starargs kwargs)
  = Some (Raise (ValueError CallRegularArgs filename ln)).
Proof.
  intros Hk. unfold convert_in.
  destruct (expr_size (Call ln (Name ln' id) args keywords starargs kwargs))
    eqn:Hs; [simpl in Hs; lia|].
  cbn [_convert]. rewrite copy_step.
  destruct keywords, starargs, kwargs; try reflexivity.
  exfalso. destruct Hk as [H|[H|H]]; apply H; reflexivity.
Qed.

End Equations.


(** ** Values and dicts *)

Lemma value_nested_ind (P : value -> Prop) :
  P VNone -> (forall b, P (VBool b)) -> (forall n, P (VInt n)) ->
  (forall s, P (VStr s)) ->
  (forall l, Forall P l -> P (VList l)) ->
  (forall l, Forall P l -> P (VTuple l)) ->
  (forall d, Forall (fun kv => P (fst kv) /\ P (snd kv)) d -> P (VDict d)) ->
  forall v, P v.
Proof.
  intros HN HB HI HS HL HT HD. fix IH 1.
  intros [ |b|n|s|l|l|d];
    [apply HN | apply HB | apply HI | apply HS | apply HL | apply HT | apply HD].
  - induction l as [|x l IHl]; constructor; [apply IH | exact IHl].
  - induction l as [|x l IHl]; constructor; [apply IH | exact IHl].
  - induction d as [|[k v] d IHd]; constructor; [split; apply IH | exact IHd].
Qed.

Lemma hashable_tuple_cons x l :
  hashable (VTuple (x :: l)) = hashable x && hashable (VTuple l).
Proof. reflexivity. Qed.

Lemma py_eq_tuple_cons x xs y ys :
  py_eq (VTuple (x :: xs)) (VTuple (y :: ys))
  = py_eq x y && py_eq (VTuple xs) (VTuple ys).
Proof. reflexivity. Qed.

(** A hashable value equals itself. *)
Lemma py_eq_refl v : hashable v = true -> py_eq v v = true.
Proof.
  induction v as [ |b|n|s|l IH|l IH|d IH] using value_nested_ind;
    intros Hh; try discriminate.
  - reflexivity.
  - destruct b; reflexivity.
  - apply Z.eqb_refl.
  - apply String.eqb_refl.
  - induction IH as [|x l Hx _ IHl]; [reflexivity|].
    rewrite hashable_tuple_cons in Hh. apply andb_prop in Hh as [H1 H2].
    rewrite py_eq_tuple_cons, (Hx H1), (IHl H2). reflexivity.
Qed.

(** Two values equal to one hashable value are equal. *)
Lemma py_eq_euclid a : hashable a = true ->
  forall b c, py_eq a b = true -> py_eq a c = true -> py_eq b c = true.
Proof.
  induction a as [ |x|n|s|l IH|l IH|d IH] using value_nested_ind;
    intros Hh; try discriminate.
  - intros [] []; simpl; congruence.
  - intros b c Hb Hc.
    destruct b as [ |y|m| | | | ], c as [ |z|k| | | | ];
      cbn [py_eq] in *; try discriminate;
      repeat match goal with b : bool |- _ => destruct b end;
      cbn [Bool.eqb] in *; try discriminate; try reflexivity;
      rewrite ?Z.eqb_eq in *; lia.
  - intros b c Hb Hc.
    destruct b as [ |y|m| | | | ], c as [ |z|k| | | | ];
      cbn [py_eq] in *; try discriminate;
      repeat match goal with b : bool |- _ => destruct b end;
      cbn [Bool.eqb] in *; try discriminate; try reflexivity;
      rewrite ?Z.eqb_eq in *; lia.
  - intros [ | | |t| | | ] [ | | |u| | | ]; simpl; try discriminate.
    rewrite !String.eqb_eq. congruence.
  - intros [ | | | | |ys| ] [ | | | | |zs| ]; try discriminate.
    revert ys zs.
    induction IH as [|x l Hx _ IHl]; intros ys zs.
    + destruct ys, zs; simpl; congruence.
    + destruct ys as [|y ys], zs as [|z zs]; try discriminate.
      rewrite hashable_tuple_cons in Hh. apply andb_prop in Hh as [H1 H2].
      rewrite !py_eq_tuple_cons. intros Hb Hc.
      apply andb_prop in Hb as [Hb1 Hb2]. apply andb_prop in Hc as [Hc1 Hc2].
      rewrite (Hx H1 _ _ Hb1 Hc1), (IHl H2 _ _ Hb2 Hc2). reflexivity.
Qed.

(** After [d[k] = v] the key [k] maps to [v]. *)
Lemma dict_get_set_same d k v :
  hashable k = true -> dict_get (dict_set d k v) k = Some v.
Proof.
  intros Hk. induction d as [|[k0 v0] d IH]; simpl.
  - rewrite (py_eq_refl k Hk). reflexivity.
  - destruct (py_eq k0 k) eqn:E; simpl; rewrite E; auto.
Qed.

(** [d[k] = v] leaves every key different from [k] as it was. *)
Lemma dict_get_set_other d k v k' :
  Forall (fun kv => hashable (fst kv) = true) d ->
  py_eq k k' = false -> dict_get (dict_set d k v) k' = dict_get d k'.
Proof.
  intros Hd Hne. induction Hd as [|[k0 v0] d Hk0 _ IH]; simpl.
  - rewrite Hne. reflexivity.
  - simpl in Hk0. destruct (py_eq k0 k) eqn:E; simpl.
    + destruct (py_eq k0 k') eqn:E'; [|reflexivity].
      rewrite (py_eq_euclid k0 Hk0 k k' E E') in Hne. discriminate.
    + destruct (py_eq k0 k'); auto.
Qed.

(** Storing under a key that is present replaces; the dict does not grow. *)
Lemma dict_set_present d k v old :
  dict_get d k = Some old -> length (dict_set d k v) = length d.
Proof.
  revert old. induction d as [|[k0 v0] d IH]; simpl; intros old H;
    [discriminate|].
  destruct (py_eq k0 k); simpl; [reflexivity|]. erewrite IH; eauto.
Qed.

(** Storing under a new key appends. *)
Lemma dict_set_absent d k v :
  dict_get d k = None -> dict_set d k v = d ++ [(k, v)].
Proof.
  induction d as [|[k0 v0] d IH]; simpl; intros H; [reflexivity|].
  destruct (py_eq k0 k); [discriminate|]. rewrite IH; auto.
Qed.

(** Equal values are hashable together. *)
Lemma py_eq_hashable a : forall b, py_eq a b = true -> hashable a = hashable b.
Proof.
  induction a as [ |x|n|s|l IH|l IH|d IH] using value_nested_ind;
    intros b; destruct b as [ |y|m|t|ys|ys|e]; try discriminate;
    try reflexivity.
  revert ys. induction IH as [|x l Hx _ IHl]; intros [|y ys];
    try discriminate; [reflexivity|].
  rewrite py_eq_tuple_cons, !hashable_tuple_cons. intros H.
  apply andb_prop in H as [H1 H2]. rewrite (Hx _ H1), (IHl _ H2). reflexivity.
Qed.

Lemma py_eq_sym a b : hashable a = true -> py_eq a b = true -> py_eq b a = true.
Proof.
  intros Ha H. apply (py_eq_euclid a Ha b a H). apply py_eq_refl, Ha.
Qed.

Lemma py_eq_trans a b c :
  hashable a = true -> py_eq a b = true -> py_eq b c = true -> py_eq a c = true.
Proof.
  intros Ha Hab Hbc.
  assert (Hb : hashable b = true) by (rewrite <- (py_eq_hashable a b Hab); exact Ha).
  apply (py_eq_euclid b Hb a c); [apply py_eq_sym; auto | exact Hbc].
Qed.

(** The key looked up decides alone whether [d[k] = v] is seen. *)
Lemma dict_get_set d k v k' :
  hashable k = true -> hashable k' = true ->
  dict_get (dict_set d k v) k'
  = if py_eq k k' then Some v else dict_get d k'.
Proof.
  intros Hk Hk'. induction d as [|[k0 v0] d IH]; simpl; [reflexivity|].
  destruct (py_eq k0 k) eqn:E; simpl.
  - assert (H0 : hashable k0 = true)
      by (rewrite (py_eq_hashable k0 k E); exact Hk).
    destruct (py_eq k0 k') eqn:E'.
    + rewrite (py_eq_euclid k0 H0 k k' E E'). reflexivity.
    + destruct (py_eq k k') eqn:E2; [|reflexivity].
      rewrite (py_eq_trans k0 k k' H0 E E2) in E'. discriminate.
  - destruct (py_eq k0 k') eqn:E'; [|exact IH].
    destruct (py_eq k k') eqn:E2; [|reflexivity].
    assert (H0 : hashable k0 = true)
      by (rewrite (py_eq_hashable k0 k' E'); exact Hk').
    rewrite (py_eq_trans k0 k' k H0 E' (py_eq_sym k k' Hk E2)) in E.
    discriminate.
Qed.

(** A key that is found is hashable when the keys of the dict are. *)
Lemma dict_get_hashable d k x :
  Forall (fun kv => hashable (fst kv) = true) d ->
  dict_get d k = Some x -> hashable k = true.
Proof.
  intros Hd. induction Hd as [|[k0 v0] d Hk0 _ IH]; simpl; [discriminate|].
  destruct (py_eq k0 k) eqn:E; [|exact IH].
  intros _. rewrite <- (py_eq_hashable k0 k E). exact Hk0.
Qed.

Lemma dict_set_hashable d k v :
  Forall (fun kv => hashable (fst kv) = true) d -> hashable k = true ->
  Forall (fun kv => hashable (fst kv) = true) (dict_set d k v).
Proof.
  intros Hd Hk. induction Hd as [|[k0 v0] d Hk0 Hd IH]; simpl.
  - constructor; auto.
  - destruct (py_eq k0 k); constructor; auto.
Qed.

Lemma combine_fst_snd {A B} (l : list (A * B)) :
  combine (map fst l) (map snd l) = l.
Proof. induction l as [|[a b] l IH]; simpl; [|rewrite IH]; reflexivity. Qed.

(** ** The loop over the pairs of a dict literal *)

Lemma bindO_assoc {A B C} (o : outcome A) (f : A -> outcome B)
    (g : B -> outcome C) :
  bindO (bindO o f) g = bindO o (fun a => bindO (f a) g).
Proof. destruct o as [[a|e]|]; reflexivity. Qed.

Lemma bindO_ext {A B} (o : outcome A) (f g : A -> outcome B) :
  (forall a, f a = g a) -> bindO o f = bindO o g.
Proof. intros H. destruct o as [[a|e]|]; simpl; auto. Qed.

Section Items.
Context (eval : dict -> expr -> outcome value) (expose_vars : bool).

Lemma items_in_app pairs more : forall env result,
  items_in eval expose_vars env (pairs ++ more) result
  = bindO (items_in eval expose_vars env pairs result)
      (fun p => items_in eval expose_vars (fst p) more (snd p)).
Proof.
  induction pairs as [|[k v] pairs IH]; intros env result; simpl;
    [reflexivity|].
  rewrite bindO_assoc. apply bindO_ext. intros c_k.
  rewrite bindO_assoc. apply bindO_ext. intros c_v.
  destruct (hashable c_k); [apply IH | reflexivity].
Qed.

(** The keys of the result are hashable. *)
Lemma items_in_hashable pairs : forall env result env' d,
  Forall (fun kv => hashable (fst kv) = true) result ->
  items_in eval expose_vars env pairs result = Some (Ok (env', d)) ->
  Forall (fun kv => hashable (fst kv) = true) d.
Proof.
  induction pairs as [|[k v] pairs IH]; intros env result env' d Hr; simpl.
  - intros H. inversion H; subst. exact Hr.
  - destruct (eval env k) as [[c_k|e]|]; try discriminate. simpl.
    destruct (eval env v) as [[c_v|e]|]; try discriminate. simpl.
    destruct (hashable c_k) eqn:Hh; try discriminate.
    apply IH. apply dict_set_hashable; auto.
Qed.

(** With exposure, [vars_dict] has every item of the result so far. *)
Lemma items_in_exposed pairs : forall env result env' d,
  expose_vars = true ->
  Forall (fun kv => hashable (fst kv) = true) result ->
  (forall key x, dict_get result key = Some x -> dict_get env key = Some x) ->
  items_in eval expose_vars env pairs result = Some (Ok (env', d)) ->
  forall key x, dict_get d key = Some x -> dict_get env' key = Some x.
Proof.
  intros env result env' d Hev. subst expose_vars. revert env result.
  induction pairs as [|[k v] pairs IH]; intros env result Hr Hagree; simpl.
  - intros H. inversion H; subst. exact Hagree.
  - destruct (eval env k) as [[c_k|e]|]; try discriminate. simpl.
    destruct (eval env v) as [[c_v|e]|]; try discriminate. simpl.
    destruct (hashable c_k) eqn:Hh; try discriminate.
    apply IH; [apply dict_set_hashable; auto|].
    intros key x Hget.
    assert (Hkey : hashable key = true)
      by (eapply dict_get_hashable; [|exact Hget]; apply dict_set_hashable; auto).
    rewrite dict_get_set in Hget |- * by auto.
    destruct (py_eq c_k key); auto.
Qed.

End Items.


(** ** The statement executor *)

Lemma dict_get_None_not_in d k :
  hashable k = true -> dict_get d k = None -> ~ In k (dict_keys d).
Proof.
  intros Hk. induction d as [|[k0 v0] d IH]; simpl; [tauto|].
  destruct (py_eq k0 k) eqn:E; [discriminate|].
  intros H [->|Hin]; [|tauto]. rewrite (py_eq_refl k Hk) in E. discriminate.
Qed.

Lemma dict_get_in d k :
  hashable k = true -> In k (dict_keys d) -> dict_contains d k = true.
Proof.
  intros Hk Hin. unfold dict_contains.
  destruct (dict_get d k) eqn:E; [reflexivity|].
  exfalso. eapply dict_get_None_not_in; eauto.
Qed.

Section Executor.
Context (str_mod : string -> value -> result value)
        (global_scope : gmap string callable) (filename : string).

Local Abbreviation visit := (_visit_in_module str_mod global_scope filename).
Local Abbreviation visit_all := (visit_body str_mod global_scope filename).

Lemma visit_body_app pre post : forall scope,
  visit_all (pre ++ post) scope
  = bindO (visit_all pre scope) (fun scope' => visit_all post scope').
Proof.
  induction pre as [|s pre IH]; intros scope; simpl; [reflexivity|].
  destruct (visit scope s) as [[scope'|e]|]; simpl; auto.
Qed.

(** A statement that is executed is an assignment to one bare name that
    the scope does not hold yet; its binding is appended. *)
Lemma visit_ok scope s scope' :
  visit scope s = Some (Ok scope') ->
  exists ln ln' id value v,
    s = Assign ln [Name ln' id] value
    /\ _gclient_eval str_mod global_scope filename (String.eqb id "vars")
         (ExprNode value) = Some (Ok v)
    /\ dict_get scope (VStr id) = None
    /\ scope' = scope ++ [(VStr id, v)].
Proof.
  destruct s as [ln targets value|ln kind]; simpl; [|discriminate].
  destruct targets as [|target [|t2 rest]]; try discriminate.
  destruct target; try discriminate.
  destruct (_gclient_eval _ _ _ _ _) as [[v|e]|] eqn:E; try discriminate.
  unfold dict_contains.
  destruct (dict_get scope (VStr id)) eqn:G; try discriminate.
  intros H. inversion H; subst.
  exists ln, ln0, id, value, v. repeat split; auto.
  apply dict_set_absent. exact G.
Qed.

Lemma visit_body_ok body : forall scope scope',
  visit_all body scope = Some (Ok scope') ->
  Forall (fun s => exists ln ln' id value, s = Assign ln [Name ln' id] value)
    body
  /\ dict_keys scope' = dict_keys scope ++ map VStr (target_ids body)
  /\ (NoDup (dict_keys scope) -> NoDup (dict_keys scope')).
Proof.
  induction body as [|s body IH]; intros scope scope'; simpl.
  - intros H. inversion H; subst. rewrite app_nil_r. auto.
  - destruct (visit scope s) as [[scope1|e]|] eqn:E; try discriminate.
    intros H. apply visit_ok in E as (ln & ln' & id & value & v & -> & _ & G & ->).
    apply IH in H as (HF & HK & HN). split; [|split].
    + constructor; eauto.
    + rewrite HK. unfold dict_keys, target_ids. simpl.
      rewrite map_app, <- app_assoc. reflexivity.
    + intros Hnd. apply HN. unfold dict_keys. rewrite map_app. simpl.
      apply NoDup_app. split; [exact Hnd|]. split.
      * intros k Hin Hk. apply list_elem_of_In in Hin.
        apply list_elem_of_In in Hk. destruct Hk as [<-|[]].
        exact (dict_get_None_not_in scope (VStr id) eq_refl G Hin).
      * apply NoDup_singleton.
Qed.

End Executor.

(** ** The failures of the evaluator *)

Lemma raising_ret {A} E (a : A) : raising E (ret a).
Proof. intros h e h' H. discriminate. Qed.

Lemma raising_raise {A} (E : exn -> Prop) e : E e -> raising E (@raise A e).
Proof. intros He h e' h' H. inversion H; subst. exact He. Qed.

Lemma raising_lift {A} (E : exn -> Prop) (r : result A) :
  (forall e, r = Raise e -> E e) -> raising E (lift r).
Proof.
  destruct r; intros Hr; [apply raising_ret | apply raising_raise; auto].
Qed.

Lemma raising_bind {A B} E (m : M A) (k : A -> M B) :
  raising E m -> (forall a, raising E (k a)) -> raising E (bind m k).
Proof.
  intros Hm Hk h e h' H. unfold bind in H.
  destruct (m h) as [[[a|e1] h1]|] eqn:E1; try discriminate.
  - eapply Hk; eauto.
  - inversion H; subst. eapply Hm; eauto.
Qed.

Lemma raising_read E l : raising E (read_dict l).
Proof. intros h e h' H. discriminate. Qed.

Lemma raising_setitem (E : exn -> Prop) l k v :
  E TypeError -> raising E (setitem l k v).
Proof.
  intros He. unfold setitem. destruct (hashable k).
  - apply raising_bind; [apply raising_read|]. intros d h e h' H. discriminate.
  - apply raising_raise, He.
Qed.

Lemma raising_mapM {A B} E (f : A -> M B) (l : list A) :
  (forall x, raising E (f x)) -> raising E (mapM f l).
Proof.
  intros Hf. induction l as [|x l IH]; simpl; [apply raising_ret|].
  apply raising_bind; [apply Hf | intros y].
  apply raising_bind; [apply IH | intros ys; apply raising_ret].
Qed.

Lemma py_add_raises a b e : py_add a b = Raise e -> e = TypeError.
Proof.
  unfold py_add.
  destruct a, b; simpl; try congruence;
    repeat match goal with |- context [if ?x then _ else _] => destruct x end;
    congruence.
Qed.

Lemma py_mod_raises str_mod a b e :
  py_mod str_mod a b = Raise e ->
  e = TypeError \/ e = ZeroDivisionError \/ exists s v, str_mod s v = Raise e.
Proof.
  unfold py_mod. destruct a; try (intros H; right; right; eauto; fail);
    destruct (as_int _); try (left; congruence);
    destruct (as_int b); try (left; congruence);
    destruct (_ =? _)%Z; intros H; inversion H; auto.
Qed.

Section Failures.
Context (str_mod : string -> value -> result value)
        (global_scope : gmap string callable)
        (filename : string) (expose_vars : bool).

Local Abbreviation conv := (_convert str_mod global_scope filename expose_vars).
Local Abbreviation known :=
  (fun e => own_failure filename e \/ foreign_failure str_mod global_scope e).

Lemma known_own msg ln : known (ValueError msg filename ln).
Proof. left. exists msg, ln. reflexivity. Qed.

Lemma known_TypeError : known TypeError.
Proof. right. left. reflexivity. Qed.

Lemma raising_convert_items (c : expr -> option loc -> M value) l pairs result :
  (forall n vd, raising known (c n vd)) ->
  raising known (convert_items expose_vars c l pairs result).
Proof.
  intros Hc. revert result.
  induction pairs as [|[k v] rest IH]; intros result; simpl;
    [apply raising_ret|].
  apply raising_bind; [apply Hc | intros c_k].
  apply raising_bind; [apply Hc | intros c_v].
  apply raising_bind; [|intros _].
  { destruct expose_vars;
      [apply raising_setitem, known_TypeError | apply raising_ret]. }
  apply raising_bind; [|intros r; apply IH].
  destruct (hashable c_k);
    [apply raising_ret | apply raising_raise, known_TypeError].
Qed.

(** Every exception of a call is one of the module's own [ValueError]s,
    with the file name of the call, or a failure of the host language or
    of a callable. *)
Lemma raising_convert b : forall n vd, raising known (conv b n vd).
Proof.
  induction b as [|b IH]; intros n vd; [intros h e h' H; discriminate|].
  cbn [_convert].
  apply raising_bind; [destruct vd; [apply raising_read | apply raising_ret]|].
  intros inherited. apply raising_bind; [intros h e h' H; discriminate|].
  intros l.
  repeat first
    [ apply raising_ret
    | apply raising_raise, known_own
    | apply raising_read
    | apply IH
    | apply raising_mapM; intros ?
    | apply raising_convert_items; apply IH
    | apply raising_bind; [| intros ?]
    | match goal with
      | |- raising _ (lift (py_add _ _)) =>
          apply raising_lift; intros e He; apply py_add_raises in He;
          subst e; apply known_TypeError
      | |- raising _ (lift (py_mod _ _ _)) =>
          apply raising_lift; intros e He; apply py_mod_raises in He;
          right; unfold foreign_failure; tauto
      | |- raising _ (match global_scope !! ?id with _ => _ end) =>
          let E := fresh "E" in
          destruct (global_scope !! id) as [f|] eqn:E;
          [ apply raising_lift; intros e He; right; unfold foreign_failure;
            eauto 10
          | apply raising_raise; right; unfold foreign_failure; eauto 10 ]
      | |- raising _ (match ?x with _ => _ end) => destruct x
      | |- raising _ (if ?x then _ else _) => destruct x
      end ].
Qed.

End Failures.


(** ** Further facts used below *)

(** What a name finds after [vars_dict.update(_allowed_names)]: the three
    constants first, the inherited items otherwise. *)
Lemma dict_get_own env id :
  dict_get (dict_update env _allowed_names) (VStr id)
  = if String.eqb "False" id then Some (VBool false)
    else if String.eqb "True" id then Some (VBool true)
    else if String.eqb "None" id then Some VNone
    else dict_get env (VStr id).
Proof.
  unfold dict_update, _allowed_names. cbn [fold_left fst snd].
  rewrite !dict_get_set by reflexivity. reflexivity.
Qed.

Lemma dict_get_own_other env id :
  ~ In id constant_names ->
  dict_get (dict_update env _allowed_names) (VStr id) = dict_get env (VStr id).
Proof.
  intros Hid. rewrite dict_get_own.
  destruct (String.eqb_spec "False" id) as [<-|_];
    [exfalso; apply Hid; simpl; tauto|].
  destruct (String.eqb_spec "True" id) as [<-|_];
    [exfalso; apply Hid; simpl; tauto|].
  destruct (String.eqb_spec "None" id) as [<-|_];
    [exfalso; apply Hid; simpl; tauto|].
  reflexivity.
Qed.

Lemma bindO_Ok_inv {A B} (o : outcome A) (k : A -> outcome B) b :
  bindO o k = Some (Ok b) -> exists a, o = Some (Ok a) /\ k a = Some (Ok b).
Proof. destruct o as [[a|e]|]; simpl; try discriminate. eauto. Qed.

Lemma mapO_Ok_iff {A B} (f : A -> outcome B) l vs :
  mapO f l = Some (Ok vs) <-> Forall2 (fun x y => f x = Some (Ok y)) l vs.
Proof.
  revert vs. induction l as [|x l IH]; intros vs; simpl.
  - split; intros H; inversion H; subst; [constructor | reflexivity].
  - split.
    + intros H. apply bindO_Ok_inv in H as (y & Hy & H).
      apply bindO_Ok_inv in H as (ys & Hys & H). inversion H; subst.
      constructor; [exact Hy | apply IH, Hys].
    + intros H. inversion H as [|? y ? ys Hy Hys]; subst.
      apply IH in Hys. rewrite Hy, Hys. reflexivity.
Qed.

Lemma mapO_first_failure {A B} (f : A -> outcome B) pre x post e :
  Forall (fun y => exists v, f y = Some (Ok v)) pre ->
  f x = Some (Raise e) ->
  mapO f (pre ++ x :: post) = Some (Raise e).
Proof.
  intros Hpre Hx. induction Hpre as [|y pre [v Hy] _ IH]; simpl.
  - rewrite Hx. reflexivity.
  - rewrite Hy, IH. reflexivity.
Qed.

Lemma lookup_middle {A} (pre : list A) x post :
  (pre ++ x :: post) !! length pre = Some x.
Proof. apply list_lookup_middle. reflexivity. Qed.


(** ** Paths of the comparison *)

Lemma getitem_raises a i e :
  getitem a i = Raise e ->
  e = IndexError \/ e = TypeError \/ exists k, e = KeyError k.
Proof.
  unfold getitem. destruct a; try (intros H; inversion H; auto; fail).
  - destruct (String.get i s); intros H; inversion H; auto.
  - destruct (elts !! i); intros H; inversion H; auto.
  - destruct (elts !! i); intros H; inversion H; auto.
  - destruct (dict_get items _); intros H; inversion H; eauto.
Qed.

Lemma key_step_raises str_mod k e :
  key_step str_mod k = Raise e ->
  e = TypeError \/ exists s v, str_mod s v = Raise e.
Proof.
  unfold key_step. destruct k; try discriminate;
    match goal with
    | |- context [str_mod ?s ?v] =>
        destruct (str_mod s v) as [[]|e'] eqn:E; intros H; inversion H; subst;
        eauto
    end.
Qed.

Section ComparePaths.
Context (str_mod : string -> value -> result value) (expected_scope : value).

Local Abbreviation cmp := (compare str_mod expected_scope).

(** A failure inside an item of a dict is the failure of the dict, when
    the items before it compare well. *)
Lemma compare_item_failure pre k v post aitems a s path actual_scope e :
  same_keys (pre ++ (k, v) :: post) aitems = true ->
  Forall (fun kv => exists a' s',
            dict_get aitems (fst kv) = Some a'
            /\ key_step str_mod (fst kv) = Ok s'
            /\ cmp (snd kv) a' (path ++ s')%string actual_scope = Ok tt) pre ->
  dict_get aitems k = Some a ->
  key_step str_mod k = Ok s ->
  cmp v a (path ++ s)%string actual_scope = Raise e ->
  cmp (VDict (pre ++ (k, v) :: post)) (VDict aitems) path actual_scope
  = Raise e.
Proof.
  intros Hkeys Hpre Hget Hstep Hv. cbn [compare]. rewrite Hkeys.
  clear Hkeys.
  induction Hpre as [|[k' v'] pre (a' & s' & Ha' & Hs' & Hc') _ IH].
  - cbn [app]. rewrite Hget, Hstep, Hv. reflexivity.
  - cbn [app fst snd] in *. rewrite Ha', Hs', Hc'. exact IH.
Qed.

(** A failure inside an element of a list is the failure of the list,
    when the elements before it compare well. *)
Lemma compare_element_failure pre x post actual a path actual_scope e :
  py_len actual = Some (length (pre ++ x :: post)) ->
  (forall i y, pre !! i = Some y ->
     exists a', getitem actual i = Ok a'
       /\ cmp y a' (path ++ index_step i)%string actual_scope = Ok tt) ->
  getitem actual (length pre) = Ok a ->
  cmp x a (path ++ index_step (length pre))%string actual_scope = Raise e ->
  cmp (VList (pre ++ x :: post)) actual path actual_scope = Raise e.
Proof.
  intros Hlen Hpre Hget Hx. cbn [compare]. rewrite Hlen, Nat.eqb_refl.
  match goal with
  | |- ?f (pre ++ x :: post) 0 = _ =>
      assert (Hloop : forall todo done,
                 pre = done ++ todo ->
                 f (todo ++ x :: post) (length done) = Raise e)
  end.
  { induction todo as [|y todo IHt]; intros done Hd.
    - rewrite app_nil_r in Hd. subst done. cbn [app].
      rewrite Hget, Hx. reflexivity.
    - destruct (Hpre (length done) y) as (a' & Ha' & Hc').
      { rewrite Hd. apply lookup_middle. }
      cbn [app]. rewrite Ha', Hc'.
      specialize (IHt (done ++ [y])). rewrite length_app in IHt.
      simpl in IHt. rewrite Nat.add_1_r in IHt. apply IHt.
      rewrite <- app_assoc. exact Hd. }
  apply (Hloop pre []). reflexivity.
Qed.

(** Every [CheckFailure] of the comparison reports one of the three
    mismatches, at the sub-values and with the path the comparison has
    come to. *)
Lemma compare_failure_reaches :
  (forall s v q ex ac, str_mod s v <> Raise (CheckFailure q ex ac)) ->
  forall e a p actual_scope q ex ac,
    cmp e a p actual_scope = Raise (CheckFailure q ex ac) ->
    exists e' a' p',
      reaches str_mod e a p e' a' p'
      /\ found_mismatch expected_scope actual_scope e' a' p'
           (CheckFailure q ex ac).
Proof.
  intros Hsm e.
  induction e as [ |b|n|s|l IH|l IH|d IH] using value_nested_ind;
    intros a p actual_scope q ex ac H;
    try (cbn [compare] in H;
         match type of H with
         | (if py_eq ?x a then _ else _) = _ =>
             destruct (py_eq x a) eqn:E; [discriminate|];
             exists x, a, p; split; [constructor|];
             split; [exact E|]; unfold fail in H; inversion H; reflexivity
         end).
  - cbn [compare] in H. destruct (py_len a) as [n|] eqn:L; [|discriminate].
    destruct (Nat.eqb_spec (length l) n) as [E|E].
    + match type of H with
      | ?f l 0 = _ =>
          assert (Hloop : forall rest pre,
                     l = pre ++ rest ->
                     f rest (length pre) = Raise (CheckFailure q ex ac) ->
                     exists e' a' p',
                       reaches str_mod (VList l) a p e' a' p'
                       /\ found_mismatch expected_scope actual_scope e' a' p'
                            (CheckFailure q ex ac))
      end.
      { induction rest as [|x rest IHr]; intros pre Hl Hf; [discriminate|].
        cbn [app] in Hf.
        destruct (getitem a (length pre)) as [y|e0] eqn:G.
        2:{ inversion Hf; subst.
            apply getitem_raises in G as [G|[G|[k G]]]; discriminate. }
        destruct (cmp x y (p ++ index_step (length pre))%string actual_scope)
          as [u|e1] eqn:C.
        - apply (IHr (pre ++ [x])); [rewrite <- app_assoc; exact Hl|].
          rewrite length_app. simpl. rewrite Nat.add_1_r. exact Hf.
        - inversion Hf; subst e1.
          assert (Hx : x ∈ l)
            by (apply list_elem_of_In; rewrite Hl; apply in_or_app;
                simpl; auto).
          rewrite Forall_forall in IH.
          destruct (IH x Hx _ _ _ _ _ _ C) as (e' & a' & p' & Hr & Hm).
          exists e', a', p'. split; [|exact Hm].
          eapply reaches_element; [|exact G|exact Hr].
          rewrite Hl. apply lookup_middle. }
      apply (Hloop l []); [reflexivity | exact H].
    + unfold fail in H.
      exists (VList l), a, p. split; [constructor|].
      exists n. split; [exact L|]. split; [auto|].
      inversion H; reflexivity.
  - cbn [compare] in H. destruct a as [ | | | | | |aitems]; try discriminate.
    destruct (same_keys d aitems) eqn:K.
    + match type of H with
      | ?f d = _ =>
          assert (Hloop : forall rest,
                     (forall kv, In kv rest -> In kv d) ->
                     f rest = Raise (CheckFailure q ex ac) ->
                     exists e' a' p',
                       reaches str_mod (VDict d) (VDict aitems) p e' a' p'
                       /\ found_mismatch expected_scope actual_scope e' a' p'
                            (CheckFailure q ex ac))
      end.
      { induction rest as [|[k v] rest IHr]; intros Hsub Hf; [discriminate|].
        cbn [app] in Hf.
        destruct (dict_get aitems k) as [x|] eqn:G; [|discriminate].
        destruct (key_step str_mod k) as [s|e0] eqn:KS.
        2:{ inversion Hf; subst.
            apply key_step_raises in KS as [KS|(s & v' & KS)];
              [discriminate | destruct (Hsm _ _ _ _ _ KS)]. }
        destruct (cmp v x (p ++ s)%string actual_scope) as [u|e1] eqn:C.
        - apply IHr; [|exact Hf]. intros kv Hin. apply Hsub. simpl. auto.
        - inversion Hf; subst e1.
          rewrite Forall_forall in IH.
          destruct (IH (k, v)) as [_ IHv];
            [apply list_elem_of_In, Hsub; simpl; auto|].
          destruct (IHv _ _ _ _ _ _ C) as (e' & a' & p' & Hr & Hm).
          exists e', a', p'. split; [|exact Hm].
          eapply reaches_item; [|exact G|exact KS|exact Hr].
          apply Hsub. simpl. auto. }
      apply (Hloop d); [auto | exact H].
    + unfold fail in H.
      exists (VDict d), (VDict aitems), p. split; [constructor|].
      exists aitems. split; [reflexivity|]. split; [exact K|].
      inversion H; reflexivity.
Qed.

End ComparePaths.
(** * The claims *)

(** C1.  The single assignment [vars = {"a": "x", "b": a + "y"}] binds
    [vars] to the dict [{"a": "x", "b": "xy"}]; with any other target the
    same right-hand side fails with the missing-name error for [a].  The
    value of an assignment is evaluated with [expose_vars] being the test
    whether the target is [vars]. *)
Theorem C1_vars_self_reference :
  forall str_mod global_scope filename ln ln' target,
    _gclient_exec str_mod global_scope filename
      (ModNode (Module [Assign ln [Name ln' target] self_reference]))
    = (if String.eqb target "vars"
       then Some (Ok [(VStr target,
                       VDict [(VStr "a", VStr "x"); (VStr "b", VStr "xy")])])
       else Some (Raise (ValueError (InvalidName "a" _allowed_names)
                           filename (Some 1))))
    /\ forall value,
         _visit_in_module str_mod global_scope filename []
           (Assign ln [Name ln' target] value)
         = bindO (_gclient_eval str_mod global_scope filename
                    (String.eqb target "vars") (ExprNode value))
             (fun v => Some (Ok [(VStr target, v)])).
Proof.
  intros str_mod global_scope filename ln ln' target. split.
  - unfold _gclient_exec, visit_body, _visit_in_module.
    destruct (String.eqb target "vars"); reflexivity.
  - intros value. unfold _visit_in_module.
    destruct (_gclient_eval _ _ _ _ _) as [[v|e]|]; reflexivity.
Qed.

(** C2.  What a dict literal exposes stays inside it.  A call of
    [_convert] leaves every dict object that existed before it as it was,
    so the [vars_dict] of the caller is not changed; every element of a
    list or tuple is evaluated under the items [vars_dict] had before the
    first element, whatever dict literals precede it; and the value of a
    top-level statement is evaluated under no inherited items, whatever
    the scope built so far.  So [[{"a": "x"}, a]] and [other = a] after
    [vars = {"a": "x"}] fail with the missing-name error for [a], also
    with exposure; and in [{"a": {"b": "x"}, "c": b}] the name [b] of the
    inner literal is missing for the second pair of the outer one, which
    sees [a] only. *)
Theorem C2_exposure_stays_in_dict_literal :
  forall str_mod global_scope filename expose_vars,
    (forall budget n vars_dict h,
        match _convert str_mod global_scope filename expose_vars
                budget n vars_dict h with
        | Some (_, h') => unchanged h h'
        | None => True
        end)
    /\ (forall env ln elts,
          convert_in str_mod global_scope filename expose_vars env
            (List ln elts)
          = bindO (mapO (convert_in str_mod global_scope filename expose_vars
                           (dict_update env _allowed_names)) elts)
              (fun vs => Some (Ok (VList vs))))
    /\ (forall env ln elts,
          convert_in str_mod global_scope filename expose_vars env
            (Tuple ln elts)
          = bindO (mapO (convert_in str_mod global_scope filename expose_vars
                           (dict_update env _allowed_names)) elts)
              (fun vs => Some (Ok (VTuple vs))))
    /\ (forall scope ln ln' id value,
          _visit_in_module str_mod global_scope filename scope
            (Assign ln [Name ln' id] value)
          = bindO (convert_in str_mod global_scope filename
                     (String.eqb id "vars") [] value)
              (fun v =>
                 if dict_contains scope (VStr id)
                 then Some (Raise (ValueError (AssignOverrides id) filename ln))
                 else Some (Ok (dict_set scope (VStr id) v))))
    /\ _gclient_eval str_mod global_scope filename true
         (ExprNode dict_then_name)
       = Some (Raise (ValueError (InvalidName "a" _allowed_names)
                        filename (Some 1)))
    /\ _gclient_exec str_mod global_scope filename vars_then_other
       = Some (Raise (ValueError (InvalidName "a" _allowed_names)
                        filename (Some 2)))
    /\ _gclient_eval str_mod global_scope filename true
         (ExprNode inner_dict_then_name)
       = Some (Raise (ValueError
                        (InvalidName "b"
                           (_allowed_names
                            ++ [(VStr "a", VDict [(VStr "b", VStr "x")])]))
                        filename (Some 1))).
Proof.
  intros str_mod global_scope filename expose_vars.
  split; [|split; [|split; [|split; [|split; [|split]]]]].
  - intros budget n vars_dict h.
    destruct (_convert _ _ _ _ budget n vars_dict h) as [[r h']|] eqn:E;
      [|exact I].
    eapply framed_convert; eauto.
  - apply eval_in_List.
  - apply eval_in_Tuple.
  - intros scope ln ln' id value. unfold _visit_in_module.
    rewrite gclient_eval_convert_in.
    destruct (convert_in _ _ _ _ _ _) as [[v|e]|]; reflexivity.
  - reflexivity.
  - reflexivity.
  - reflexivity.
Qed.

(** C3, as stated, fails: in [x = "1"] followed by [x = zz] the
    identifier [x] is assigned a second time, yet the run ends with the
    invalid-name error for [zz] and not with the duplicate-assignment
    error, because the value of an assignment is evaluated before the
    scope is looked at. *)
Lemma C3_counterexample :
  _gclient_exec no_formatting ∅ "DEPS" x_then_invalid
  = Some (Raise (ValueError (InvalidName "zz" _allowed_names) "DEPS"
                   (Some 2)))
  /\ _gclient_exec no_formatting ∅ "DEPS" x_then_invalid
     <> Some (Raise (ValueError (AssignOverrides "x") "DEPS" (Some 2))).
Proof. split; [reflexivity | discriminate]. Qed.

(** C3, amended.  A second assignment to a top-level identifier never
    gets its value into a scope.  When the statements before it were
    executed and one of them assigned the identifier, the run fails: with
    the duplicate-assignment error that names the identifier, the file and
    the line of the second assignment when the value of that assignment
    evaluates, and with the failure of that evaluation otherwise, since
    the value is evaluated before the scope is looked at.  A scope that is
    returned holds each assigned identifier once, so no module that
    assigns an identifier twice returns a scope.  [x = "1"] followed by
    [x = "2"] fails with the duplicate-assignment error at line 2, and
    [x = "1"] followed by [x = zz] with the invalid-name error for
    [zz]. *)
Theorem C3_duplicate_assignment_rejected :
  forall str_mod global_scope filename,
    (forall pre ln ln' id value post scope,
        visit_body str_mod global_scope filename pre [] = Some (Ok scope) ->
        In id (target_ids pre) ->
        _gclient_exec str_mod global_scope filename
          (ModNode (Module (pre ++ Assign ln [Name ln' id] value :: post)))
        = match _gclient_eval str_mod global_scope filename
                  (String.eqb id "vars") (ExprNode value) with
          | Some (Ok _) =>
              Some (Raise (ValueError (AssignOverrides id) filename ln))
          | Some (Raise e) => Some (Raise e)
          | None => None
          end)
    /\ (forall body scope,
          _gclient_exec str_mod global_scope filename (ModNode (Module body))
          = Some (Ok scope) ->
          NoDup (target_ids body)
          /\ dict_keys scope = map VStr (target_ids body))
    /\ (forall pre ln ln' id value post scope,
          In id (target_ids pre) ->
          _gclient_exec str_mod global_scope filename
            (ModNode (Module (pre ++ Assign ln [Name ln' id] value :: post)))
          <> Some (Ok scope))
    /\ _gclient_exec str_mod global_scope filename x_assigned_twice
       = Some (Raise (ValueError (AssignOverrides "x") filename (Some 2)))
    /\ _gclient_exec str_mod global_scope filename x_then_invalid
       = Some (Raise (ValueError (InvalidName "zz" _allowed_names) filename
                        (Some 2))).
Proof.
  intros str_mod global_scope filename.
  assert (Hscope : forall body scope,
             _gclient_exec str_mod global_scope filename
               (ModNode (Module body)) = Some (Ok scope) ->
             NoDup (target_ids body)
             /\ dict_keys scope = map VStr (target_ids body)).
  { intros body scope H. unfold _gclient_exec in H.
    apply visit_body_ok in H as (_ & Hkeys & Hnd). simpl in Hkeys.
    split; [|exact Hkeys].
    specialize (Hnd NoDup_nil_2). rewrite Hkeys in Hnd.
    change (map VStr (target_ids body)) with (VStr <$> target_ids body) in Hnd.
    eapply NoDup_fmap_1. exact Hnd. }
  split; [|split; [|split; [|split]]].
  - intros pre ln ln' id value post scope Hpre Hin.
    unfold _gclient_exec. rewrite visit_body_app, Hpre. simpl.
    destruct (_gclient_eval _ _ _ _ _) as [[v|e]|]; try reflexivity.
    apply visit_body_ok in Hpre as (_ & Hkeys & _). simpl in Hkeys.
    rewrite dict_get_in; [reflexivity | reflexivity |].
    rewrite Hkeys. apply in_map. exact Hin.
  - exact Hscope.
  - intros pre ln ln' id value post scope Hin H.
    apply Hscope in H as [Hnd _].
    unfold target_ids in Hnd, Hin. rewrite omap_app in Hnd. simpl in Hnd.
    apply NoDup_app in Hnd as (_ & Hdisj & _).
    apply (Hdisj id); [apply list_elem_of_In, Hin | left].
  - reflexivity.
  - reflexivity.
Qed.

Lemma C3_duplicate_assignment_witness :
  _gclient_exec no_formatting ∅ "DEPS" x_assigned_twice
  = Some (Raise (ValueError (AssignOverrides "x") "DEPS" (Some 2))).
Proof.
  apply (proj1 (C3_duplicate_assignment_rejected no_formatting ∅ "DEPS")
           [Assign (Some 1) [Name (Some 1) "x"] (Str (Some 1) "1")]
           (Some 2) (Some 2) "x" (Str (Some 2) "2") []
           [(VStr "x", VStr "1")]).
  - reflexivity.
  - simpl. left. reflexivity.
Defined.

(** C4.  [or] and [and] take exactly two operands: with three or more (as
    in [a or b or c]) the evaluation fails with the error for the
    operator, file and line.  With two operands, [or] evaluates the left
    one and yields it when it is true, and otherwise evaluates and yields
    the right one; [and] yields the left one when it is false, and
    otherwise the right one.  So ['' or "y"] is ["y"], and ["x" or e] is
    ["x"] whatever [e] is, since [e] is not evaluated. *)
Theorem C4_boolean_operators :
  forall str_mod global_scope filename expose_vars,
    let eval_in := convert_in str_mod global_scope filename expose_vars in
    (forall env ln op x y z rest,
        eval_in env (BoolOp ln op (x :: y :: z :: rest))
        = Some (Raise (ValueError
                         match op with Or => OrOperands | And => AndOperands end
                         filename ln)))
    /\ (forall env ln x y,
          eval_in env (BoolOp ln Or [x; y])
          = bindO (eval_in (dict_update env _allowed_names) x) (fun a =>
              if truthy a then Some (Ok a)
              else eval_in (dict_update env _allowed_names) y))
    /\ (forall env ln x y,
          eval_in env (BoolOp ln And [x; y])
          = bindO (eval_in (dict_update env _allowed_names) x) (fun a =>
              if truthy a then eval_in (dict_update env _allowed_names) y
              else Some (Ok a)))
    /\ _gclient_eval str_mod global_scope filename expose_vars
         (ExprNode (BoolOp (Some 1) Or
                      [Str (Some 1) EmptyString; Str (Some 1) "y"]))
       = Some (Ok (VStr "y"))
    /\ (forall e,
          _gclient_eval str_mod global_scope filename expose_vars
            (ExprNode (BoolOp (Some 1) Or [Str (Some 1) "x"; e]))
          = Some (Ok (VStr "x")))
    /\ (forall a b c,
          _gclient_eval str_mod global_scope filename expose_vars
            (ExprNode (BoolOp (Some 1) Or [a; b; c]))
          = Some (Raise (ValueError OrOperands filename (Some 1)))).
Proof.
  intros str_mod global_scope filename expose_vars eval_in. subst eval_in.
  split; [|split; [|split; [|split; [|split]]]].
  - intros env ln op x y z rest. apply eval_in_BoolOp_arity. simpl. lia.
  - apply eval_in_Or.
  - apply eval_in_And.
  - rewrite gclient_eval_convert_in, eval_in_Or. reflexivity.
  - intros e. rewrite gclient_eval_convert_in, eval_in_Or. reflexivity.
  - intros a b c. rewrite gclient_eval_convert_in.
    apply eval_in_BoolOp_arity. simpl. lia.
Qed.

(** C5, as stated, fails: with an empty function table the call [g()]
    ends with a [KeyError], which is no [ValueError] and names neither
    file nor line. *)
Lemma C5_counterexample :
  ~ (forall e,
        _gclient_eval no_formatting ∅ "DEPS" false (ExprNode call_g)
        = Some (Raise e) ->
        exists msg ln, e = ValueError msg "DEPS" ln).
Proof.
  intros H. destruct (H (KeyError (VStr "g")) eq_refl) as (msg & ln & E).
  discriminate.
Qed.

(** C5, amended.  A call whose callee is no bare name, or that has keyword
    or variadic arguments, fails with the module's [ValueError] for it,
    which names file and line.  Otherwise the positional arguments are
    evaluated in order and the entry of the function table is applied to
    their values, so [f("a", "b")] yields what [f] yields for ["a"] and
    ["b"].  When the table has no entry for the name, the call never has a
    value: it fails with the failure of the first argument that fails,
    since the arguments are evaluated before the table is looked up, and
    with a [KeyError] that names the callee only when all arguments
    evaluate; so [g()] fails with that [KeyError] and [g(zz)] with the
    invalid-name error for [zz].  Every failure of an evaluation is one of
    the module's [ValueError]s, with file name and line, or a failure of
    the host language (a missing table entry, operands of the wrong type,
    division by zero, formatting) or of a callable, passed on as it
    is. *)
Theorem C5_call_expressions :
  forall str_mod global_scope filename expose_vars,
    let eval_in := convert_in str_mod global_scope filename expose_vars in
    (forall env ln func args keywords starargs kwargs,
        eval_in env (Call ln func args keywords starargs kwargs)
        = match func with
          | Name _ id =>
              match keywords, starargs, kwargs with
              | [], None, None =>
                  bindO (mapO (eval_in (dict_update env _allowed_names)) args)
                    (fun vs =>
                       match global_scope !! id with
                       | Some f => Some (f vs)
                       | None => Some (Raise (KeyError (VStr id)))
                       end)
              | _, _, _ =>
                  Some (Raise (ValueError CallRegularArgs filename ln))
              end
          | _ => Some (Raise (ValueError CallFuncNotName filename ln))
          end)
    /\ (forall f,
          _gclient_eval str_mod (<["f" := f]> global_scope) filename
            expose_vars (ExprNode call_f_a_b)
          = Some (f [VStr "a"; VStr "b"]))
    /\ (forall env ln ln' id args v,
          global_scope !! id = None ->
          eval_in env (Call ln (Name ln' id) args [] None None)
          <> Some (Ok v))
    /\ (forall env ln ln' id args,
          global_scope !! id = None ->
          let own := dict_update env _allowed_names in
          (forall vs,
              Forall2 (fun x y => eval_in own x = Some (Ok y)) args vs ->
              eval_in env (Call ln (Name ln' id) args [] None None)
              = Some (Raise (KeyError (VStr id))))
          /\ (forall pre x post e,
                args = pre ++ x :: post ->
                Forall (fun y => exists v, eval_in own y = Some (Ok v)) pre ->
                eval_in own x = Some (Raise e) ->
                eval_in env (Call ln (Name ln' id) args [] None None)
                = Some (Raise e)))
    /\ (global_scope !! "g" = None ->
        _gclient_eval str_mod global_scope filename expose_vars
          (ExprNode call_g)
        = Some (Raise (KeyError (VStr "g")))
        /\ _gclient_eval str_mod global_scope filename expose_vars
             (ExprNode call_g_zz)
           = Some (Raise (ValueError (InvalidName "zz" _allowed_names)
                            filename (Some 1))))
    /\ (forall n e,
          _gclient_eval str_mod global_scope filename expose_vars n
          = Some (Raise e) ->
          own_failure filename e \/ foreign_failure str_mod global_scope e).
Proof.
  intros str_mod global_scope filename expose_vars eval_in. subst eval_in.
  split; [|split; [|split; [|split; [|split]]]].
  - intros env ln func args keywords starargs kwargs.
    destruct func;
      try (apply eval_in_Call_not_name; intros; discriminate).
    destruct keywords as [|kw keywords];
      [destruct starargs as [sa|]; [|destruct kwargs as [kwa|]]|].
    + apply eval_in_Call_irregular. right. left. discriminate.
    + apply eval_in_Call_irregular. right. right. discriminate.
    + apply eval_in_Call.
    + apply eval_in_Call_irregular. left. discriminate.
  - intros f. rewrite gclient_eval_convert_in. unfold call_f_a_b.
    rewrite eval_in_Call. cbn [mapO]. rewrite !eval_in_Str. cbn [bindO].
    rewrite lookup_insert_eq. reflexivity.
  - intros env ln ln' id args v Hid. rewrite eval_in_Call, Hid.
    destruct (mapO _ args) as [[vs|e]|]; discriminate.
  - intros env ln ln' id args Hid own. subst own. split.
    + intros vs Hvs. rewrite eval_in_Call, Hid.
      apply mapO_Ok_iff in Hvs. rewrite Hvs. reflexivity.
    + intros pre x post e -> Hpre Hx. rewrite eval_in_Call.
      rewrite (mapO_first_failure _ pre x post e Hpre Hx). reflexivity.
  - intros Hg. split.
    + rewrite gclient_eval_convert_in. unfold call_g.
      rewrite eval_in_Call, Hg. reflexivity.
    + rewrite gclient_eval_convert_in. unfold call_g_zz.
      rewrite eval_in_Call. cbn [mapO]. rewrite eval_in_Name. reflexivity.
  - intros n e H. unfold _gclient_eval in H.
    assert (Hexpr : forall x,
               run (_convert str_mod global_scope filename expose_vars
                      (expr_size x) x None) = Some (Raise e) ->
               own_failure filename e \/ foreign_failure str_mod global_scope e).
    { intros x Hx. unfold run in Hx.
      destruct (_convert _ _ _ _ _ _ _ _) as [[r h']|] eqn:E; [|discriminate].
      simpl in Hx. inversion Hx; subst.
      eapply (raising_convert str_mod global_scope filename expose_vars).
      exact E. }
    destruct n as [[body|body|body|body]|st|x];
      try (exact (Hexpr _ H));
      inversion H; subst; left; eexists _, _; reflexivity.
Qed.

Lemma C5_call_expressions_witness :
  own_failure "DEPS" (KeyError (VStr "g"))
  \/ foreign_failure no_formatting ∅ (KeyError (VStr "g")).
Proof.
  apply (proj2 (proj2 (proj2 (proj2 (proj2
           (C5_call_expressions no_formatting ∅ "DEPS" false)))))
           (ExprNode call_g)).
  reflexivity.
Defined.

(** C8.  The executor accepts only a module whose statements are all
    assignments to one bare name.  The module without statements yields
    the empty scope.  When a scope is returned, the tree was a module and
    each of its statements an assignment with exactly one target, a name.
    Any other statement fails with a [ValueError] for the file and the line
    of the statement, and any tree that is no module fails with the
    unexpected-node error. *)
Theorem C8_only_flat_assignments :
  forall str_mod global_scope filename,
    _gclient_exec str_mod global_scope filename (ModNode (Module []))
    = Some (Ok [])
    /\ (forall n scope,
          _gclient_exec str_mod global_scope filename n = Some (Ok scope) ->
          exists body,
            n = ModNode (Module body)
            /\ Forall (fun s => exists ln ln' id value,
                                  s = Assign ln [Name ln' id] value) body)
    /\ (forall scope s,
          target_id s = None ->
          exists msg,
            _visit_in_module str_mod global_scope filename scope s
            = Some (Raise (ValueError msg filename (stmt_lineno s))))
    /\ (forall n,
          (forall body, n <> ModNode (Module body)) ->
          let n' := match n with
                    | ModNode (Expression body) => ExprNode body
                    | _ => n
                    end in
          _gclient_exec str_mod global_scope filename n
          = Some (Raise (ValueError (UnexpectedNode n') filename
                           (node_lineno n')))).
Proof.
  intros str_mod global_scope filename. split; [|split; [|split]].
  - reflexivity.
  - intros n scope H.
    destruct n as [[body|body|body|body]|st|x]; try discriminate.
    exists body. split; [reflexivity|].
    unfold _gclient_exec in H. apply visit_body_ok in H. tauto.
  - intros scope s Hs.
    destruct s as [ln targets value|ln kind]; [|eexists; reflexivity].
    destruct targets as [|target [|t2 rest]]; try (eexists; reflexivity).
    destruct target; try discriminate; eexists; reflexivity.
  - intros n Hn.
    destruct n as [[body|body|body|body]|st|x]; try reflexivity.
    exfalso. eapply Hn. reflexivity.
Qed.

Lemma C8_only_flat_assignments_witness :
  exists body,
    x_assigned_once = ModNode (Module body)
    /\ Forall (fun s => exists ln ln' id value,
                          s = Assign ln [Name ln' id] value) body.
Proof.
  apply (proj1 (proj2 (C8_only_flat_assignments no_formatting ∅ "DEPS"))
           x_assigned_once [(VStr "x", VStr "1")]).
  reflexivity.
Defined.

(** C9.  Evaluation and execution end for every tree.  A call of
    [_convert] ends, with a value or an exception, for every budget of at
    least the number of nodes of the tree, and with the same result and
    store for all of them; so [_gclient_eval] and [_gclient_exec] have an
    outcome for every tree. *)
Theorem C9_evaluation_terminates :
  forall str_mod global_scope filename,
    (forall expose_vars n vars_dict h,
        exists r h', forall extra,
          _convert str_mod global_scope filename expose_vars
            (expr_size n + extra) n vars_dict h = Some (r, h'))
    /\ (forall expose_vars n,
          exists r,
            _gclient_eval str_mod global_scope filename expose_vars n
            = Some r)
    /\ (forall n,
          exists r, _gclient_exec str_mod global_scope filename n = Some r).
Proof.
  intros str_mod global_scope filename.
  assert (Heval : forall expose_vars n,
             exists r,
               _gclient_eval str_mod global_scope filename expose_vars n
               = Some r).
  { intros expose_vars n. unfold _gclient_eval, run.
    destruct n as [[body|body|body|body]|st|x]; try (eexists; reflexivity).
    - destruct (convert_total str_mod global_scope filename expose_vars
                  (expr_size body) body None (Nat.le_refl _) [])
        as [[r h'] ->].
      eexists; reflexivity.
    - destruct (convert_total str_mod global_scope filename expose_vars
                  (expr_size x) x None (Nat.le_refl _) [])
        as [[r h'] ->].
      eexists; reflexivity. }
  split; [|split; [exact Heval|]].
  - intros expose_vars n vars_dict h.
    destruct (convert_total str_mod global_scope filename expose_vars
                (expr_size n) n vars_dict (Nat.le_refl _) h) as [[r h'] E].
    exists r, h'. intros extra.
    eapply convert_budget_mono; [|exact E]. lia.
  - assert (Hvisit : forall s scope,
               exists r,
                 _visit_in_module str_mod global_scope filename scope s
                 = Some r).
    { intros s scope. unfold _visit_in_module.
      destruct s as [ln targets value|ln kind]; [|eexists; reflexivity].
      destruct targets as [|target [|t2 rest]]; try (eexists; reflexivity).
      destruct target; try (eexists; reflexivity).
      destruct (Heval (String.eqb id "vars") (ExprNode value)) as [r ->].
      destruct r; [destruct (dict_contains _ _)|]; eexists; reflexivity. }
    assert (Hbody : forall body scope,
               exists r,
                 visit_body str_mod global_scope filename body scope = Some r).
    { induction body as [|s body IH]; intros scope; simpl;
        [eexists; reflexivity|].
      destruct (Hvisit s scope) as [[scope'|e] ->];
        [apply IH | eexists; reflexivity]. }
    intros n. unfold _gclient_exec.
    destruct n as [[body|body|body|body]|st|x]; try (eexists; reflexivity).
    apply Hbody.
Qed.

Lemma dict_update_other t : forall d key,
  hashable key = true ->
  Forall (fun kv => hashable (fst kv) = true /\ py_eq (fst kv) key = false) t ->
  dict_get (dict_update d t) key = dict_get d key.
Proof.
  unfold dict_update.
  induction t as [|[k v] t IH]; intros d key Hkey Ht; simpl; [reflexivity|].
  inversion Ht as [|? ? [Hk Hne] Ht']; subst. simpl in Hk, Hne.
  rewrite IH by auto. rewrite dict_get_set by auto. rewrite Hne. reflexivity.
Qed.

(** The loop of the [ast.Dict] branch ends with a dict exactly when it
    runs as [stored] describes; the dict then has the evaluated pairs
    stored in order. *)
Lemma items_in_stored (eval : dict -> expr -> outcome value) ev pairs :
  forall env result p,
    items_in eval ev env pairs result = Some (Ok p)
    <-> exists t,
          stored eval ev env pairs t
          /\ p = (if ev then dict_update env t else env, dict_update result t).
Proof.
  induction pairs as [|[k v] pairs IH]; intros env result p; simpl.
  - split.
    + intros H. inversion H; subst. exists [].
      split; [constructor | destruct ev; reflexivity].
    + intros (t & Ht & ->). inversion Ht; subst. destruct ev; reflexivity.
  - split.
    + intros H. apply bindO_Ok_inv in H as (c_k & Hk & H).
      apply bindO_Ok_inv in H as (c_v & Hv & H).
      destruct (hashable c_k) eqn:Hh; [|discriminate].
      apply IH in H as (t & Ht & ->).
      exists ((c_k, c_v) :: t).
      split; [constructor; auto | destruct ev; reflexivity].
    + intros (t & Ht & ->).
      inversion Ht as [|? ? ? ? c_k c_v t' Hk Hv Hh Ht']; subst.
      rewrite Hk. simpl. rewrite Hv. simpl. rewrite Hh.
      apply IH. exists t'. split; [exact Ht' | destruct ev; reflexivity].
Qed.

Lemma stored_hashable (eval : dict -> expr -> outcome value) ev env pairs t :
  stored eval ev env pairs t ->
  Forall (fun kv => hashable (fst kv) = true) t.
Proof. induction 1; constructor; auto. Qed.

(** After [update] with a list of pairs, a key has the value of the last
    pair with an equal key. *)
Lemma dict_update_last t1 k x t2 d :
  Forall (fun kv => hashable (fst kv) = true) (t1 ++ (k, x) :: t2) ->
  Forall (fun kv => py_eq (fst kv) k = false) t2 ->
  dict_get (dict_update d (t1 ++ (k, x) :: t2)) k = Some x.
Proof.
  intros Hh Hne. apply Forall_app in Hh as [_ Hh].
  inversion Hh as [|? ? Hk Ht2]; subst. simpl in Hk.
  unfold dict_update. rewrite fold_left_app. cbn [fold_left fst snd].
  fold (dict_update (dict_set (fold_left
          (fun acc kv => dict_set acc (fst kv) (snd kv)) t1 d) k x) t2).
  rewrite dict_update_other.
  - apply dict_get_set_same, Hk.
  - exact Hk.
  - clear -Ht2 Hne. induction Hne; inversion Ht2; subst; constructor; auto.
Qed.

(** C10, as stated, fails.  With exposure, in
    [{"None": "x", "b": None, "None": "z"}] the pair [b] lies between the
    two occurrences of the key ["None"], but the name [None] it evaluates
    is the constant, not the value ["x"] of the earlier occurrence.  And a
    literal with a repeated key need not evaluate at all:
    [{"a": zz, "a": "x"}] fails with the invalid-name error for [zz]. *)
Lemma C10_counterexample :
  _gclient_eval no_formatting ∅ "DEPS" true (ExprNode none_b_none)
  = Some (Ok (VDict [(VStr "None", VStr "z"); (VStr "b", VNone)]))
  /\ _gclient_eval no_formatting ∅ "DEPS" true (ExprNode none_b_none)
     <> Some (Ok (VDict [(VStr "None", VStr "z"); (VStr "b", VStr "x")]))
  /\ _gclient_eval no_formatting ∅ "DEPS" true (ExprNode a_zz_a_x)
     = Some (Raise (ValueError (InvalidName "zz" _allowed_names) "DEPS"
                      (Some 1))).
Proof. split; [reflexivity | split; [discriminate | reflexivity]]. Qed.

(** C10, amended.  Keys that occur again in a dict literal are not
    rejected.  The literal evaluates exactly when its keys and values
    evaluate in turn and the keys are hashable, whether or not keys are
    equal; the dict it yields has the evaluated pairs stored in order, so
    a key maps to the value of the last pair whose key equals it.  With
    exposure, the pairs that follow a part of the literal are evaluated
    under the items that part has exposed, where a name other than
    [None], [True], [False] has the value the dict of that part holds for
    it, that is the value of the latest occurrence so far, while these
    three names stay the constants.  In [{"a": "x", "b": a, "a": "z", "c": a}] the
    result maps [a] to ["z"], [b] to ["x"] and [c] to ["z"]. *)
Theorem C10_repeated_key_last_wins :
  forall str_mod global_scope filename expose_vars env ln pairs,
    let eval_in := convert_in str_mod global_scope filename expose_vars in
    let own := dict_update env _allowed_names in
    (forall v,
        eval_in env (Dict ln (map fst pairs) (map snd pairs)) = Some (Ok v)
        <-> exists t,
              stored eval_in expose_vars own pairs t
              /\ v = VDict (dict_update [] t))
    /\ (forall t t1 k x t2,
          stored eval_in expose_vars own pairs t ->
          t = t1 ++ (k, x) :: t2 ->
          Forall (fun kv => py_eq (fst kv) k = false) t2 ->
          dict_get (dict_update [] t) k = Some x)
    /\ (forall pre rest env1 d1,
          expose_vars = true ->
          pairs = pre ++ rest ->
          items_in eval_in expose_vars own pre [] = Some (Ok (env1, d1)) ->
          items_in eval_in expose_vars own pairs []
          = items_in eval_in expose_vars env1 rest d1
          /\ (exists t,
                stored eval_in expose_vars own pre t
                /\ d1 = dict_update [] t)
          /\ (forall l id x,
                dict_get d1 (VStr id) = Some x ->
                ~ In id constant_names ->
                eval_in env1 (Name l id) = Some (Ok x))
          /\ (forall l,
                eval_in env1 (Name l "None") = Some (Ok VNone)
                /\ eval_in env1 (Name l "True") = Some (Ok (VBool true))
                /\ eval_in env1 (Name l "False") = Some (Ok (VBool false))))
    /\ _gclient_eval str_mod global_scope filename true (ExprNode a_b_a_c)
       = Some (Ok (VDict [(VStr "a", VStr "z"); (VStr "b", VStr "x");
                          (VStr "c", VStr "z")])).
Proof.
  intros str_mod global_scope filename expose_vars env ln pairs eval_in own.
  subst eval_in own. split; [|split; [|split]].
  - intros v. rewrite eval_in_Dict, combine_fst_snd. split.
    + intros H. apply bindO_Ok_inv in H as ([env' d] & Hp & H).
      apply items_in_stored in Hp as (t & Ht & Hp).
      inversion Hp; subst. inversion H; subst. eauto.
    + intros (t & Ht & ->).
      assert (Hp : items_in
                     (convert_in str_mod global_scope filename expose_vars)
                     expose_vars (dict_update env _allowed_names) pairs []
                   = Some (Ok (if expose_vars
                               then dict_update
                                      (dict_update env _allowed_names) t
                               else dict_update env _allowed_names,
                               dict_update [] t)))
        by (apply items_in_stored; eauto).
      rewrite Hp. reflexivity.
  - intros t t1 k x t2 Ht -> Hne.
    apply dict_update_last; [|exact Hne].
    eapply stored_hashable, Ht.
  - intros pre rest env1 d1 Hev -> Hpre. split; [|split; [|split]].
    + rewrite items_in_app, Hpre. reflexivity.
    + apply items_in_stored in Hpre as (t & Ht & Hp).
      inversion Hp; subst. eauto.
    + intros l id x Hget Hid.
      rewrite eval_in_Name, dict_get_own_other by exact Hid.
      erewrite items_in_exposed; [reflexivity|exact Hev| | |exact Hpre|exact Hget].
      * constructor.
      * intros key y Hy. discriminate.
    + intros l. rewrite !eval_in_Name, !dict_get_own. auto.
  - reflexivity.
Qed.

Lemma C10_repeated_key_witness :
  dict_get
    (dict_update []
       ([(VStr "a", VStr "x"); (VStr "b", VStr "x")] ++
        (VStr "a", VStr "z") :: []))
    (VStr "a")
  = Some (VStr "z").
Proof.
  apply (proj1 (proj2
           (C10_repeated_key_last_wins no_formatting ∅ "DEPS" true []
              (Some 1) (a_x_b_a ++ [a_z])))
           ([(VStr "a", VStr "x"); (VStr "b", VStr "x")] ++
            (VStr "a", VStr "z") :: [])
           [(VStr "a", VStr "x"); (VStr "b", VStr "x")]
           (VStr "a") (VStr "z") []).
  - repeat (constructor; try reflexivity).
  - reflexivity.
  - constructor.
Defined.

(** C6, as stated, fails: for expected [{"deps": {"a": "1"}}] and the
    manifest [deps = {"a": "2"}] the [CheckFailure] has the path
    [["deps"]["a"]], but its [exp] and [act] are the two whole scopes, not
    the values ["1"] and ["2"]. *)
Lemma C6_counterexample :
  Check no_formatting (deps_a "2") "DEPS" ∅ (scope_deps_a (VStr "1"))
  = Some (Raise (CheckFailure path_deps_a
                   (Object (scope_deps_a (VStr "1")))
                   (Object (scope_deps_a (VStr "2")))))
  /\ Check no_formatting (deps_a "2") "DEPS" ∅ (scope_deps_a (VStr "1"))
     <> Some (Raise (CheckFailure path_deps_a
                       (Object (VStr "1")) (Object (VStr "2")))).
Proof. split; [reflexivity | discriminate]. Qed.

(** C6, amended.  A mismatch found by the comparison is reported with the
    accumulated path.  For values compared by equality, and for a list
    whose length differs (where the path is wrapped in [len(...)]), the
    failure carries the whole expected scope and the whole actual scope;
    for dicts with different key sets it carries the two key sets.  The
    path grows by the quoted key for an item of a dict and by the index
    for an element of a list, at every position: the failure found in an
    item or element, under the path so extended, is the failure of the
    dict or list when the items or elements before it compare well.
    Conversely every [CheckFailure] of the comparison is one of the three
    mismatches, for sub-values of the two values that are reached through
    the same keys and indices, with the path extended by these.  Expected
    [["a", "b"]] against [["a", "c"]] fails with the path extended by
    [[1]]; expected [{"deps": {"a": "1"}}] against [deps = {"a": "2"}]
    fails with path [["deps"]["a"]] and the two whole scopes; against
    [deps = {"a": "1"}] the check passes. *)
Theorem C6_check_failure_contents :
  forall str_mod expected_scope,
    let compare := compare str_mod expected_scope in
    (forall expected actual path actual_scope,
        compared_by_equality expected = true ->
        py_eq expected actual = false ->
        compare expected actual path actual_scope
        = Raise (CheckFailure path (Object expected_scope)
                   (Object actual_scope)))
    /\ (forall elts actual n path actual_scope,
          py_len actual = Some n -> n <> length elts ->
          compare (VList elts) actual path actual_scope
          = Raise (CheckFailure ("len(" ++ path ++ ")")%string
                     (Object expected_scope) (Object actual_scope)))
    /\ (forall items aitems path actual_scope,
          same_keys items aitems = false ->
          compare (VDict items) (VDict aitems) path actual_scope
          = Raise (CheckFailure path (KeySet (dict_keys items))
                     (KeySet (dict_keys aitems))))
    /\ (forall k v a path actual_scope e,
          compare v a (path ++ "[" ++ dq ++ k ++ dq ++ "]")%string actual_scope
          = Raise e ->
          compare (VDict [(VStr k, v)]) (VDict [(VStr k, a)]) path actual_scope
          = Raise e)
    /\ (forall x a path actual_scope e,
          compare x a (path ++ "[0]")%string actual_scope = Raise e ->
          compare (VList [x]) (VList [a]) path actual_scope = Raise e)
    /\ (forall pre k v post aitems a s path actual_scope e,
          same_keys (pre ++ (k, v) :: post) aitems = true ->
          Forall (fun kv => exists a' s',
                    dict_get aitems (fst kv) = Some a'
                    /\ key_step str_mod (fst kv) = Ok s'
                    /\ compare (snd kv) a' (path ++ s')%string actual_scope
                       = Ok tt) pre ->
          dict_get aitems k = Some a ->
          key_step str_mod k = Ok s ->
          compare v a (path ++ s)%string actual_scope = Raise e ->
          compare (VDict (pre ++ (k, v) :: post)) (VDict aitems) path
            actual_scope
          = Raise e)
    /\ (forall k,
          key_step str_mod (VStr k) = Ok ("[" ++ dq ++ k ++ dq ++ "]")%string)
    /\ (forall pre x post actual a path actual_scope e,
          py_len actual = Some (length (pre ++ x :: post)) ->
          (forall i y, pre !! i = Some y ->
             exists a', getitem actual i = Ok a'
               /\ compare y a' (path ++ index_step i)%string actual_scope
                  = Ok tt) ->
          getitem actual (length pre) = Ok a ->
          compare x a (path ++ index_step (length pre))%string actual_scope
          = Raise e ->
          compare (VList (pre ++ x :: post)) actual path actual_scope
          = Raise e)
    /\ ((forall s v q ex ac, str_mod s v <> Raise (CheckFailure q ex ac)) ->
        forall expected actual path actual_scope q ex ac,
          compare expected actual path actual_scope
          = Raise (CheckFailure q ex ac) ->
          exists e' a' p',
            reaches str_mod expected actual path e' a' p'
            /\ found_mismatch expected_scope actual_scope e' a' p'
                 (CheckFailure q ex ac))
    /\ (forall path actual_scope,
          compare (VList [VStr "a"; VStr "b"]) (VList [VStr "a"; VStr "c"])
            path actual_scope
          = Raise (CheckFailure (path ++ "[1]")%string
                     (Object expected_scope) (Object actual_scope)))
    /\ (forall global_scope,
          Check str_mod (deps_a "2") "DEPS" global_scope
            (scope_deps_a (VStr "1"))
          = Some (Raise (CheckFailure path_deps_a
                           (Object (scope_deps_a (VStr "1")))
                           (Object (scope_deps_a (VStr "2"))))))
    /\ (forall global_scope,
          Check str_mod (deps_a "1") "DEPS" global_scope
            (scope_deps_a (VStr "1"))
          = Some (Ok tt)).
Proof.
  intros str_mod expected_scope cmp. subst cmp.
  split; [|split; [|split; [|split; [|split; [|split; [|split; [|split;
    [|split; [|split; [|split]]]]]]]]]].
  - intros expected actual path actual_scope Hs Hne.
    destruct expected; try discriminate; simpl in *; rewrite Hne; reflexivity.
  - intros elts actual n path actual_scope Hlen Hn. simpl. rewrite Hlen.
    destruct (Nat.eqb_spec (length elts) n) as [E|E]; [lia | reflexivity].
  - intros items aitems path actual_scope Hk. simpl. rewrite Hk. reflexivity.
  - intros k v a path actual_scope e H. cbn [compare].
    unfold same_keys, dict_contains. simpl.
    rewrite String.eqb_refl. simpl. rewrite H. reflexivity.
  - intros x a path actual_scope e H. cbn [compare]. simpl.
    change (path ++ index_step 0)%string with (path ++ "[0]")%string.
    rewrite H. reflexivity.
  - apply compare_item_failure.
  - reflexivity.
  - apply compare_element_failure.
  - apply compare_failure_reaches.
  - reflexivity.
  - reflexivity.
  - reflexivity.
Qed.

Lemma C6_check_failure_witness :
  compare no_formatting (scope_deps_a (VStr "1")) (VStr "1") (VStr "2")
    path_deps_a (scope_deps_a (VStr "2"))
  = Raise (CheckFailure path_deps_a (Object (scope_deps_a (VStr "1")))
             (Object (scope_deps_a (VStr "2")))).
Proof.
  apply (proj1 (C6_check_failure_contents no_formatting
                  (scope_deps_a (VStr "1")))); reflexivity.
Defined.

Lemma flat_map_nil {A B} (f : A -> list B) (l : list A) :
  flat_map f l = [] <-> (forall x, In x l -> f x = []).
Proof.
  induction l as [|a l IH]; simpl; [tauto|]. split.
  - intros H. apply app_eq_nil in H as [Ha Hl].
    intros x [->|Hx]; [exact Ha | apply IH; auto].
  - intros H. rewrite (H a) by auto. apply IH. auto.
Qed.

(** Validation of a top-level scope: the mismatches of its items, one by
    one (no key of the manifest schema is required). *)
Lemma validate_top_level :
  exists f,
    (forall items, validate _GCLIENT_SCHEMA [] (VDict items) = flat_map f items)
    /\ forall k v,
         (forall s, In s top_level_keys -> py_eq (VStr s) k = false) ->
         f (k, v) = [Mismatch [AtKey k] _GCLIENT_SCHEMA k].
Proof.
  eexists. split.
  - intros items. unfold _GCLIENT_SCHEMA at 1.
    cbn [validate is_optional orb app]. rewrite app_nil_r. reflexivity.
  - intros k v Hk. cbn [fst snd validate app].
    repeat (rewrite Hk by (simpl; tauto); cbn [no_mismatch]).
    reflexivity.
Qed.

(** C7.  The schema accepts the scope [{"deps": {"a": "1"}}]; it rejects
    [{"deps": {"a": 1}}] with one mismatch, at the path [deps], [a], where
    a string or a dict with a string [url] was expected; it rejects
    [{"bogus": 1}], and every scope with a top-level key that is none of
    the keys of the schema.  It accepts the empty scope, and what remains
    of an accepted scope when top-level items are left out. *)
Theorem C7_schema_validation :
  validate _GCLIENT_SCHEMA [] (scope_deps_a (VStr "1")) = []
  /\ validate _GCLIENT_SCHEMA [] (scope_deps_a (VInt 1))
     = [Mismatch [AtKey (VStr "deps"); AtKey (VStr "a")]
          (SOr [SType basestring;
                SDict [(SValue (VStr "url"), SType basestring)]])
          (VInt 1)]
  /\ validate _GCLIENT_SCHEMA [] (VDict [(VStr "bogus", VInt 1)])
     = [Mismatch [AtKey (VStr "bogus")] _GCLIENT_SCHEMA (VStr "bogus")]
  /\ (forall items k v,
        In (k, v) items ->
        (forall s, In s top_level_keys -> py_eq (VStr s) k = false) ->
        validate _GCLIENT_SCHEMA [] (VDict items) <> [])
  /\ validate _GCLIENT_SCHEMA [] (VDict []) = []
  /\ (forall items items',
        validate _GCLIENT_SCHEMA [] (VDict items) = [] ->
        (forall item, In item items' -> In item items) ->
        validate _GCLIENT_SCHEMA [] (VDict items') = []).
Proof.
  destruct validate_top_level as (f & Ef & Hf).
  split; [|split; [|split; [|split; [|split]]]]; try reflexivity.
  - intros items k v Hin Hk. rewrite Ef.
    intros H. rewrite flat_map_nil in H. specialize (H _ Hin).
    rewrite Hf in H by exact Hk. discriminate.
  - intros items items' Hok Hsub. rewrite Ef in *.
    rewrite flat_map_nil in *. auto.
Qed.

Lemma C7_schema_validation_witness :
  validate _GCLIENT_SCHEMA [] (VDict [(VStr "bogus", VInt 1)]) <> []
  /\ validate _GCLIENT_SCHEMA [] (VDict []) = [].
Proof.
  split.
  - apply (proj1 (proj2 (proj2 (proj2 C7_schema_validation)))
             [(VStr "bogus", VInt 1)] (VStr "bogus") (VInt 1)).
    + left. reflexivity.
    + intros s Hs. simpl in Hs.
      repeat (destruct Hs as [<-|Hs]; [reflexivity|]). destruct Hs.
  - apply (proj2 (proj2 (proj2 (proj2 (proj2 C7_schema_validation))))
             [(VStr "deps", VDict [(VStr "a", VStr "1")])] []).
    + reflexivity.
    + intros item [].
Defined.


(** * Further properties *)

(** ** Names *)

(** X1.  The names [None], [True] and [False] cannot be rebound: whatever
    items the call inherits, also items exposed under these very names,
    they evaluate to the three constants.  So in
    [vars = {"None": "x", "b": None}] the entry [b] is [None]. *)
Theorem X1_constants_cannot_be_rebound :
  forall str_mod global_scope filename expose_vars env ln,
    convert_in str_mod global_scope filename expose_vars env (Name ln "None")
    = Some (Ok VNone)
    /\ convert_in str_mod global_scope filename expose_vars env
         (Name ln "True")
       = Some (Ok (VBool true))
    /\ convert_in str_mod global_scope filename expose_vars env
         (Name ln "False")
       = Some (Ok (VBool false))
    /\ _gclient_exec str_mod global_scope filename rebinding_None
       = Some (Ok [(VStr "vars",
                    VDict [(VStr "None", VStr "x"); (VStr "b", VNone)])]).
Proof.
  intros str_mod global_scope filename expose_vars env ln.
  split; [|split; [|split]];
    try (rewrite eval_in_Name, dict_get_own; reflexivity).
  reflexivity.
Qed.

(** X2.  A name that is none of the three constants evaluates to the item
    the call inherits under it, and fails with the invalid-name error,
    which lists the inherited items and the constants, when there is
    none.  At the top of an evaluation nothing is inherited, so every such
    name fails there: a value cannot refer to another top-level
    variable. *)
Theorem X2_name_resolution :
  forall str_mod global_scope filename expose_vars env ln id,
    ~ In id constant_names ->
    convert_in str_mod global_scope filename expose_vars env (Name ln id)
    = match dict_get env (VStr id) with
      | Some v => Some (Ok v)
      | None =>
          Some (Raise (ValueError
                         (InvalidName id (dict_update env _allowed_names))
                         filename ln))
      end
    /\ _gclient_eval str_mod global_scope filename expose_vars
         (ExprNode (Name ln id))
       = Some (Raise (ValueError (InvalidName id _allowed_names) filename ln)).
Proof.
  intros str_mod global_scope filename expose_vars env ln id Hid. split.
  - rewrite eval_in_Name, dict_get_own_other by exact Hid. reflexivity.
  - rewrite gclient_eval_convert_in, eval_in_Name, dict_get_own_other
      by exact Hid.
    reflexivity.
Qed.

Lemma X2_name_resolution_witness :
  convert_in no_formatting ∅ "DEPS" false [(VStr "a", VStr "x")]
    (Name (Some 1) "a")
  = Some (Ok (VStr "x"))
  /\ _gclient_eval no_formatting ∅ "DEPS" false (ExprNode (Name (Some 1) "a"))
     = Some (Raise (ValueError (InvalidName "a" _allowed_names) "DEPS"
                      (Some 1))).
Proof.
  apply (X2_name_resolution no_formatting ∅ "DEPS" false
           [(VStr "a", VStr "x")] (Some 1) "a").
  simpl. intros [H|[H|[H|[]]]]; discriminate.
Defined.

(** ** Outcomes of lists of sub-expressions *)

(** Without exposure the loop of the [ast.Dict] branch evaluates every key
    and value under the same items and stores the pairs in order. *)
Lemma items_in_unexposed (eval : dict -> expr -> outcome value) pairs :
  forall env result p,
    items_in eval false env pairs result = Some (Ok p)
    <-> exists t,
          Forall2 (fun kv cv =>
                     eval env (fst kv) = Some (Ok (fst cv))
                     /\ eval env (snd kv) = Some (Ok (snd cv))
                     /\ hashable (fst cv) = true) pairs t
          /\ p = (env, dict_update result t).
Proof.
  induction pairs as [|[k v] pairs IH]; intros env result p; simpl.
  - split.
    + intros H. inversion H; subst. exists []. split; [constructor|reflexivity].
    + intros (t & Ht & ->). inversion Ht; subst. reflexivity.
  - split.
    + intros H. apply bindO_Ok_inv in H as (c_k & Hk & H).
      apply bindO_Ok_inv in H as (c_v & Hv & H).
      destruct (hashable c_k) eqn:Hh; [|discriminate].
      apply IH in H as (t & Ht & ->).
      exists ((c_k, c_v) :: t). split; [|reflexivity].
      constructor; auto.
    + intros (t & Ht & ->).
      inversion Ht as [|? [c_k c_v] ? t' (Hk & Hv & Hh) Ht']; subst.
      simpl in *. rewrite Hk. simpl. rewrite Hv. simpl. rewrite Hh.
      apply IH. exists t'. split; [exact Ht' | reflexivity].
Qed.

(** X3.  With exposure, an entry of a dict literal can refer by name to
    the key of any earlier entry and gets the value that key has at that
    point: when the literal evaluates to [d], and [d] has the string key
    [id] (none of the three constants) with value [x], the literal with
    the entry [s: id] added evaluates to [d] with [x] stored under [s]. *)
Theorem X3_entry_refers_to_earlier_key :
  forall str_mod global_scope filename env ln l1 l2 pairs s id d x,
    let eval_in := convert_in str_mod global_scope filename true in
    eval_in env (Dict ln (map fst pairs) (map snd pairs))
    = Some (Ok (VDict d)) ->
    dict_get d (VStr id) = Some x ->
    ~ In id constant_names ->
    eval_in env (Dict ln (map fst (pairs ++ [(Str l1 s, Name l2 id)]))
                         (map snd (pairs ++ [(Str l1 s, Name l2 id)])))
    = Some (Ok (VDict (dict_set d (VStr s) x))).
Proof.
  intros str_mod global_scope filename env ln l1 l2 pairs s id d x eval_in
         Hd Hget Hid.
  subst eval_in. rewrite eval_in_Dict, combine_fst_snd in Hd.
  apply bindO_Ok_inv in Hd as ([env' d'] & Hitems & Hd).
  inversion Hd; subst d'. clear Hd.
  assert (Hseen : dict_get env' (VStr id) = Some x).
  { eapply items_in_exposed;
      [reflexivity | constructor | | exact Hitems | exact Hget].
    intros key y Hy. discriminate. }
  rewrite eval_in_Dict, combine_fst_snd, items_in_app, Hitems.
  cbn [bindO fst snd items_in]. rewrite eval_in_Str. cbn [bindO].
  rewrite eval_in_Name, dict_get_own_other, Hseen by exact Hid. reflexivity.
Qed.

Lemma X3_entry_refers_to_earlier_key_witness :
  convert_in no_formatting ∅ "DEPS" true []
    (Dict (Some 1)
       (map fst ([(Str (Some 1) "a", Str (Some 1) "x")]
                 ++ [(Str (Some 2) "b", Name (Some 2) "a")]))
       (map snd ([(Str (Some 1) "a", Str (Some 1) "x")]
                 ++ [(Str (Some 2) "b", Name (Some 2) "a")])))
  = Some (Ok (VDict (dict_set [(VStr "a", VStr "x")] (VStr "b") (VStr "x")))).
Proof.
  apply (X3_entry_refers_to_earlier_key no_formatting ∅ "DEPS" []
           (Some 1) (Some 2) (Some 2)
           [(Str (Some 1) "a", Str (Some 1) "x")] "b" "a"
           [(VStr "a", VStr "x")] (VStr "x")).
  - reflexivity.
  - reflexivity.
  - simpl. intros [H|[H|[H|[]]]]; discriminate.
Defined.

(** X4.  Without exposure a dict literal evaluates exactly when each of
    its keys and values evaluates on its own under the names the call
    inherits and every key is hashable; its value is then the dict that
    stores the evaluated pairs in order.  No entry sees another one. *)
Theorem X4_dict_literal_without_exposure :
  forall str_mod global_scope filename env ln pairs v,
    let eval_in := convert_in str_mod global_scope filename false in
    eval_in env (Dict ln (map fst pairs) (map snd pairs)) = Some (Ok v)
    <-> exists t,
          Forall2 (fun kv cv =>
                     eval_in (dict_update env _allowed_names) (fst kv)
                     = Some (Ok (fst cv))
                     /\ eval_in (dict_update env _allowed_names) (snd kv)
                        = Some (Ok (snd cv))
                     /\ hashable (fst cv) = true) pairs t
          /\ v = VDict (dict_update [] t).
Proof.
  intros str_mod global_scope filename env ln pairs v eval_in. subst eval_in.
  rewrite eval_in_Dict, combine_fst_snd. split.
  - intros H. apply bindO_Ok_inv in H as (p & Hp & H).
    apply items_in_unexposed in Hp as (t & Ht & ->).
    inversion H; subst. exists t. split; [exact Ht | reflexivity].
  - intros (t & Ht & ->).
    assert (Hp : items_in (convert_in str_mod global_scope filename false)
                   false (dict_update env _allowed_names) pairs []
                 = Some (Ok (dict_update env _allowed_names,
                             dict_update [] t)))
      by (apply items_in_unexposed; exists t; split; [exact Ht | reflexivity]).
    rewrite Hp. reflexivity.
Qed.

(** X5.  A list or tuple display is all or nothing and element-wise: it
    evaluates to a list of values exactly when every element evaluates,
    under the names of the call, to the value at its position; and when
    the elements before one evaluate and that one fails, the display fails
    with the error of that element, whatever follows it. *)
Theorem X5_sequence_displays :
  forall str_mod global_scope filename expose_vars env ln elts,
    let eval_in := convert_in str_mod global_scope filename expose_vars in
    let own := dict_update env _allowed_names in
    (forall v,
        eval_in env (List ln elts) = Some (Ok v)
        <-> exists vs,
              Forall2 (fun e x => eval_in own e = Some (Ok x)) elts vs
              /\ v = VList vs)
    /\ (forall v,
          eval_in env (Tuple ln elts) = Some (Ok v)
          <-> exists vs,
                Forall2 (fun e x => eval_in own e = Some (Ok x)) elts vs
                /\ v = VTuple vs)
    /\ (forall pre x post e,
          elts = pre ++ x :: post ->
          Forall (fun y => exists v, eval_in own y = Some (Ok v)) pre ->
          eval_in own x = Some (Raise e) ->
          eval_in env (List ln elts) = Some (Raise e)
          /\ eval_in env (Tuple ln elts) = Some (Raise e)).
Proof.
  intros str_mod global_scope filename expose_vars env ln elts eval_in own.
  subst eval_in own. split; [|split].
  - intros v. rewrite eval_in_List. split.
    + intros H. apply bindO_Ok_inv in H as (vs & Hvs & H). inversion H; subst.
      exists vs. split; [apply mapO_Ok_iff, Hvs | reflexivity].
    + intros (vs & Hvs & ->). apply mapO_Ok_iff in Hvs. rewrite Hvs.
      reflexivity.
  - intros v. rewrite eval_in_Tuple. split.
    + intros H. apply bindO_Ok_inv in H as (vs & Hvs & H). inversion H; subst.
      exists vs. split; [apply mapO_Ok_iff, Hvs | reflexivity].
    + intros (vs & Hvs & ->). apply mapO_Ok_iff in Hvs. rewrite Hvs.
      reflexivity.
  - intros pre x post e -> Hpre Hx.
    rewrite eval_in_List, eval_in_Tuple.
    rewrite (mapO_first_failure _ pre x post e Hpre Hx). split; reflexivity.
Qed.

Lemma X5_sequence_displays_witness :
  convert_in no_formatting ∅ "DEPS" false []
    (List (Some 1)
       ([Str (Some 1) "a"] ++ Name (Some 1) "b" :: [Name (Some 1) "c"]))
  = Some (Raise (ValueError (InvalidName "b" _allowed_names) "DEPS" (Some 1))).
Proof.
  apply (proj2 (proj2 (X5_sequence_displays no_formatting ∅ "DEPS" false []
                         (Some 1) _))
           [Str (Some 1) "a"] (Name (Some 1) "b") [Name (Some 1) "c"]).
  - reflexivity.
  - constructor; [eexists; reflexivity | constructor].
  - reflexivity.
Defined.

(** ** Scopes *)

Lemma scope_of_app bs1 bs2 : scope_of (bs1 ++ bs2) = scope_of bs1 ++ scope_of bs2.
Proof. apply map_app. Qed.

Lemma dict_get_scope_of_None bs id :
  dict_get (scope_of bs) (VStr id) = None <-> ~ In id (map fst bs).
Proof.
  induction bs as [|[k v] bs IH]; simpl; [tauto|].
  destruct (String.eqb_spec k id) as [->|Hne].
  - split; [discriminate | intros H; exfalso; apply H; auto].
  - rewrite IH. tauto.
Qed.

Lemma dict_get_scope_of_Some bs id v :
  NoDup (map fst bs) ->
  dict_get (scope_of bs) (VStr id) = Some v <-> In (id, v) bs.
Proof.
  induction bs as [|[k w] bs IH]; simpl; intros Hnd.
  - split; [discriminate | tauto].
  - apply NoDup_cons in Hnd as [Hk Hnd].
    destruct (String.eqb_spec k id) as [->|Hne].
    + split.
      * intros H. inversion H; subst. auto.
      * intros [H|H]; [inversion H; subst; reflexivity|].
        exfalso. apply Hk. apply list_elem_of_In.
        apply (in_map fst) in H. exact H.
    + rewrite IH by exact Hnd. split; [auto|].
      intros [H|H]; [inversion H; subst; tauto | exact H].
Qed.

Lemma Forall2_Permutation_l {A B} (R : A -> B -> Prop) l l' k :
  l ≡ₚ l' -> Forall2 R l k -> exists k', k ≡ₚ k' /\ Forall2 R l' k'.
Proof.
  intros Hp. revert k.
  induction Hp as [|x l l' _ IH|x y l|l l' l'' _ IH1 _ IH2]; intros k Hk.
  - inversion Hk; subst. exists []. split; [reflexivity | constructor].
  - inversion Hk as [|? a ? k0 Ha Hk0]; subst.
    destruct (IH _ Hk0) as (k' & Hpk & Hk').
    exists (a :: k'). split; [constructor; exact Hpk | constructor; auto].
  - inversion Hk as [|? a ? k0 Ha Hk0]; subst.
    inversion Hk0 as [|? b ? k1 Hb Hk1]; subst.
    exists (b :: a :: k1). split; [apply perm_swap | repeat constructor; auto].
  - destruct (IH1 _ Hk) as (k1 & Hp1 & Hk1).
    destruct (IH2 _ Hk1) as (k2 & Hp2 & Hk2).
    exists k2. split; [etransitivity; eauto | exact Hk2].
Qed.

Section Scopes.
Context (str_mod : string -> value -> result value)
        (global_scope : gmap string callable) (filename : string).

Local Abbreviation visit := (_visit_in_module str_mod global_scope filename).
Local Abbreviation visit_all := (visit_body str_mod global_scope filename).
Local Abbreviation binds := (assigns str_mod global_scope filename).

Lemma visit_iff bs0 s scope :
  visit (scope_of bs0) s = Some (Ok scope)
  <-> exists b, binds s b /\ ~ In (fst b) (map fst bs0)
                /\ scope = scope_of (bs0 ++ [b]).
Proof.
  split.
  - intros H.
    apply visit_ok in H as (ln & ln' & id & value & v & -> & Hv & Hg & ->).
    exists (id, v). split; [exists ln, ln', value; auto|].
    split; [apply dict_get_scope_of_None, Hg|].
    rewrite scope_of_app. reflexivity.
  - intros ([id v] & (ln & ln' & value & -> & Hv) & Hid & ->).
    simpl in *. rewrite Hv. unfold dict_contains.
    apply dict_get_scope_of_None in Hid. rewrite Hid.
    rewrite dict_set_absent by exact Hid. rewrite scope_of_app. reflexivity.
Qed.

Lemma visit_body_iff body : forall bs0 scope,
  visit_all body (scope_of bs0) = Some (Ok scope)
  <-> exists bs,
        Forall2 binds body bs
        /\ NoDup (map fst bs)
        /\ (forall id, In id (map fst bs) -> ~ In id (map fst bs0))
        /\ scope = scope_of (bs0 ++ bs).
Proof.
  induction body as [|s body IH]; intros bs0 scope; simpl.
  - split.
    + intros H. inversion H; subst. exists [].
      rewrite app_nil_r. repeat split; [constructor | constructor | tauto].
    + intros (bs & Hf & _ & _ & ->). inversion Hf; subst.
      rewrite app_nil_r. reflexivity.
  - split.
    + destruct (visit (scope_of bs0) s) as [[scope1|e]|] eqn:E;
        try discriminate.
      apply visit_iff in E as (b & Hb & Hid & ->).
      intros H. apply IH in H as (bs & Hf & Hnd & Hdis & ->).
      exists (b :: bs). split; [constructor; auto|]. split; [|split].
      * simpl. apply NoDup_cons. split; [|exact Hnd].
        intros Hin. apply list_elem_of_In in Hin.
        apply (Hdis _ Hin). rewrite map_app. apply in_or_app. right.
        simpl. auto.
      * simpl. intros id [<-|Hin]; [exact Hid|].
        intros Hid0. apply (Hdis _ Hin). rewrite map_app.
        apply in_or_app. left. exact Hid0.
      * rewrite <- app_assoc. reflexivity.
    + intros (bs & Hf & Hnd & Hdis & ->).
      inversion Hf as [|? b ? bs' Hb Hf']; subst.
      simpl in Hnd. apply NoDup_cons in Hnd as [Hb' Hnd].
      assert (E : visit (scope_of bs0) s = Some (Ok (scope_of (bs0 ++ [b])))).
      { apply visit_iff. exists b. split; [exact Hb|].
        split; [apply Hdis; simpl; auto | reflexivity]. }
      rewrite E. apply IH. exists bs'. split; [exact Hf'|].
      split; [exact Hnd|]. split; [|rewrite <- app_assoc; reflexivity].
      intros id Hin Hid. rewrite map_app in Hid.
      apply in_app_or in Hid as [Hid|[<-|[]]].
      * apply (Hdis id); simpl; auto.
      * apply Hb'. apply list_elem_of_In. exact Hin.
Qed.

End Scopes.

(** X6.  A module is executed to a scope exactly when each of its
    statements assigns to one bare name a value that evaluates (with
    exposure for the name [vars] only) and no name is assigned twice; the
    scope then holds the names with their values in the order of the
    statements.  Each value is evaluated on its own: the scope built so
    far plays no part in it. *)
Theorem X6_executed_scope :
  forall str_mod global_scope filename body scope,
    _gclient_exec str_mod global_scope filename (ModNode (Module body))
    = Some (Ok scope)
    <-> exists bs,
          Forall2 (assigns str_mod global_scope filename) body bs
          /\ NoDup (map fst bs)
          /\ scope = scope_of bs.
Proof.
  intros str_mod global_scope filename body scope.
  unfold _gclient_exec.
  rewrite (visit_body_iff str_mod global_scope filename body [] scope).
  split.
  - intros (bs & Hf & Hnd & _ & ->). exists bs. auto.
  - intros (bs & Hf & Hnd & ->). exists bs. repeat split; auto.
Qed.

(** X7.  The order of the statements does not matter for what a module
    binds: when a module is executed to a scope, the module with its
    statements in any other order is executed as well, to a scope with the
    same items in the corresponding order, which maps every name to the
    same value. *)
Theorem X7_statement_order :
  forall str_mod global_scope filename body body' scope,
    body ≡ₚ body' ->
    _gclient_exec str_mod global_scope filename (ModNode (Module body))
    = Some (Ok scope) ->
    exists scope',
      _gclient_exec str_mod global_scope filename (ModNode (Module body'))
      = Some (Ok scope')
      /\ scope ≡ₚ scope'
      /\ forall id, dict_get scope' (VStr id) = dict_get scope (VStr id).
Proof.
  intros str_mod global_scope filename body body' scope Hp H.
  unfold _gclient_exec in *.
  apply (visit_body_iff str_mod global_scope filename body [] scope) in H
    as (bs & Hf & Hnd & _ & ->).
  destruct (Forall2_Permutation_l _ _ _ _ Hp Hf) as (bs' & Hpb & Hf').
  assert (Hnd' : NoDup (map fst bs')).
  { eapply NoDup_Permutation_proper; [|exact Hnd].
    symmetry. apply Permutation_map, Hpb. }
  exists (scope_of bs'). split; [|split].
  - apply (visit_body_iff str_mod global_scope filename body' []).
    exists bs'. repeat split; auto.
  - apply Permutation_map, Hpb.
  - intros id. simpl. apply option_eq. intros v.
    rewrite !dict_get_scope_of_Some by assumption.
    split; intros Hin; apply list_elem_of_In; apply list_elem_of_In in Hin.
    + rewrite Hpb. exact Hin.
    + rewrite <- Hpb. exact Hin.
Qed.

Lemma X7_statement_order_witness :
  exists scope',
    _gclient_exec no_formatting ∅ "DEPS" (ModNode (Module a_then_b))
    = Some (Ok scope')
    /\ [(VStr "b", VStr "y"); (VStr "a", VStr "x")] ≡ₚ scope'
    /\ forall id,
         dict_get scope' (VStr id)
         = dict_get [(VStr "b", VStr "y"); (VStr "a", VStr "x")] (VStr id).
Proof.
  apply (X7_statement_order no_formatting ∅ "DEPS" b_then_a a_then_b).
  - apply perm_swap.
  - reflexivity.
Defined.

(** ** The comparison of equal scopes *)

Lemma plain_list_cons x l : plain (VList (x :: l)) = plain x && plain (VList l).
Proof. reflexivity. Qed.

Lemma plain_dict_cons k x d :
  plain (VDict ((k, x) :: d))
  = match k with VStr _ => true | _ => false end
    && negb (dict_contains d k) && plain x && plain (VDict d).
Proof. reflexivity. Qed.

Lemma plain_list_Forall l : plain (VList l) = true -> Forall (fun x => plain x = true) l.
Proof.
  induction l as [|x l IH]; [constructor|].
  rewrite plain_list_cons. intros H. apply andb_prop in H as [Hx Hl].
  constructor; auto.
Qed.

Lemma dict_get_None_all d k0 :
  dict_get d k0 = None -> forall k v, In (k, v) d -> py_eq k k0 = false.
Proof.
  induction d as [|[k1 v1] d IH]; simpl; [tauto|].
  destruct (py_eq k1 k0) eqn:E; [discriminate|].
  intros H k v [Hin|Hin]; [inversion Hin; subst; exact E | eapply IH; eauto].
Qed.

(** In a plain dict every item is found under its key. *)
Lemma dict_get_plain d : plain (VDict d) = true ->
  forall k v, In (k, v) d ->
    dict_get d k = Some v /\ plain v = true /\ exists s, k = VStr s.
Proof.
  induction d as [|[k0 v0] d IH]; [intros _ k v []|].
  rewrite plain_dict_cons. intros H.
  apply andb_prop in H as [H Hd]. apply andb_prop in H as [H Hv0].
  apply andb_prop in H as [Hk0 Hnew].
  destruct k0 as [ | | |s0| | | ]; try discriminate.
  intros k v [Hin|Hin]; simpl.
  - inversion Hin; subst. rewrite String.eqb_refl. eauto.
  - destruct (IH Hd k v Hin) as (Hg & Hv & s & ->).
    unfold dict_contains in Hnew.
    destruct (dict_get d (VStr s0)) eqn:G; [discriminate|].
    pose proof (dict_get_None_all d (VStr s0) G _ _ Hin) as Hne.
    simpl in Hne. rewrite String.eqb_sym, Hne. eauto.
Qed.

Section CompareEqual.
Context (str_mod : string -> value -> result value) (expected_scope : value).

Local Abbreviation cmp := (compare str_mod expected_scope).

Lemma compare_plain_refl v : forall path actual_scope,
  plain v = true -> cmp v v path actual_scope = Ok tt.
Proof.
  induction v as [ |b|n|s|l IH|l IH|d IH] using value_nested_ind;
    intros path actual_scope Hp.
  - reflexivity.
  - cbn [compare]. rewrite py_eq_refl; reflexivity.
  - cbn [compare]. rewrite py_eq_refl; reflexivity.
  - cbn [compare]. rewrite py_eq_refl; reflexivity.
  - cbn [compare py_len]. rewrite Nat.eqb_refl.
    apply plain_list_Forall in Hp.
    match goal with
    | |- ?f l 0 = _ =>
        assert (Hloop : forall rest pre,
                   l = pre ++ rest -> f rest (length pre) = Ok tt)
    end.
    { induction rest as [|x rest IHr]; intros pre Hl; [reflexivity|].
      cbn [getitem]. rewrite Hl at 1. rewrite lookup_middle.
      assert (Hx : x ∈ l)
        by (apply list_elem_of_In; rewrite Hl; apply in_or_app; simpl; auto).
      rewrite Forall_forall in IH, Hp.
      rewrite (IH x Hx _ _ (Hp x Hx)).
      specialize (IHr (pre ++ [x])). rewrite length_app in IHr.
      simpl in IHr. rewrite Nat.add_1_r in IHr. apply IHr.
      rewrite <- app_assoc. exact Hl. }
    apply (Hloop l []). reflexivity.
  - cbn [compare]. simpl in Hp. rewrite py_eq_refl; [reflexivity | exact Hp].
  - cbn [compare].
    assert (Hkeys : same_keys d d = true).
    { unfold same_keys. rewrite Nat.eqb_refl. simpl.
      apply forallb_forall. intros k Hk. unfold dict_keys in Hk.
      apply in_map_iff in Hk as ([k' v] & <- & Hin).
      destruct (dict_get_plain d Hp _ _ Hin) as (Hg & _).
      unfold dict_contains. simpl. rewrite Hg. reflexivity. }
    rewrite Hkeys.
    match goal with
    | |- ?f d = _ =>
        assert (Hloop : forall rest,
                   (forall kv, In kv rest -> In kv d) -> f rest = Ok tt)
    end.
    { induction rest as [|[k v] rest IHr]; intros Hsub; [reflexivity|].
      destruct (dict_get_plain d Hp k v) as (Hg & Hv & s & ->);
        [apply Hsub; simpl; auto|].
      rewrite Hg. cbn [key_step].
      rewrite Forall_forall in IH.
      destruct (IH (VStr s, v)) as [_ IHv];
        [apply list_elem_of_In, Hsub; simpl; auto|].
      simpl in IHv. rewrite (IHv _ _ Hv).
      apply IHr. intros kv Hin. apply Hsub. simpl. auto. }
    apply Hloop. auto.
Qed.

End CompareEqual.

(** X8.  The comparison accepts every plain value against itself, at any
    path: a scope made of strings, constants, lists and dicts with string
    keys passes the comparison with an expected scope equal to it.  The
    comparison does not tell a tuple from a list: it accepts the tuple
    with the elements of an expected plain list as well. *)
Theorem X8_comparison_of_equal_values :
  forall str_mod expected_scope v path actual_scope,
    plain v = true ->
    compare str_mod expected_scope v v path actual_scope = Ok tt
    /\ forall elts,
         v = VList elts ->
         compare str_mod expected_scope (VList elts) (VTuple elts) path
           actual_scope
         = Ok tt.
Proof.
  intros str_mod expected_scope v path actual_scope Hp. split.
  - apply compare_plain_refl, Hp.
  - intros elts ->.
    change (compare str_mod expected_scope (VList elts) (VTuple elts) path
              actual_scope)
      with (compare str_mod expected_scope (VList elts) (VList elts) path
              actual_scope).
    apply compare_plain_refl, Hp.
Qed.

Lemma X8_comparison_of_equal_values_witness :
  compare no_formatting (scope_deps_a (VStr "1")) (scope_deps_a (VStr "1"))
    (scope_deps_a (VStr "1")) EmptyString (scope_deps_a (VStr "1"))
  = Ok tt.
Proof.
  apply (proj1 (X8_comparison_of_equal_values no_formatting
                  (scope_deps_a (VStr "1")) (scope_deps_a (VStr "1"))
                  EmptyString (scope_deps_a (VStr "1")) eq_refl)).
Defined.

(** ** Evaluation, one level at a time *)

Lemma dict_set_same d k v : dict_get d k = Some v -> dict_set d k v = d.
Proof.
  induction d as [|[k0 v0] d IH]; simpl; [discriminate|].
  destruct (py_eq k0 k); intros H; [inversion H; reflexivity|].
  rewrite IH by exact H. reflexivity.
Qed.

(** Adding the allowed names a second time changes nothing. *)
Lemma own_idem env :
  dict_update (dict_update env _allowed_names) _allowed_names
  = dict_update env _allowed_names.
Proof.
  set (own := dict_update env _allowed_names).
  unfold dict_update at 1, _allowed_names at 1. cbn [fold_left fst snd].
  rewrite (dict_set_same own (VStr "None") VNone)
    by (subst own; rewrite dict_get_own; reflexivity).
  rewrite (dict_set_same own (VStr "True") (VBool true))
    by (subst own; rewrite dict_get_own; reflexivity).
  rewrite (dict_set_same own (VStr "False") (VBool false))
    by (subst own; rewrite dict_get_own; reflexivity).
  reflexivity.
Qed.

Section Unfold.
Context (str_mod : string -> value -> result value)
        (global_scope : gmap string callable)
        (filename : string) (expose_vars : bool).

Local Abbreviation eval_in :=
  (convert_in str_mod global_scope filename expose_vars).

Lemma eval_in_unfold env e :
  eval_in env e
  = eval_node str_mod global_scope filename expose_vars eval_in env e.
Proof.
  destruct e as [ln op values | ln lhs op rhs | ln op operand
                | ln keys values | ln func args keywords starargs kwargs
                | ln s | ln id | ln elts | ln elts | ln kind children].
  - destruct op; destruct values as [|x [|y [|z rest]]];
      try (rewrite eval_in_BoolOp_arity by (simpl; lia); reflexivity).
    + apply eval_in_And.
    + apply eval_in_Or.
  - destruct op; try reflexivity; [apply eval_in_Add | apply eval_in_Mod].
  - destruct op; try reflexivity. apply eval_in_Not.
  - apply eval_in_Dict.
  - destruct func;
      try (rewrite eval_in_Call_not_name by (intros; discriminate);
           reflexivity).
    destruct keywords as [|kw keywords];
      [destruct starargs as [sa|]; [|destruct kwargs as [kwa|]]|].
    + apply eval_in_Call_irregular. right. left. discriminate.
    + apply eval_in_Call_irregular. right. right. discriminate.
    + apply eval_in_Call.
    + apply eval_in_Call_irregular. left. discriminate.
  - reflexivity.
  - apply eval_in_Name.
  - apply eval_in_List.
  - apply eval_in_Tuple.
  - unfold convert_in. destruct (expr_size _) eqn:E; [simpl in E; lia|].
    reflexivity.
Qed.

(** A sub-expression is evaluated in the same way at every depth. *)
Lemma eval_in_own env e :
  eval_in (dict_update env _allowed_names) e = eval_in env e.
Proof.
  rewrite !eval_in_unfold. unfold eval_node. rewrite own_idem. reflexivity.
Qed.

Lemma gclient_eval_own e :
  eval_in _allowed_names e
  = _gclient_eval str_mod global_scope filename expose_vars (ExprNode e).
Proof. rewrite gclient_eval_convert_in. apply (eval_in_own [] e). Qed.

End Unfold.

Lemma mapO_ext_in {A B} (f g : A -> outcome B) l :
  (forall x, In x l -> f x = g x) -> mapO f l = mapO g l.
Proof.
  induction l as [|x l IH]; intros H; simpl; [reflexivity|].
  rewrite (H x) by (simpl; auto). rewrite IH; [reflexivity|].
  intros y Hy. apply H. simpl. auto.
Qed.

(** X9.  Nesting is transparent.  Adding the allowed names again changes
    nothing, so a sub-expression is evaluated at every depth as under the
    names the enclosing call inherits; at the top of an evaluation, a
    list, tuple, sum, remainder, negation or call is therefore determined
    by what its parts evaluate to when evaluated on their own. *)
Theorem X9_nesting_is_transparent :
  forall str_mod global_scope filename expose_vars,
    let eval_in := convert_in str_mod global_scope filename expose_vars in
    let top e :=
      _gclient_eval str_mod global_scope filename expose_vars (ExprNode e) in
    (forall env e, eval_in (dict_update env _allowed_names) e = eval_in env e)
    /\ (forall ln elts,
          top (List ln elts)
          = bindO (mapO top elts) (fun vs => Some (Ok (VList vs))))
    /\ (forall ln elts,
          top (Tuple ln elts)
          = bindO (mapO top elts) (fun vs => Some (Ok (VTuple vs))))
    /\ (forall ln lhs rhs,
          top (BinOp ln lhs Add rhs)
          = bindO (top lhs) (fun a =>
            bindO (top rhs) (fun b => Some (py_add a b))))
    /\ (forall ln lhs rhs,
          top (BinOp ln lhs Mod rhs)
          = bindO (top lhs) (fun a =>
            bindO (top rhs) (fun b => Some (py_mod str_mod a b))))
    /\ (forall ln operand,
          top (UnaryOp ln Not operand)
          = bindO (top operand) (fun a =>
              Some (Ok (VBool (negb (truthy a))))))
    /\ (forall ln ln' id args,
          top (Call ln (Name ln' id) args [] None None)
          = bindO (mapO top args) (fun vs =>
              match global_scope !! id with
              | Some f => Some (f vs)
              | None => Some (Raise (KeyError (VStr id)))
              end)).
Proof.
  intros str_mod global_scope filename expose_vars eval_in top.
  subst eval_in top. cbv beta.
  split; [apply eval_in_own|].
  repeat split; intros; rewrite gclient_eval_convert_in.
  - rewrite eval_in_List. erewrite mapO_ext_in; [reflexivity|].
    intros x _. apply gclient_eval_own.
  - rewrite eval_in_Tuple. erewrite mapO_ext_in; [reflexivity|].
    intros x _. apply gclient_eval_own.
  - rewrite eval_in_Add.
    change (dict_update [] _allowed_names) with _allowed_names.
    rewrite !gclient_eval_own. reflexivity.
  - rewrite eval_in_Mod.
    change (dict_update [] _allowed_names) with _allowed_names.
    rewrite !gclient_eval_own. reflexivity.
  - rewrite eval_in_Not.
    change (dict_update [] _allowed_names) with _allowed_names.
    rewrite !gclient_eval_own. reflexivity.
  - rewrite eval_in_Call. erewrite mapO_ext_in; [reflexivity|].
    intros x _. apply gclient_eval_own.
Qed.

(** ** Induction on the size of an expression *)

Lemma expr_size_ind (P : expr -> Prop) :
  (forall e, (forall x, expr_size x < expr_size e -> P x) -> P e) ->
  forall e, P e.
Proof.
  intros H e. remember (expr_size e) as n eqn:E. revert e E.
  induction (lt_wf n) as [n _ IH]. intros e ->.
  apply H. intros x Hx. exact (IH _ Hx x eq_refl).
Qed.

Lemma size_in_List ln elts x :
  In x elts -> expr_size x < expr_size (List ln elts).
Proof. intros H. rewrite expr_size_List. apply exprs_size_In in H. lia. Qed.

Lemma size_in_Tuple ln elts x :
  In x elts -> expr_size x < expr_size (Tuple ln elts).
Proof. intros H. rewrite expr_size_Tuple. apply exprs_size_In in H. lia. Qed.

Lemma size_in_BoolOp ln op values x :
  In x values -> expr_size x < expr_size (BoolOp ln op values).
Proof. intros H. rewrite expr_size_BoolOp. apply exprs_size_In in H. lia. Qed.

Lemma size_in_Call ln func args keywords starargs kwargs x :
  In x args ->
  expr_size x < expr_size (Call ln func args keywords starargs kwargs).
Proof.
  intros H. apply exprs_size_In in H.
  pose proof (expr_size_Call_args ln func args keywords starargs kwargs). lia.
Qed.

Lemma size_in_Dict ln keys values k v :
  In (k, v) (combine keys values) ->
  expr_size k < expr_size (Dict ln keys values)
  /\ expr_size v < expr_size (Dict ln keys values).
Proof.
  intros H. rewrite expr_size_Dict.
  pose proof (exprs_size_In _ _ (in_combine_l _ _ _ _ H)).
  pose proof (exprs_size_In _ _ (in_combine_r _ _ _ _ H)). lia.
Qed.

(** ** Constructs without a branch *)

Lemma supported_all l :
  (fix all (l : list expr) : bool :=
     match l with [] => true | x :: l' => supported x && all l' end) l
  = forallb supported l.
Proof. induction l as [|x l IH]; simpl; [reflexivity | rewrite IH; reflexivity]. Qed.

Lemma supported_upto l : forall n,
  (fix upto (l : list expr) (n : nat) {struct l} : bool :=
     match l, n with
     | x :: l', S n' => supported x && upto l' n'
     | _, _ => true
     end) l n
  = forallb supported (firstn n l).
Proof.
  induction l as [|x l IH]; intros [|n]; simpl; try reflexivity.
  rewrite IH. reflexivity.
Qed.

Lemma supported_Dict ln keys values :
  supported (Dict ln keys values)
  = forallb supported (firstn (length values) keys)
    && forallb supported (firstn (length keys) values).
Proof. simpl. rewrite !supported_upto. reflexivity. Qed.

Lemma supported_List ln elts :
  supported (List ln elts) = forallb supported elts.
Proof. simpl. apply supported_all. Qed.

Lemma supported_Tuple ln elts :
  supported (Tuple ln elts) = forallb supported elts.
Proof. simpl. apply supported_all. Qed.

Lemma supported_Call ln ln' id args :
  supported (Call ln (Name ln' id) args [] None None)
  = forallb supported args.
Proof. simpl. apply supported_all. Qed.

Lemma firstn_combine_l {A B} (ks : list A) : forall (vs : list B) k,
  In k (firstn (length vs) ks) -> exists v, In (k, v) (combine ks vs).
Proof.
  induction ks as [|k0 ks IH]; intros [|v0 vs] k; simpl; try tauto.
  intros [<-|H]; [eauto|]. apply IH in H as [v H]. eauto.
Qed.

Lemma firstn_combine_r {A B} (ks : list A) : forall (vs : list B) v,
  In v (firstn (length ks) vs) -> exists k, In (k, v) (combine ks vs).
Proof.
  induction ks as [|k0 ks IH]; intros [|v0 vs] v; simpl; try tauto.
  intros [<-|H]; [eauto|]. apply IH in H as [k H]. eauto.
Qed.

(** Every key and value of a dict display that evaluates has evaluated. *)
Lemma items_in_Ok_each (eval : dict -> expr -> outcome value) ev pairs :
  forall env result p,
    items_in eval ev env pairs result = Some (Ok p) ->
    forall k v, In (k, v) pairs ->
      (exists env' c, eval env' k = Some (Ok c))
      /\ (exists env' c, eval env' v = Some (Ok c)).
Proof.
  induction pairs as [|[k0 v0] pairs IH]; intros env result p H k v;
    simpl in *; [tauto|].
  apply bindO_Ok_inv in H as (c_k & Hk & H).
  apply bindO_Ok_inv in H as (c_v & Hv & H).
  destruct (hashable c_k); [|discriminate].
  intros [E|Hin].
  - inversion E; subst. split; eauto.
  - exact (IH _ _ _ H k v Hin).
Qed.

Lemma mapO_Ok_each {A B} (f : A -> outcome B) l vs :
  mapO f l = Some (Ok vs) ->
  forall x, In x l -> exists y, f x = Some (Ok y).
Proof.
  rewrite mapO_Ok_iff. intros F.
  induction F as [|x y l vs Hxy _ IH]; intros z; simpl; [tauto|].
  intros [<-|Hz]; eauto.
Qed.

Lemma supported_of_Ok str_mod global_scope filename expose_vars e :
  forall env v,
    convert_in str_mod global_scope filename expose_vars env e = Some (Ok v) ->
    supported e = true.
Proof.
  induction e as [e IH] using expr_size_ind. intros env v H.
  rewrite eval_in_unfold in H. unfold eval_node in H.
  destruct e as [ln op values | ln lhs op rhs | ln op operand
                | ln keys values | ln func args keywords starargs kwargs
                | ln s | ln id | ln elts | ln elts | ln kind children].
  - assert (Hx : forall x y, values = [x; y] ->
                 exists a, convert_in str_mod global_scope filename
                             expose_vars (dict_update env _allowed_names) x
                           = Some (Ok a)).
    { intros x y ->.
      destruct op; apply bindO_Ok_inv in H as (a & Ha & _); eauto. }
    destruct values as [|x [|y [|z rest]]];
      try (destruct op; discriminate).
    destruct (Hx x y eq_refl) as [a Ha].
    apply IH in Ha; [exact Ha|]. apply size_in_BoolOp. simpl. auto.
  - destruct op; try discriminate;
      apply bindO_Ok_inv in H as (a & Ha & H);
      apply bindO_Ok_inv in H as (b & Hb & _);
      (apply IH in Ha; [|simpl; lia]); (apply IH in Hb; [|simpl; lia]);
      simpl; rewrite Ha, Hb; reflexivity.
  - destruct op; try discriminate.
    apply bindO_Ok_inv in H as (a & Ha & _).
    apply IH in Ha; [exact Ha | simpl; lia].
  - apply bindO_Ok_inv in H as (p & Hp & _).
    pose proof (items_in_Ok_each _ _ _ _ _ _ Hp) as Heach.
    rewrite supported_Dict. apply andb_true_intro. split.
    + apply forallb_forall. intros k Hk.
      apply firstn_combine_l in Hk as [v' Hin].
      destruct (Heach _ _ Hin) as [(env' & c & Hc) _].
      apply IH in Hc; [exact Hc|]. exact (proj1 (size_in_Dict ln _ _ _ _ Hin)).
    + apply forallb_forall. intros v' Hv.
      apply firstn_combine_r in Hv as [k Hin].
      destruct (Heach _ _ Hin) as [_ (env' & c & Hc)].
      apply IH in Hc; [exact Hc|]. exact (proj2 (size_in_Dict ln _ _ _ _ Hin)).
  - destruct func; try discriminate.
    destruct keywords; [|discriminate].
    destruct starargs; [discriminate|]. destruct kwargs; [discriminate|].
    apply bindO_Ok_inv in H as (vs & Hvs & _).
    rewrite supported_Call. apply forallb_forall. intros x Hx.
    destruct (mapO_Ok_each _ _ _ Hvs x Hx) as [y Hy].
    apply IH in Hy; [exact Hy|]. apply size_in_Call, Hx.
  - reflexivity.
  - reflexivity.
  - apply bindO_Ok_inv in H as (vs & Hvs & _).
    rewrite supported_List. apply forallb_forall. intros x Hx.
    destruct (mapO_Ok_each _ _ _ Hvs x Hx) as [y Hy].
    apply IH in Hy; [exact Hy|]. apply size_in_List, Hx.
  - apply bindO_Ok_inv in H as (vs & Hvs & _).
    rewrite supported_Tuple. apply forallb_forall. intros x Hx.
    destruct (mapO_Ok_each _ _ _ Hvs x Hx) as [y Hy].
    apply IH in Hy; [exact Hy|]. apply size_in_Tuple, Hx.
  - discriminate.
Qed.

(** X10.  Only the constructs with a branch have a value.  When
    [_gclient_eval] returns a value, its argument is an expression (bare
    or wrapped in [ast.Expression]) that is [supported]: every
    sub-expression in a position that is always evaluated is a string,
    name, list, tuple, dict, regular call of a name, [+], [%], [not] or a
    two-operand [and] / [or].  A number, comparison, subscript, attribute,
    lambda, comprehension, conditional expression or any other operator in
    such a position leaves the whole expression without a value. *)
Theorem X10_only_supported_constructs :
  forall str_mod global_scope filename expose_vars n v,
    _gclient_eval str_mod global_scope filename expose_vars n = Some (Ok v) ->
    exists e,
      (n = ExprNode e \/ n = ModNode (Expression e)) /\ supported e = true.
Proof.
  intros str_mod global_scope filename expose_vars n v H.
  destruct n as [m|s|e]; [destruct m as [b|b|e|b]| |];
    try (simpl in H; discriminate).
  - change (_gclient_eval str_mod global_scope filename expose_vars
              (ExprNode e) = Some (Ok v)) in H.
    rewrite gclient_eval_convert_in in H. apply supported_of_Ok in H. eauto.
  - rewrite gclient_eval_convert_in in H. apply supported_of_Ok in H. eauto.
Qed.

Lemma X10_only_supported_constructs_witness :
  exists e,
    (ExprNode (List (Some 1) [Str (Some 1) "a"; Name (Some 1) "None"])
     = ExprNode e
     \/ ExprNode (List (Some 1) [Str (Some 1) "a"; Name (Some 1) "None"])
        = ModNode (Expression e))
    /\ supported e = true.
Proof.
  apply (X10_only_supported_constructs no_formatting ∅ "DEPS" false
           (ExprNode (List (Some 1) [Str (Some 1) "a"; Name (Some 1) "None"]))
           (VList [VStr "a"; VNone])).
  reflexivity.
Defined.

(** ** The file name *)

Lemma mapO_Ok_mono {A B} (f g : A -> outcome B) l vs :
  (forall x y, In x l -> f x = Some (Ok y) -> g x = Some (Ok y)) ->
  mapO f l = Some (Ok vs) -> mapO g l = Some (Ok vs).
Proof.
  rewrite !mapO_Ok_iff. intros H F. revert H.
  induction F as [|x y l vs Hxy _ IH]; intros H; constructor.
  - apply H; simpl; auto.
  - apply IH. intros z w Hz. apply H. simpl. auto.
Qed.

Lemma items_in_Ok_mono (eval1 eval2 : dict -> expr -> outcome value) ev pairs :
  (forall k v, In (k, v) pairs -> forall env c,
     (eval1 env k = Some (Ok c) -> eval2 env k = Some (Ok c))
     /\ (eval1 env v = Some (Ok c) -> eval2 env v = Some (Ok c))) ->
  forall env result p,
    items_in eval1 ev env pairs result = Some (Ok p) ->
    items_in eval2 ev env pairs result = Some (Ok p).
Proof.
  induction pairs as [|[k v] pairs IH]; intros Hsub env result p; simpl;
    [auto|].
  intros H. apply bindO_Ok_inv in H as (c_k & Hk & H).
  apply bindO_Ok_inv in H as (c_v & Hv & H).
  rewrite (proj1 (Hsub k v (or_introl eq_refl) env c_k) Hk). simpl.
  rewrite (proj2 (Hsub k v (or_introl eq_refl) env c_v) Hv). simpl.
  destruct (hashable c_k); [|discriminate].
  apply IH; [|exact H]. intros k' v' Hin. apply Hsub. simpl. auto.
Qed.

Lemma Ok_any_filename str_mod global_scope expose_vars filename filename' e :
  forall env v,
    convert_in str_mod global_scope filename expose_vars env e = Some (Ok v) ->
    convert_in str_mod global_scope filename' expose_vars env e = Some (Ok v).
Proof.
  induction e as [e IH] using expr_size_ind. intros env v H.
  rewrite eval_in_unfold in H |- *. unfold eval_node in H |- *.
  destruct e as [ln op values | ln lhs op rhs | ln op operand
                | ln keys values | ln func args keywords starargs kwargs
                | ln s | ln id | ln elts | ln elts | ln kind children].
  - destruct values as [|x [|y [|z rest]]];
      try (destruct op; discriminate).
    assert (Hx : expr_size x < expr_size (BoolOp ln op [x; y]))
      by (apply size_in_BoolOp; simpl; auto).
    assert (Hy : expr_size y < expr_size (BoolOp ln op [x; y]))
      by (apply size_in_BoolOp; simpl; auto).
    destruct op; apply bindO_Ok_inv in H as (a & Ha & H);
      rewrite (IH x Hx _ _ Ha); cbn [bindO]; destruct (truthy a);
      try exact H; apply (IH y Hy), H.
  - destruct op; try discriminate;
      apply bindO_Ok_inv in H as (a & Ha & H);
      apply bindO_Ok_inv in H as (b & Hb & H);
      rewrite (IH lhs ltac:(simpl; lia) _ _ Ha); cbn [bindO];
      rewrite (IH rhs ltac:(simpl; lia) _ _ Hb); exact H.
  - destruct op; try discriminate.
    apply bindO_Ok_inv in H as (a & Ha & H).
    rewrite (IH operand ltac:(simpl; lia) _ _ Ha). exact H.
  - apply bindO_Ok_inv in H as (p & Hp & H).
    erewrite items_in_Ok_mono; [exact H| |exact Hp].
    intros k v' Hin env' c. split; apply IH.
    + exact (proj1 (size_in_Dict ln _ _ _ _ Hin)).
    + exact (proj2 (size_in_Dict ln _ _ _ _ Hin)).
  - destruct func; try discriminate.
    destruct keywords; [|discriminate].
    destruct starargs; [discriminate|]. destruct kwargs; [discriminate|].
    apply bindO_Ok_inv in H as (vs & Hvs & H).
    erewrite mapO_Ok_mono; [exact H| |exact Hvs].
    intros x y Hx. apply IH, size_in_Call, Hx.
  - exact H.
  - destruct (dict_get _ _); [exact H | discriminate].
  - apply bindO_Ok_inv in H as (vs & Hvs & H).
    erewrite mapO_Ok_mono; [exact H| |exact Hvs].
    intros x y Hx. apply IH, size_in_List, Hx.
  - apply bindO_Ok_inv in H as (vs & Hvs & H).
    erewrite mapO_Ok_mono; [exact H| |exact Hvs].
    intros x y Hx. apply IH, size_in_Tuple, Hx.
  - discriminate.
Qed.

Lemma eval_any_filename str_mod global_scope expose_vars filename filename'
    n v :
  _gclient_eval str_mod global_scope filename expose_vars n = Some (Ok v) ->
  _gclient_eval str_mod global_scope filename' expose_vars n = Some (Ok v).
Proof.
  intros H.
  destruct n as [m|s|e]; [destruct m as [b|b|e|b]| |];
    try (simpl in H; discriminate).
  - change (_gclient_eval str_mod global_scope filename expose_vars
              (ExprNode e) = Some (Ok v)) in H.
    change (_gclient_eval str_mod global_scope filename' expose_vars
              (ExprNode e) = Some (Ok v)).
    rewrite gclient_eval_convert_in in H |- *.
    eapply Ok_any_filename, H.
  - rewrite gclient_eval_convert_in in H |- *.
    eapply Ok_any_filename, H.
Qed.

Lemma visit_body_any_filename str_mod global_scope filename filename' body :
  forall scope0 scope,
    visit_body str_mod global_scope filename body scope0 = Some (Ok scope) ->
    visit_body str_mod global_scope filename' body scope0 = Some (Ok scope).
Proof.
  induction body as [|s body IH]; intros scope0 scope; simpl; [auto|].
  destruct (_visit_in_module str_mod global_scope filename scope0 s)
    as [[scope1|e]|] eqn:E; try discriminate.
  intros H. apply visit_ok in E as (ln & ln' & id & value & v & -> & Hv & G & ->).
  apply (eval_any_filename _ _ _ _ filename') in Hv.
  simpl. rewrite Hv. unfold dict_contains. rewrite G.
  rewrite (dict_set_absent _ _ _ G). apply IH, H.
Qed.

(** X11.  The file name only serves the error messages: an evaluation, or
    an execution of a module, that returns a value under one file name
    returns the same value under every other. *)
Theorem X11_filename_only_in_messages :
  forall str_mod global_scope filename filename',
    (forall expose_vars n v,
       _gclient_eval str_mod global_scope filename expose_vars n
       = Some (Ok v) ->
       _gclient_eval str_mod global_scope filename' expose_vars n
       = Some (Ok v))
    /\ (forall n scope,
          _gclient_exec str_mod global_scope filename n = Some (Ok scope) ->
          _gclient_exec str_mod global_scope filename' n = Some (Ok scope)).
Proof.
  intros str_mod global_scope filename filename'. split.
  - intros expose_vars n v. apply eval_any_filename.
  - intros n scope H.
    destruct n as [m|s|e]; [destruct m as [b|b|e|b]| |];
      try (simpl in H; discriminate).
    simpl in H |- *. eapply visit_body_any_filename, H.
Qed.

(** ** Exposure only adds names *)

Lemma items_in_with_exposure (eval_f eval_t : dict -> expr -> outcome value)
    inherited pairs :
  (forall k v, In (k, v) pairs -> forall env c,
     (eval_f inherited k = Some (Ok c) -> eval_t env k = Some (Ok c))
     /\ (eval_f inherited v = Some (Ok c) -> eval_t env v = Some (Ok c))) ->
  forall env result p,
    items_in eval_f false inherited pairs result = Some (Ok p) ->
    exists env',
      items_in eval_t true env pairs result = Some (Ok (env', snd p)).
Proof.
  induction pairs as [|[k v] pairs IH]; intros Hsub env result p; simpl.
  - intros H. inversion H; subst. eauto.
  - intros H. apply bindO_Ok_inv in H as (c_k & Hk & H).
    apply bindO_Ok_inv in H as (c_v & Hv & H).
    rewrite (proj1 (Hsub k v (or_introl eq_refl) env c_k) Hk). simpl.
    rewrite (proj2 (Hsub k v (or_introl eq_refl) env c_v) Hv). simpl.
    destruct (hashable c_k); [|discriminate].
    apply IH; [|exact H]. intros k' v' Hin. apply Hsub. simpl. auto.
Qed.

Lemma Ok_with_exposure str_mod global_scope filename e :
  forall env_f env_t v,
    dict_update env_f _allowed_names = _allowed_names ->
    convert_in str_mod global_scope filename false env_f e = Some (Ok v) ->
    convert_in str_mod global_scope filename true env_t e = Some (Ok v).
Proof.
  induction e as [e IH] using expr_size_ind. intros env_f env_t v Hf H.
  rewrite eval_in_unfold in H |- *. unfold eval_node in H |- *.
  rewrite Hf in H.
  assert (Hown : dict_update _allowed_names _allowed_names = _allowed_names)
    by reflexivity.
  destruct e as [ln op values | ln lhs op rhs | ln op operand
                | ln keys values | ln func args keywords starargs kwargs
                | ln s | ln id | ln elts | ln elts | ln kind children].
  - destruct values as [|x [|y [|z rest]]];
      try (destruct op; discriminate).
    assert (Hx : expr_size x < expr_size (BoolOp ln op [x; y]))
      by (apply size_in_BoolOp; simpl; auto).
    assert (Hy : expr_size y < expr_size (BoolOp ln op [x; y]))
      by (apply size_in_BoolOp; simpl; auto).
    destruct op; apply bindO_Ok_inv in H as (a & Ha & H);
      rewrite (IH x Hx _ _ _ Hown Ha); cbn [bindO]; destruct (truthy a);
      try exact H; apply (IH y Hy _ _ _ Hown), H.
  - destruct op; try discriminate;
      apply bindO_Ok_inv in H as (a & Ha & H);
      apply bindO_Ok_inv in H as (b & Hb & H);
      rewrite (IH lhs ltac:(simpl; lia) _ _ _ Hown Ha); cbn [bindO];
      rewrite (IH rhs ltac:(simpl; lia) _ _ _ Hown Hb); exact H.
  - destruct op; try discriminate.
    apply bindO_Ok_inv in H as (a & Ha & H).
    rewrite (IH operand ltac:(simpl; lia) _ _ _ Hown Ha). exact H.
  - apply bindO_Ok_inv in H as (p & Hp & H).
    eapply items_in_with_exposure in Hp as [env' Hp'].
    + rewrite Hp'. exact H.
    + intros k v' Hin env' c. split; intros Hc.
      * exact (IH k (proj1 (size_in_Dict ln _ _ _ _ Hin)) _ _ _ Hown Hc).
      * exact (IH v' (proj2 (size_in_Dict ln _ _ _ _ Hin)) _ _ _ Hown Hc).
  - destruct func; try discriminate.
    destruct keywords; [|discriminate].
    destruct starargs; [discriminate|]. destruct kwargs; [discriminate|].
    apply bindO_Ok_inv in H as (vs & Hvs & H).
    erewrite mapO_Ok_mono; [exact H| |exact Hvs].
    intros x y Hx Hxy. exact (IH x (size_in_Call _ _ _ _ _ _ _ Hx) _ _ _ Hown Hxy).
  - exact H.
  - rewrite dict_get_own. pose proof (dict_get_own [] id) as G.
    change (dict_update [] _allowed_names) with _allowed_names in G.
    rewrite G in H.
    destruct (String.eqb "False" id); [exact H|].
    destruct (String.eqb "True" id); [exact H|].
    destruct (String.eqb "None" id); [exact H|].
    discriminate.
  - apply bindO_Ok_inv in H as (vs & Hvs & H).
    erewrite mapO_Ok_mono; [exact H| |exact Hvs].
    intros x y Hx Hxy. exact (IH x (size_in_List _ _ _ Hx) _ _ _ Hown Hxy).
  - apply bindO_Ok_inv in H as (vs & Hvs & H).
    erewrite mapO_Ok_mono; [exact H| |exact Hvs].
    intros x y Hx Hxy. exact (IH x (size_in_Tuple _ _ _ Hx) _ _ _ Hown Hxy).
  - discriminate.
Qed.

(** X12.  Exposure only adds names.  An expression that has a value
    without exposure has the same value with exposure, whatever items are
    inherited there; so the special treatment of [vars] never changes the
    value of an expression that would evaluate as the value of any other
    variable. *)
Theorem X12_exposure_only_adds_names :
  forall str_mod global_scope filename e v,
    _gclient_eval str_mod global_scope filename false (ExprNode e)
    = Some (Ok v) ->
    _gclient_eval str_mod global_scope filename true (ExprNode e)
    = Some (Ok v)
    /\ forall env,
         convert_in str_mod global_scope filename true env e = Some (Ok v).
Proof.
  intros str_mod global_scope filename e v H.
  rewrite gclient_eval_convert_in in H.
  split; [rewrite gclient_eval_convert_in|intros env];
    eapply Ok_with_exposure; try exact H; reflexivity.
Qed.

Lemma X12_exposure_only_adds_names_witness :
  _gclient_eval no_formatting ∅ "DEPS" true
    (ExprNode (Dict (Some 1) [Str (Some 1) "a"] [Str (Some 1) "x"]))
  = Some (Ok (VDict [(VStr "a", VStr "x")]))
  /\ forall env,
       convert_in no_formatting ∅ "DEPS" true env
         (Dict (Some 1) [Str (Some 1) "a"] [Str (Some 1) "x"])
       = Some (Ok (VDict [(VStr "a", VStr "x")])).
Proof.
  apply (X12_exposure_only_adds_names no_formatting ∅ "DEPS"
           (Dict (Some 1) [Str (Some 1) "a"] [Str (Some 1) "x"])
           (VDict [(VStr "a", VStr "x")])).
  reflexivity.
Defined.

(** ** The function table *)

Lemma callees_all l :
  (fix all (l : list expr) : list string :=
     match l with [] => [] | x :: l' => callees x ++ all l' end) l
  = flat_map callees l.
Proof. induction l as [|x l IH]; simpl; [reflexivity | rewrite IH; reflexivity]. Qed.

Lemma callees_in_all id x l :
  In x l -> In id (callees x) -> In id (flat_map callees l).
Proof. intros Hx Hid. apply in_flat_map. eauto. Qed.

Lemma items_in_ext_in (eval1 eval2 : dict -> expr -> outcome value) ev pairs :
  (forall k v, In (k, v) pairs -> forall env,
     eval1 env k = eval2 env k /\ eval1 env v = eval2 env v) ->
  forall env result,
    items_in eval1 ev env pairs result = items_in eval2 ev env pairs result.
Proof.
  induction pairs as [|[k v] pairs IH]; intros Hsub env result; simpl;
    [reflexivity|].
  destruct (Hsub k v (or_introl eq_refl) env) as [-> ->].
  apply bindO_ext. intros c_k. apply bindO_ext. intros c_v.
  destruct (hashable c_k); [|reflexivity].
  apply IH. intros k' v' Hin. apply Hsub. simpl. auto.
Qed.

Lemma convert_in_callees str_mod filename expose_vars
    (global_scope global_scope' : gmap string callable) e :
  (forall id, In id (callees e) -> global_scope !! id = global_scope' !! id) ->
  forall env,
    convert_in str_mod global_scope filename expose_vars env e
    = convert_in str_mod global_scope' filename expose_vars env e.
Proof.
  induction e as [e IH] using expr_size_ind. intros Hgs env.
  rewrite !eval_in_unfold. unfold eval_node.
  destruct e as [ln op values | ln lhs op rhs | ln op operand
                | ln keys values | ln func args keywords starargs kwargs
                | ln s | ln id | ln elts | ln elts | ln kind children].
  - simpl in Hgs. rewrite callees_all in Hgs.
    destruct values as [|x [|y [|z rest]]]; try reflexivity.
    assert (Hx : forall env', convert_in str_mod global_scope filename
                                expose_vars env' x
                              = convert_in str_mod global_scope' filename
                                  expose_vars env' x).
    { apply IH; [apply size_in_BoolOp; simpl; auto|].
      intros id Hid. apply Hgs. simpl. apply in_or_app. auto. }
    assert (Hy : forall env', convert_in str_mod global_scope filename
                                expose_vars env' y
                              = convert_in str_mod global_scope' filename
                                  expose_vars env' y).
    { apply IH; [apply size_in_BoolOp; simpl; auto|].
      intros id Hid. apply Hgs. simpl. apply in_or_app. right.
      apply in_or_app. auto. }
    destruct op; rewrite Hx, Hy; reflexivity.
  - simpl in Hgs.
    rewrite (IH lhs ltac:(simpl; lia)
               (fun id Hid => Hgs id (in_or_app _ _ _ (or_introl Hid)))).
    rewrite (IH rhs ltac:(simpl; lia)
               (fun id Hid => Hgs id (in_or_app _ _ _ (or_intror Hid)))).
    reflexivity.
  - simpl in Hgs. rewrite (IH operand ltac:(simpl; lia) Hgs). reflexivity.
  - simpl in Hgs. rewrite !callees_all in Hgs.
    erewrite items_in_ext_in; [reflexivity|].
    intros k v Hin env'. split; apply IH.
    + exact (proj1 (size_in_Dict ln _ _ _ _ Hin)).
    + intros id Hid. apply Hgs, in_or_app. left.
      eapply callees_in_all; [exact (in_combine_l _ _ _ _ Hin) | exact Hid].
    + exact (proj2 (size_in_Dict ln _ _ _ _ Hin)).
    + intros id Hid. apply Hgs, in_or_app. right.
      eapply callees_in_all; [exact (in_combine_r _ _ _ _ Hin) | exact Hid].
  - simpl in Hgs. rewrite callees_all in Hgs.
    destruct func; try reflexivity.
    destruct keywords; [|reflexivity].
    destruct starargs; [reflexivity|]. destruct kwargs; [reflexivity|].
    rewrite <- (Hgs id) by (simpl; auto).
    erewrite mapO_ext_in; [reflexivity|].
    intros x Hx. apply IH; [apply size_in_Call, Hx|].
    intros id' Hid. apply Hgs. simpl. right.
    eapply callees_in_all; eauto.
  - reflexivity.
  - reflexivity.
  - simpl in Hgs. rewrite callees_all in Hgs.
    erewrite mapO_ext_in; [reflexivity|].
    intros x Hx. apply IH; [apply size_in_List, Hx|].
    intros id Hid. apply Hgs. eapply callees_in_all; eauto.
  - simpl in Hgs. rewrite callees_all in Hgs.
    erewrite mapO_ext_in; [reflexivity|].
    intros x Hx. apply IH; [apply size_in_Tuple, Hx|].
    intros id Hid. apply Hgs. eapply callees_in_all; eauto.
  - reflexivity.
Qed.

(** X13.  Only the functions an expression calls matter.  Two function
    tables that agree on the names the expression calls give the same
    outcome, value or exception; an expression without calls has the same
    outcome under every function table. *)
Theorem X13_only_called_functions_matter :
  forall str_mod filename expose_vars
         (global_scope global_scope' : gmap string callable) e,
    (forall id, In id (callees e) ->
       global_scope !! id = global_scope' !! id) ->
    _gclient_eval str_mod global_scope filename expose_vars (ExprNode e)
    = _gclient_eval str_mod global_scope' filename expose_vars (ExprNode e).
Proof.
  intros str_mod filename expose_vars global_scope global_scope' e Hgs.
  rewrite !gclient_eval_convert_in. apply convert_in_callees, Hgs.
Qed.

Lemma X13_only_called_functions_matter_witness :
  _gclient_eval no_formatting
    (<["f" := fun args => Ok (VList args)]> ∅) "DEPS" false
    (ExprNode call_f_a_b)
  = _gclient_eval no_formatting
      (<["g" := fun _ => Raise TypeError]>
         (<["f" := fun args => Ok (VList args)]> ∅)) "DEPS" false
      (ExprNode call_f_a_b).
Proof.
  apply (X13_only_called_functions_matter no_formatting "DEPS" false
           (<["f" := fun args => Ok (VList args)]> ∅)
           (<["g" := fun _ => Raise TypeError]>
              (<["f" := fun args => Ok (VList args)]> ∅))
           call_f_a_b).
  intros id [<-|[]]. reflexivity.
Defined.

(** ** Failing modules *)

Lemma visit_body_Raise_iff str_mod global_scope filename body :
  forall scope0 e,
    visit_body str_mod global_scope filename body scope0 = Some (Raise e)
    <-> exists pre s post scope,
          body = pre ++ s :: post
          /\ visit_body str_mod global_scope filename pre scope0
             = Some (Ok scope)
          /\ _visit_in_module str_mod global_scope filename scope s
             = Some (Raise e).
Proof.
  intros scope0 e. split.
  - revert scope0. induction body as [|s body IH]; intros scope0; simpl;
      [discriminate|].
    destruct (_visit_in_module str_mod global_scope filename scope0 s)
      as [[scope1|e']|] eqn:E; try discriminate.
    + intros H. apply IH in H as (pre & s' & post & scope & -> & Hpre & Hs).
      exists (s :: pre), s', post, scope. simpl. rewrite E. auto.
    + intros H. inversion H; subst. exists [], s, body, scope0. auto.
  - intros (pre & s & post & scope & -> & Hpre & Hs).
    rewrite visit_body_app, Hpre. simpl. rewrite Hs. reflexivity.
Qed.

(** X14.  A module fails exactly with the failure of its first failing
    statement: [_gclient_exec] raises [e] on a module if and only if the
    statements before some statement execute to a scope in which that
    statement raises [e].  What follows the statement is never looked at,
    and no partial scope is returned. *)
Theorem X14_first_failing_statement :
  forall str_mod global_scope filename body e,
    _gclient_exec str_mod global_scope filename (ModNode (Module body))
    = Some (Raise e)
    <-> exists pre s post scope,
          body = pre ++ s :: post
          /\ _gclient_exec str_mod global_scope filename
               (ModNode (Module pre)) = Some (Ok scope)
          /\ _visit_in_module str_mod global_scope filename scope s
             = Some (Raise e).
Proof.
  intros str_mod global_scope filename body e.
  apply (visit_body_Raise_iff str_mod global_scope filename body [] e).
Qed.

(** ** Sequences of different types *)

Lemma append_cons a s t : (String a s ++ t)%string = String a (s ++ t)%string.
Proof. reflexivity. Qed.

Lemma append_middle s1 c s2 :
  ((s1 ++ String c EmptyString) ++ s2 = s1 ++ String c s2)%string.
Proof.
  induction s1 as [|a s1 IH]; [reflexivity|].
  rewrite !append_cons, IH. reflexivity.
Qed.

Lemma length_append_one s1 c :
  String.length (s1 ++ String c EmptyString) = S (String.length s1).
Proof.
  induction s1 as [|a s1 IH]; [reflexivity|].
  rewrite append_cons. cbn [String.length]. rewrite IH. reflexivity.
Qed.

Lemma get_middle s1 c s2 :
  String.get (String.length s1) (s1 ++ String c s2) = Some c.
Proof.
  induction s1 as [|a s1 IH]; [reflexivity|].
  rewrite append_cons. cbn [String.length String.get]. exact IH.
Qed.

Lemma length_chars_of s : length (chars_of s) = String.length s.
Proof. induction s as [|c s IH]; simpl; [reflexivity | rewrite IH; reflexivity]. Qed.

(** X15.  The comparison does not look at the type of the actual sequence.
    An expected list is checked through [len] and indexing only, so a
    string passes for the list of its characters, at every path and
    whatever the scopes (the second part of X8 is the same for a tuple). *)
Theorem X15_string_passes_for_list :
  forall str_mod expected_scope s path actual_scope,
    compare str_mod expected_scope (VList (chars_of s)) (VStr s) path
      actual_scope
    = Ok tt.
Proof.
  intros str_mod expected_scope s path actual_scope.
  cbn [compare py_len]. rewrite length_chars_of, Nat.eqb_refl.
  match goal with
  | |- ?f (chars_of s) 0 = _ =>
      assert (Hloop : forall rest pre,
                 s = (pre ++ rest)%string ->
                 f (chars_of rest) (String.length pre) = Ok tt)
  end.
  { induction rest as [|c rest IHr]; intros pre Hs; [reflexivity|].
    cbn [chars_of getitem]. rewrite Hs at 1. rewrite get_middle.
    cbn [compare py_eq]. rewrite String.eqb_refl.
    rewrite <- length_append_one with (c := c). apply IHr.
    rewrite append_middle. exact Hs. }
  apply (Hloop s EmptyString). reflexivity.
Qed.

(** ** Where a failure comes from *)

Lemma bindO_Raise_inv {A B} (o : outcome A) (k : A -> outcome B) e :
  bindO o k = Some (Raise e) ->
  o = Some (Raise e) \/ exists a, o = Some (Ok a) /\ k a = Some (Raise e).
Proof.
  destruct o as [[a|e']|]; simpl; intros H; try discriminate.
  - right. exists a. auto.
  - left. inversion H. reflexivity.
Qed.

Lemma mapO_Raise_inv {A B} (f : A -> outcome B) l e :
  mapO f l = Some (Raise e) -> exists x, In x l /\ f x = Some (Raise e).
Proof.
  induction l as [|x l IH]; simpl; [discriminate|].
  intros H. apply bindO_Raise_inv in H as [H|(y & _ & H)]; [eauto|].
  apply bindO_Raise_inv in H as [H|(ys & _ & H)]; [|discriminate].
  apply IH in H as (z & Hz & H). eauto.
Qed.

Lemma items_in_Raise_inv (eval : dict -> expr -> outcome value) ev pairs e :
  forall env result,
    items_in eval ev env pairs result = Some (Raise e) ->
    e = TypeError
    \/ exists k v env', In (k, v) pairs
         /\ (eval env' k = Some (Raise e) \/ eval env' v = Some (Raise e)).
Proof.
  induction pairs as [|[k v] pairs IH]; intros env result; simpl;
    [discriminate|].
  intros H. apply bindO_Raise_inv in H as [H|(c_k & _ & H)].
  { right. exists k, v, env. auto. }
  apply bindO_Raise_inv in H as [H|(c_v & _ & H)].
  { right. exists k, v, env. auto. }
  destruct (hashable c_k); [|inversion H; auto].
  apply IH in H as [H|(k' & v' & env' & Hin & H)]; [auto|].
  right. exists k', v', env'. auto.
Qed.

Lemma expr_lines_all l :
  (fix all (l : list expr) : list lineno :=
     match l with [] => [] | x :: l' => expr_lines x ++ all l' end) l
  = flat_map expr_lines l.
Proof. induction l as [|x l IH]; simpl; [reflexivity | rewrite IH; reflexivity]. Qed.

Lemma located_mono str_mod global_scope filename (L1 L2 : list lineno) e :
  (forall ln, In ln L1 -> In ln L2) ->
  located str_mod global_scope filename L1 e ->
  located str_mod global_scope filename L2 e.
Proof.
  intros Hsub [H|(msg & ln & -> & Hin)]; [left; exact H|].
  right. exists msg, ln. auto.
Qed.

Section Located.
Context (str_mod : string -> value -> result value)
        (global_scope : gmap string callable)
        (filename : string) (expose_vars : bool).

Local Abbreviation eval_in :=
  (convert_in str_mod global_scope filename expose_vars).
Local Abbreviation at_lines := (located str_mod global_scope filename).

Lemma located_here msg e : at_lines (expr_lines e)
                             (ValueError msg filename (expr_lineno e)).
Proof. right. exists msg, (expr_lineno e). destruct e; simpl; auto. Qed.

Lemma located_TypeError L : at_lines L TypeError.
Proof. left. left. reflexivity. Qed.

Lemma located_in_all x l L e :
  In x l ->
  (forall ln, In ln (flat_map expr_lines l) -> In ln L) ->
  at_lines (expr_lines x) e -> at_lines L e.
Proof.
  intros Hx Hsub. apply located_mono. intros ln Hln. apply Hsub.
  apply in_flat_map. eauto.
Qed.

Lemma Raise_located e :
  forall env x, eval_in env e = Some (Raise x) -> at_lines (expr_lines e) x.
Proof.
  induction e as [e IH] using expr_size_ind. intros env x H.
  rewrite eval_in_unfold in H. unfold eval_node in H.
  destruct e as [ln op values | ln lhs op rhs | ln op operand
                | ln keys values | ln func args keywords starargs kwargs
                | ln s | ln id | ln elts | ln elts | ln kind children].
  - assert (Hsub : forall y, In y values -> forall env' x',
                     eval_in env' y = Some (Raise x') ->
                     at_lines (expr_lines (BoolOp ln op values)) x').
    { intros y Hy env' x' Hx'.
      apply (located_in_all y values); [exact Hy| |].
      - intros l Hl. simpl. rewrite expr_lines_all. auto.
      - eapply IH; [apply size_in_BoolOp, Hy | exact Hx']. }
    destruct values as [|y [|z [|w rest]]];
      try (destruct op; inversion H; subst;
           apply (located_here _ (BoolOp ln _ _)); fail).
    destruct op; apply bindO_Raise_inv in H as [H|(a & _ & H)];
      try (eapply Hsub; [|exact H]; simpl; auto; fail);
      destruct (truthy a); try discriminate;
      (eapply Hsub; [|exact H]; simpl; auto).
  - assert (Hl : forall env' x', eval_in env' lhs = Some (Raise x') ->
                   at_lines (expr_lines (BinOp ln lhs op rhs)) x').
    { intros env' x' Hx'. apply IH in Hx'; [|simpl; lia].
      eapply located_mono; [|exact Hx']. intros l Hin. simpl. right.
      apply in_or_app. auto. }
    assert (Hr : forall env' x', eval_in env' rhs = Some (Raise x') ->
                   at_lines (expr_lines (BinOp ln lhs op rhs)) x').
    { intros env' x' Hx'. apply IH in Hx'; [|simpl; lia].
      eapply located_mono; [|exact Hx']. intros l Hin. simpl. right.
      apply in_or_app. auto. }
    destruct op;
      try (inversion H; subst; apply (located_here _ (BinOp ln _ _ _)); fail);
      apply bindO_Raise_inv in H as [H|(a & _ & H)];
      try (eapply Hl, H; fail);
      apply bindO_Raise_inv in H as [H|(b & _ & H)];
      try (eapply Hr, H; fail); inversion H as [Hx].
    + apply py_add_raises in Hx as ->. apply located_TypeError.
    + apply py_mod_raises in Hx as [->|[->|Hx]]; left;
        [left|right; left|right; right; right; right]; auto.
  - destruct op;
      try (inversion H; subst; apply (located_here _ (UnaryOp ln _ _)); fail).
    apply bindO_Raise_inv in H as [H|(a & _ & H)]; [|discriminate].
    apply IH in H; [|simpl; lia].
    eapply located_mono; [|exact H]. intros l Hin. simpl. auto.
  - apply bindO_Raise_inv in H as [H|(p & _ & H)]; [|discriminate].
    apply items_in_Raise_inv in H as [->|(k & v & env' & Hin & H)];
      [apply located_TypeError|].
    destruct H as [H|H].
    + apply IH in H; [|exact (proj1 (size_in_Dict ln _ _ _ _ Hin))].
      eapply located_mono; [|exact H]. intros l Hl. simpl. right.
      rewrite !expr_lines_all. apply in_or_app. left.
      apply in_flat_map. exists k. split; [|exact Hl].
      exact (in_combine_l _ _ _ _ Hin).
    + apply IH in H; [|exact (proj2 (size_in_Dict ln _ _ _ _ Hin))].
      eapply located_mono; [|exact H]. intros l Hl. simpl. right.
      rewrite !expr_lines_all. apply in_or_app. right.
      apply in_flat_map. exists v. split; [|exact Hl].
      exact (in_combine_r _ _ _ _ Hin).
  - destruct func;
      try (inversion H; subst;
           apply (located_here _ (Call ln _ _ _ _ _)); fail).
    destruct keywords;
      [|inversion H; subst; apply (located_here _ (Call ln _ _ _ _ _))].
    destruct starargs;
      [inversion H; subst; apply (located_here _ (Call ln _ _ _ _ _))|].
    destruct kwargs;
      [inversion H; subst; apply (located_here _ (Call ln _ _ _ _ _))|].
    apply bindO_Raise_inv in H as [H|(vs & _ & H)].
    + apply mapO_Raise_inv in H as (y & Hy & H).
      apply IH in H; [|apply size_in_Call, Hy].
      apply (located_in_all y args); [exact Hy| |exact H].
      intros l Hl. simpl. right. rewrite expr_lines_all. auto.
    + left. destruct (global_scope !! id) as [f|] eqn:G; inversion H.
      * right. right. right. left. eauto.
      * right. right. left. eauto.
  - discriminate.
  - destruct (dict_get _ _); [discriminate|]. inversion H; subst.
    apply (located_here _ (Name ln id)).
  - apply bindO_Raise_inv in H as [H|(vs & _ & H)]; [|discriminate].
    apply mapO_Raise_inv in H as (y & Hy & H).
    apply IH in H; [|apply size_in_List, Hy].
    apply (located_in_all y elts); [exact Hy| |exact H].
    intros l Hl. simpl. right. rewrite expr_lines_all. auto.
  - apply bindO_Raise_inv in H as [H|(vs & _ & H)]; [|discriminate].
    apply mapO_Raise_inv in H as (y & Hy & H).
    apply IH in H; [|apply size_in_Tuple, Hy].
    apply (located_in_all y elts); [exact Hy| |exact H].
    intros l Hl. simpl. right. rewrite expr_lines_all. auto.
  - inversion H; subst. apply (located_here _ (OtherExpr ln kind children)).
Qed.

End Located.

(** X16.  A failure points into the tree.  When the evaluation of an
    expression raises, the exception either comes from the host language
    or a callable and is passed on as it is, or it is a [ValueError] of
    the evaluator that names the file and the line of a node of the
    expression. *)
Theorem X16_failure_points_into_the_tree :
  forall str_mod global_scope filename expose_vars e x,
    _gclient_eval str_mod global_scope filename expose_vars (ExprNode e)
    = Some (Raise x) ->
    foreign_failure str_mod global_scope x
    \/ exists msg ln, x = ValueError msg filename ln /\ In ln (expr_lines e).
Proof.
  intros str_mod global_scope filename expose_vars e x H.
  rewrite gclient_eval_convert_in in H.
  exact (Raise_located _ _ _ _ _ _ _ H).
Qed.

Lemma X16_failure_points_into_the_tree_witness :
  foreign_failure no_formatting ∅
    (ValueError (InvalidName "a" _allowed_names) "DEPS" (Some 2))
  \/ exists msg ln,
       ValueError (InvalidName "a" _allowed_names) "DEPS" (Some 2)
       = ValueError msg "DEPS" ln
       /\ In ln (expr_lines (List (Some 1) [Str (Some 1) "x";
                                            Name (Some 2) "a"])).
Proof.
  apply (X16_failure_points_into_the_tree no_formatting ∅ "DEPS" false
           (List (Some 1) [Str (Some 1) "x"; Name (Some 2) "a"])).
  reflexivity.
Defined.
